(** * Convexity properties of graphs

    A shallow embedding of [sage/graphs/convexity_properties.pyx]: the
    class [ConvexityProperties], its cache of shortest-path bitsets, the
    closure loop [_bitset_convex_hull], the public [hull], the greedy
    expansion [_greedy_increase] and the constraint-generation loop of
    [hull_number]. *)

From stdpp Require Import base list gmap strings.
From Stdlib Require Import ZArith QArith Lia Lqa.

Open Scope nat_scope.

(** ** Bitsets

    Modelled from the spec: the bitset primitives of
    [sage/data_structures/bitset.pxi] (reached through the [include] of
    [binary_matrix.pxi]) are not part of the sources at hand.  The spec
    asks for a bit-vector of fixed length supporting membership test, add,
    union, cardinality and ordered iteration; a bitset of capacity [n] is a
    list of [n] booleans, bit [k] being the [k]-th entry. *)
Module Bitset.

Abbreviation bitset_t := (list bool).

(** [bitset_init(bits, size)]: a zeroed bitset of capacity [size]. *)
Definition bitset_init (size : nat) : bitset_t := replicate size false.

(** [bitset_set_first_n(bits, n)]: exactly the first [n] bits are set. *)
Definition bitset_set_first_n (bits : bitset_t) (n : nat) : bitset_t :=
  map (λ k, bool_decide (k < n)) (seq 0 (length bits)).

(** [bitset_in(bits, k)]. *)
Definition bitset_in (bits : bitset_t) (k : nat) : bool :=
  default false (bits !! k).

(** [bitset_add(bits, k)]. *)
Definition bitset_add (bits : bitset_t) (k : nat) : bitset_t :=
  <[k := true]> bits.

(** [bitset_union(r, a, b)] with [r] and [a] the same bitset: the
    destination keeps its capacity. *)
Fixpoint bitset_union (a b : bitset_t) : bitset_t :=
  match a, b with
  | x :: a', y :: b' => (x || y) :: bitset_union a' b'
  | _, _ => a
  end.

(** [bitset_len(bits)]: the number of bits set. *)
Fixpoint bitset_len (bits : bitset_t) : nat :=
  match bits with
  | [] => 0
  | b :: bits' => (if b then 1 else 0) + bitset_len bits'
  end.

(** [bitset_list(bits)]: the elements, in increasing order. *)
Definition bitset_list (bits : bitset_t) : list nat :=
  filter (λ k, bitset_in bits k = true) (seq 0 (length bits)).

(** [bitset_copy(dst, src)]. *)
Definition bitset_copy (dst src : bitset_t) : bitset_t := src.

(** Inclusion of the elements. *)
Definition subset (a b : bitset_t) : Prop :=
  ∀ k, bitset_in a k = true → bitset_in b k = true.

End Bitset.
Export Bitset.

(** ** Results of calls that may raise or loop *)

Inductive exn : Type :=
  | NotImplementedError (msg : string)
  | KeyError
  | IndexError
  | MIPSolverException.

Inductive result (A : Type) : Type :=
  | Ok (a : A)
  | Raise (e : exn)
  | OutOfFuel.
Arguments Ok {A} a.
Arguments Raise {A} e.
Arguments OutOfFuel {A}.

#[global] Instance result_ret : MRet result := λ A a, Ok a.
#[global] Instance result_bind : MBind result := λ A B k r,
  match r with
  | Ok a => k a
  | Raise e => Raise e
  | OutOfFuel => OutOfFuel
  end.

(** ** The class

    The [cdef int] variables ([n], the loop indices, the cardinalities)
    stay between 0 and [n * n], far below [2^31] for any graph whose
    distances fit [unsigned short]; they are natural numbers here.  The two
    [while True] loops are functions of a fuel that bounds the number of
    turns: [OutOfFuel] stands for a loop that has not returned yet. *)

Section ConvexityProperties.

Context {V : Type} `{Countable V}.

(** What the constructor asks of its argument [G]: whether it is a
    [DiGraph], [list(G)], and the answer of the distance oracle
    [c_distances_all_pairs(G, vertex_list=list(G))], a flat array of
    [n * n] [unsigned short]. [G.order()] is the number of vertices. *)
Record Graph : Type := {
  isinstance_DiGraph : bool;
  list_G : list V;
  c_distances_all_pairs : list Z
}.

Definition order (G : Graph) : nat := length (list_G G).

Record ConvexityProperties : Type := {
  _n : nat;
  _list_integers_to_vertices : list V;
  _dict_vertices_to_integers : gmap V nat;
  _cache_hull_pairs : list bitset_t
}.

(** [{v: i for i, v in enumerate(l)}]: a later entry overwrites. *)
Fixpoint dict_enumerate (i : nat) (l : list V) (d : gmap V nat) : gmap V nat :=
  match l with
  | [] => d
  | v :: l' => dict_enumerate (S i) l' (<[v := i]> d)
  end.

(** [binary_matrix_init(m, n_rows, n_cols)] then [binary_matrix_fill(m, 0)]. *)
Definition binary_matrix_init (n_rows n_cols : nat) : list bitset_t :=
  replicate n_rows (bitset_init n_cols).

(** [d_i[k]] for [d_i = c_distances + n * i], an [unsigned short]. *)
Definition d_at (c_distances : list Z) (n i k : nat) : Z :=
  default 0%Z (c_distances !! (n * i + k)).

(** The state of the filling loops: the rows and the pointer [p_bitset],
    as an index into the rows.  In [d_i[k] + d_j[k] == d_ij] the operands
    are promoted to [int], so the sum of two [unsigned short] does not
    wrap. *)
Definition fill_k (c_distances : list Z) (n i j : nat)
    (rows : list bitset_t) (p k : nat) : list bitset_t :=
  if (d_at c_distances n i k + d_at c_distances n j k =? d_at c_distances n i j)%Z
  then alter (λ r, bitset_add r k) p rows
  else rows.

Definition fill_j (c_distances : list Z) (n i : nat)
    (st : list bitset_t * nat) (j : nat) : list bitset_t * nat :=
  let '(rows, p) := st in
  (foldl (λ rows k, fill_k c_distances n i j rows p k) rows (seq 0 n), p + 1).

Definition fill_i (c_distances : list Z) (n : nat)
    (st : list bitset_t * nat) (i : nat) : list bitset_t * nat :=
  foldl (fill_j c_distances n i) st (seq (i + 1) (n - (i + 1))).

Definition fill_cache (c_distances : list Z) (n : nat) : list bitset_t :=
  fst (foldl (fill_i c_distances n)
             (binary_matrix_init (n * (n - 1) / 2) n, 0) (seq 0 n)).

Definition __init__ (G : Graph) : result ConvexityProperties :=
  if isinstance_DiGraph G
  then Raise (NotImplementedError
                ("this is currently implemented for Graphs only, " +:+
                 "but only minor updates are needed if you want " +:+
                 "to make it support DiGraphs too"))
  else
    let n := order G in
    let l := list_G G in
    Ok {| _n := n;
          _list_integers_to_vertices := l;
          _dict_vertices_to_integers := dict_enumerate 0 l ∅;
          _cache_hull_pairs := fill_cache (c_distances_all_pairs G) n |}.

(** [_vertices_to_integers]: [self._dict_vertices_to_integers[v]] raises
    [KeyError] on a vertex that is not a key. *)
Fixpoint _vertices_to_integers (self : ConvexityProperties)
    (vertices : list V) : result (list nat) :=
  match vertices with
  | [] => Ok []
  | v :: vs =>
      match _dict_vertices_to_integers self !! v with
      | None => Raise KeyError
      | Some i => l ← _vertices_to_integers self vs; Ok (i :: l)
      end
  end.

(** [_integers_to_vertices]: [self._list_integers_to_vertices[i]] raises
    [IndexError] past the end of the list. *)
Fixpoint _integers_to_vertices (self : ConvexityProperties)
    (integers : list nat) : result (list V) :=
  match integers with
  | [] => Ok []
  | i :: rest =>
      match _list_integers_to_vertices self !! i with
      | None => Raise IndexError
      | Some v => l ← _integers_to_vertices self rest; Ok (v :: l)
      end
  end.

(** *** [_bitset_convex_hull]

    The state of one pass over the cache: the set [hull], the pointer
    [p_bitset] as an index into the rows, and the rows that
    [bitset_union] has read so far. *)
Record scan : Type := Scan {
  sc_hull : bitset_t;
  sc_p : nat;
  sc_reads : list nat
}.

(** [p_bitset[0]]; past the end of the rows nothing is read. *)
Definition row_at (rows : list bitset_t) (p : nat) : bitset_t :=
  default [] (rows !! p).

(** The body of [for j in range(i + 1, self._n)]. *)
Definition scan_j (rows : list bitset_t) (st : scan) (j : nat) : scan :=
  let st' :=
    if bitset_in (sc_hull st) j
    then Scan (bitset_union (sc_hull st) (row_at rows (sc_p st)))
              (sc_p st) (sc_reads st ++ [sc_p st])
    else st in
  Scan (sc_hull st') (sc_p st' + 1) (sc_reads st').

(** The body of [for i in range(self._n - 1)]. *)
Definition scan_i (n : nat) (rows : list bitset_t) (st : scan) (i : nat) : scan :=
  if negb (bitset_in (sc_hull st) i)
  then Scan (sc_hull st) (sc_p st + (n - 1 - i)) (sc_reads st)
  else foldl (scan_j rows) st (seq (i + 1) (n - (i + 1))).

(** One turn of the [while True] loop, up to [tmp_count]. *)
Definition one_pass (self : ConvexityProperties) (hull : bitset_t) : scan :=
  foldl (scan_i (_n self) (_cache_hull_pairs self))
        (Scan hull 0 []) (seq 0 (_n self - 1)).

(** What a run of the closure loop leaves: the set, the number of passes
    executed, and for each pass the rows it read. *)
Record closure_run : Type := ClosureRun {
  cr_hull : bitset_t;
  cr_passes : nat;
  cr_reads : list (list nat)
}.

(** The [while True] loop, entered with [count] the cardinality before
    the pass. *)
Fixpoint closure_loop (fuel : nat) (self : ConvexityProperties)
    (hull : bitset_t) (count passes : nat) (reads : list (list nat))
    : result closure_run :=
  match fuel with
  | 0 => OutOfFuel
  | S fuel' =>
      let st := one_pass self hull in
      let tmp_count := bitset_len (sc_hull st) in
      if tmp_count =? count
      then Ok (ClosureRun (sc_hull st) (S passes) (reads ++ [sc_reads st]))
      else closure_loop fuel' self (sc_hull st) tmp_count (S passes)
                        (reads ++ [sc_reads st])
  end.

(** [count = bitset_len(hull)], then the loop. *)
Definition _bitset_convex_hull_run (fuel : nat) (self : ConvexityProperties)
    (hull : bitset_t) : result closure_run :=
  closure_loop fuel self hull (bitset_len hull) 0 [].

(** The method itself: the input bitset after the call. *)
Definition _bitset_convex_hull (fuel : nat) (self : ConvexityProperties)
    (hull : bitset_t) : result bitset_t :=
  r ← _bitset_convex_hull_run fuel self hull; Ok (cr_hull r).

(** *** [hull] *)

(** [for v in vertices: bitset_add(bs, self._dict_vertices_to_integers[v])]. *)
Fixpoint add_vertices (self : ConvexityProperties) (bs : bitset_t)
    (vertices : list V) : result bitset_t :=
  match vertices with
  | [] => Ok bs
  | v :: vs =>
      match _dict_vertices_to_integers self !! v with
      | None => Raise KeyError
      | Some i => add_vertices self (bitset_add bs i) vs
      end
  end.

(** A call of [hull]: the answer, and what the closure loop did. *)
Definition hull_run (fuel : nat) (self : ConvexityProperties)
    (vertices : list V) : result (list V * closure_run) :=
  let bs := bitset_init (_n self) in
  let bs := bitset_set_first_n bs 0 in
  bs ← add_vertices self bs vertices;
  r ← _bitset_convex_hull_run fuel self bs;
  answer ← _integers_to_vertices self (bitset_list (cr_hull r));
  Ok (answer, r).

(** The method itself. *)
Definition hull (fuel : nat) (self : ConvexityProperties)
    (vertices : list V) : result (list V) :=
  ar ← hull_run fuel self vertices; Ok (fst ar).

(** *** [_greedy_increase] *)

(** The body of [for i in range(self._n)]; an exception raised in an
    earlier turn goes through. *)
Definition greedy_step (fuel : nat) (self : ConvexityProperties)
    (acc : result bitset_t) (i : nat) : result bitset_t :=
  bs ← acc;
  if negb (bitset_in bs i)
  then
    let tmp := bitset_copy (bitset_init (_n self)) bs in
    let tmp := bitset_add tmp i in
    tmp ← _bitset_convex_hull fuel self tmp;
    if bitset_len tmp <? _n self then Ok (bitset_add bs i) else Ok bs
  else Ok bs.

(** The method itself: the input bitset after the call. *)
Definition _greedy_increase (fuel : nat) (self : ConvexityProperties)
    (bs : bitset_t) : result bitset_t :=
  foldl (greedy_step fuel self) (Ok bs) (seq 0 (_n self)).

End ConvexityProperties.

Arguments Graph V : clear implicits.
Arguments ConvexityProperties V {_ _}.

(** ** The optimization backend

    Modelled from the spec: [sage.numerical.backends.generic_backend] is
    not part of the sources at hand.  The spec asks of the backend binary
    variables with an objective coefficient, a sense, linear constraints
    [(terms, lower_bound, upper_bound)] that accumulate across calls of
    [solve()], and after a solve the value of each variable and of the
    objective, as reals.  [hull_number] only compares these reals with
    [.5] and truncates the objective to an [int]; they are rationals
    here. *)
Module Backend.

Definition linear_constraint : Type := list (nat * Z) * option Z * option Z.

(** The program held by a [GenericBackend]. *)
Record GenericBackend : Type := {
  is_maximization : bool;
  ncols : nat;
  constraints : list linear_constraint
}.

(** [get_solver(constraint_generation=True)]. *)
Definition get_solver : GenericBackend :=
  {| is_maximization := true; ncols := 0; constraints := [] |}.

(** [p.set_sense(sense)]: [False] is minimization. *)
Definition set_sense (p : GenericBackend) (sense : bool) : GenericBackend :=
  {| is_maximization := sense; ncols := ncols p; constraints := constraints p |}.

(** [p.add_variables(number, 0, None, True, False, False, 1, None)]:
    [number] binary variables, each with coefficient 1 in the objective. *)
Definition add_variables (p : GenericBackend) (number : nat) : GenericBackend :=
  {| is_maximization := is_maximization p;
     ncols := ncols p + number;
     constraints := constraints p |}.

(** [p.add_linear_constraint(coefficients, lower_bound, upper_bound)]. *)
Definition add_linear_constraint (p : GenericBackend)
    (coefficients : list (nat * Z)) (lower_bound upper_bound : option Z)
    : GenericBackend :=
  {| is_maximization := is_maximization p;
     ncols := ncols p;
     constraints := constraints p ++ [(coefficients, lower_bound, upper_bound)] |}.

(** What can be read after [p.solve()]. *)
Record solution : Type := {
  get_variable_value : nat → Q;
  get_objective_value : Q
}.

(** [p.solve()] either raises [MIPSolverException] or leaves a solution. *)
Definition solver : Type := GenericBackend → option solution.

(** [x > .5] on the reals read from the backend. *)
Definition gt_half (x : Q) : bool :=
  if Qlt_le_dec (1 # 2) x then true else false.

(** [<int> x]: the C conversion of a [double], towards zero. *)
Definition to_int (x : Q) : Z := Z.quot (Qnum x) (Z.pos (Qden x)).

(** *** What a solution is asked to be

    The left-hand side of a constraint and the sum of the variables, under
    the values read from the backend. *)
Definition lhs_value (s : solution) (coefficients : list (nat * Z)) : Q :=
  foldr (λ t acc, (inject_Z t.2 * get_variable_value s t.1 + acc)%Q)
        0%Q coefficients.

Definition satisfies (s : solution) (c : linear_constraint) : Prop :=
  let '(coefficients, lower_bound, upper_bound) := c in
  match lower_bound with
  | Some l => (inject_Z l <= lhs_value s coefficients)%Q
  | None => True
  end
  ∧ match upper_bound with
    | Some u => (lhs_value s coefficients <= inject_Z u)%Q
    | None => True
    end.

Definition sum_values (s : solution) (n : nat) : Q :=
  foldr (λ i acc, (get_variable_value s i + acc)%Q) 0%Q (seq 0 n).

(** The 0/1 assignments of [n] variables, as bitsets, and what it is for
    one to meet the constraints of a program. *)
Fixpoint assignments (n : nat) : list bitset_t :=
  match n with
  | 0 => [[]]
  | S n' => map (cons false) (assignments n') ++ map (cons true) (assignments n')
  end.

Definition lhs (x : bitset_t) (coefficients : list (nat * Z)) : Z :=
  foldr (λ t acc, ((if bitset_in x t.1 then t.2 else 0) + acc)%Z)
        0%Z coefficients.

Definition meets (x : bitset_t) (c : linear_constraint) : bool :=
  let '(coefficients, lower_bound, upper_bound) := c in
  match lower_bound with Some l => (l <=? lhs x coefficients)%Z | None => true end
  && match upper_bound with Some u => (lhs x coefficients <=? u)%Z | None => true end.

Definition feasible (p : GenericBackend) (x : bitset_t) : bool :=
  forallb (meets x) (constraints p).

(** The contract of an exact 0/1 backend: on a program that some 0/1
    assignment meets, [solve()] leaves a solution; each variable is 0 or
    1, every constraint holds, and the objective is the sum of the
    variables (each has coefficient 1). *)
Definition exact_backend (solve : solver) : Prop :=
  ∀ p, (∃ x, length x = ncols p ∧ feasible p x = true) →
    ∃ s, solve p = Some s
       ∧ (∀ i, i < ncols p →
            (get_variable_value s i == 0 ∨ get_variable_value s i == 1)%Q)
       ∧ (∀ c, c ∈ constraints p → satisfies s c)
       ∧ (get_objective_value s == sum_values s (ncols p))%Q.

End Backend.
Export Backend.

Section HullNumber.

Context {V : Type} `{Countable V}.
Variable solve : solver.

(** What [hull_number] returns: an integer or a list of vertices. *)
Inductive answer : Type :=
  | Number (k : Z)
  | Vertices (l : list V).

(** [constraint = []; for i in range(n): if not bitset_in(current_hull, i):
    constraint.append((i, 1))]. *)
Definition build_constraint (n : nat) (current_hull : bitset_t) : list (nat * Z) :=
  foldl (λ constraint i,
           if negb (bitset_in current_hull i) then constraint ++ [(i, 1%Z)]
           else constraint)
        [] (seq 0 n).

(** [for i in range(n): if p.get_variable_value(i) > .5: bitset_add(current_hull, i)]. *)
Definition read_solution (n : nat) (s : solution) (current_hull : bitset_t) : bitset_t :=
  foldl (λ h i, if gt_half (get_variable_value s i) then bitset_add h i else h)
        current_hull (seq 0 n).

(** [constraint = []; for i in range(n): if p.get_variable_value(i) > .5:
    constraint.append(i)]. *)
Definition selected (n : nat) (s : solution) : list nat :=
  foldl (λ constraint i,
           if gt_half (get_variable_value s i) then constraint ++ [i]
           else constraint)
        [] (seq 0 n).

(** What the constraint-generation loop leaves: the backend, the last
    solution, the number of calls of [solve()] and what [verbose]
    printed. *)
Record generation : Type := Generation {
  g_backend : GenericBackend;
  g_solution : solution;
  g_solves : nat;
  g_printed : list (list nat)
}.

(** The [while True] loop of [hull_number]; [fuel] bounds its turns and
    [cfuel] those of each closure. *)
Fixpoint generation_loop (fuel cfuel : nat) (self : ConvexityProperties V)
    (verbose : bool) (p : GenericBackend) (current_hull : bitset_t)
    (solves : nat) (printed : list (list nat)) : result generation :=
  match fuel with
  | 0 => OutOfFuel
  | S fuel' =>
      current_hull ← _greedy_increase cfuel self current_hull;
      let printed :=
        if verbose then printed ++ [bitset_list current_hull] else printed in
      let constraint := build_constraint (_n self) current_hull in
      let p := add_linear_constraint p constraint (Some 1%Z) None in
      match solve p with
      | None => Raise MIPSolverException
      | Some s =>
          let current_hull := bitset_set_first_n current_hull 0 in
          let current_hull := read_solution (_n self) s current_hull in
          current_hull ← _bitset_convex_hull cfuel self current_hull;
          if bitset_len current_hull =? _n self
          then Ok (Generation p s (S solves) printed)
          else generation_loop fuel' cfuel self verbose p current_hull
                               (S solves) printed
      end
  end.

(** The backend as [hull_number] sets it up before the loop. *)
Definition initial_backend (self : ConvexityProperties V) : GenericBackend :=
  let p := get_solver in
  let p := set_sense p false in
  let p := add_variables p (_n self) in
  add_linear_constraint p (map (λ i, (i, 1%Z)) (seq 0 (_n self))) (Some 2%Z) None.

(** The working set [current_hull] as [hull_number] sets it up before
    the loop. *)
Definition initial_hull (self : ConvexityProperties V) : bitset_t :=
  let current_hull := bitset_init (_n self) in
  bitset_set_first_n current_hull 1.

(** A call of [hull_number]: the value returned and, when the backend
    was asked for, what the loop left. *)
Definition hull_number_run (fuel : nat) (self : ConvexityProperties V)
    (value_only verbose : bool) : result (answer * option generation) :=
  if _n self <=? 2 then
    if value_only then Ok (Number (Z.of_nat (_n self)), None)
    else Ok (Vertices (_list_integers_to_vertices self), None)
  else
    let p := initial_backend self in
    let current_hull := initial_hull self in
    g ← generation_loop fuel fuel self verbose p current_hull 0 [];
    if value_only
    then Ok (Number (to_int (get_objective_value (g_solution g))), Some g)
    else
      l ← _integers_to_vertices self (selected (_n self) (g_solution g));
      Ok (Vertices l, Some g).

(** The method itself. *)
Definition hull_number (fuel : nat) (self : ConvexityProperties V)
    (value_only verbose : bool) : result answer :=
  ag ← hull_number_run fuel self value_only verbose; Ok (fst ag).

End HullNumber.

Arguments answer V : clear implicits.

(** ** An exhaustive backend

    A solver that tries every 0/1 assignment of the variables and keeps
    one of least objective among those meeting all constraints. *)
Module Exhaustive.

(** The first assignment of least cardinality in a list. *)
Fixpoint least (xs : list bitset_t) : option bitset_t :=
  match xs with
  | [] => None
  | x :: xs' =>
      match least xs' with
      | Some y => if bitset_len y <? bitset_len x then Some y else Some x
      | None => Some x
      end
  end.

Definition solution_of (x : bitset_t) : solution :=
  {| get_variable_value := λ i, if bitset_in x i then 1%Q else 0%Q;
     get_objective_value := inject_Z (Z.of_nat (bitset_len x)) |}.

Definition solve : solver := λ p,
  solution_of <$> least (filter (λ x, feasible p x = true) (assignments (ncols p))).

End Exhaustive.

(** ** Examples of graphs *)

(** The path 0 - 1 - 2 - 3 - 4 and its distances. *)
Definition path5 : Graph nat :=
  {| isinstance_DiGraph := false;
     list_G := [0; 1; 2; 3; 4];
     c_distances_all_pairs :=
       [0; 1; 2; 3; 4;
        1; 0; 1; 2; 3;
        2; 1; 0; 1; 2;
        3; 2; 1; 0; 1;
        4; 3; 2; 1; 0]%Z |}.

(** The Petersen graph: outer cycle 0..4, inner star 5..9, spokes [i, i+5];
    two distinct vertices are at distance 1 or 2. *)
Definition petersen_edges : list (nat * nat) :=
  [(0, 1); (0, 4); (0, 5); (1, 2); (1, 6); (2, 3); (2, 7); (3, 4); (3, 8);
   (4, 9); (5, 7); (5, 8); (6, 8); (6, 9); (7, 9)].

Definition petersen_dist (u v : nat) : Z :=
  if u =? v then 0%Z
  else if existsb (λ e, ((fst e =? u) && (snd e =? v)) || ((fst e =? v) && (snd e =? u)))
                  petersen_edges
       then 1%Z else 2%Z.

Definition petersen : Graph nat :=
  {| isinstance_DiGraph := false;
     list_G := seq 0 10;
     c_distances_all_pairs :=
       flat_map (λ u, map (petersen_dist u) (seq 0 10)) (seq 0 10) |}.

(** The instance the constructor builds for a graph that is not a
    [DiGraph]. *)
Definition instance_of (G : Graph nat) : ConvexityProperties nat :=
  {| _n := order G;
     _list_integers_to_vertices := list_G G;
     _dict_vertices_to_integers := dict_enumerate 0 (list_G G) ∅;
     _cache_hull_pairs := fill_cache (c_distances_all_pairs G) (order G) |}.

(** The graph 0 - 1. *)
Definition path2 : Graph nat :=
  {| isinstance_DiGraph := false;
     list_G := [0; 1];
     c_distances_all_pairs := [0; 1;  1; 0]%Z |}.

(** The path 0 - 1 - 2. *)
Definition path3 : Graph nat :=
  {| isinstance_DiGraph := false;
     list_G := [0; 1; 2];
     c_distances_all_pairs := [0; 1; 2;  1; 0; 1;  2; 1; 0]%Z |}.

(** [digraphs.Circuit(5)]: the directed cycle 0 -> 1 -> 2 -> 3 -> 4 -> 0. *)
Definition circuit5 : Graph nat :=
  {| isinstance_DiGraph := true;
     list_G := [0; 1; 2; 3; 4];
     c_distances_all_pairs :=
       [0; 1; 2; 3; 4;
        4; 0; 1; 2; 3;
        3; 4; 0; 1; 2;
        2; 3; 4; 0; 1;
        1; 2; 3; 4; 0]%Z |}.

(** ** The notions the properties are stated with *)

Section Notions.

Context {V : Type} `{Countable V}.
Implicit Types (self : ConvexityProperties V) (G : Graph V).

(** The set after one pass of the closure loop. *)
Definition pass (self : ConvexityProperties V) (hull : bitset_t) : bitset_t :=
  sc_hull (one_pass self hull).

(** The pairs [(i, j)], [i < j < n], in the order both the constructor
    and the closure loop walk the rows. *)
Definition row_pairs (n i : nat) : list (nat * nat) :=
  map (pair i) (seq (i + 1) (n - (i + 1))).

Definition pairs (n : nat) : list (nat * nat) :=
  flat_map (row_pairs n) (seq 0 n).

(** The rank of the pair [(i, j)] among the rows. *)
Definition row_start (n i : nat) : nat :=
  sum_list_with (λ i', n - (i' + 1)) (seq 0 i).

Definition pair_index (n i j : nat) : nat := row_start n i + (j - (i + 1)).

(** The cached row for the pair [(i, j)], [i < j]. *)
Definition cached_row (self : ConvexityProperties V) (i j : nat) : bitset_t :=
  row_at (_cache_hull_pairs self) (pair_index (_n self) i j).

(** A set is convex with respect to the cache when it contains the cached
    row of each pair of its elements. *)
Definition convex (self : ConvexityProperties V) (X : bitset_t) : Prop :=
  ∀ i j k, i < j → j < _n self → k < _n self →
    bitset_in X i = true → bitset_in X j = true →
    bitset_in (cached_row self i j) k = true → bitset_in X k = true.

(** The closure loop seen pair by pair. *)
Definition scan_pair (rows : list bitset_t) (st : scan) (ij : nat * nat) : scan :=
  if bitset_in (sc_hull st) ij.1 && bitset_in (sc_hull st) ij.2
  then Scan (bitset_union (sc_hull st) (row_at rows (sc_p st)))
            (sc_p st + 1) (sc_reads st ++ [sc_p st])
  else Scan (sc_hull st) (sc_p st + 1) (sc_reads st).

(** The whole vertex set as a bitset of capacity [n]. *)
Definition full (n : nat) : bitset_t := replicate n true.

(** What a run of the loop is: the first [S k] passes, [k] being the
    first pass count at which the cardinality stays. *)
Definition stops_at self (hull : bitset_t) (k : nat) : Prop :=
  bitset_len (Nat.iter (S k) (pass self) hull)
    = bitset_len (Nat.iter k (pass self) hull)
  ∧ ∀ m, m < k →
      bitset_len (Nat.iter (S m) (pass self) hull)
        ≠ bitset_len (Nat.iter m (pass self) hull).

(** The set has a closure that is not the whole vertex set. *)
Definition proper_closure (fuel : nat) self (X : bitset_t) : Prop :=
  ∃ C, _bitset_convex_hull fuel self X = Ok C ∧ bitset_len C < _n self.

(** The set held by [_greedy_increase] when candidate [i] comes up. *)
Definition greedy_prefix (fuel : nat) self (bs : bitset_t) (i : nat)
    : result bitset_t :=
  foldl (greedy_step fuel self) (Ok bs) (seq 0 i).

(** The test of the innermost loop of the constructor. *)
Definition on_shortest_path (c_distances : list Z) (n i j k : nat) : bool :=
  (d_at c_distances n i k + d_at c_distances n j k =? d_at c_distances n i j)%Z.

(** What the loop over [k] does to the row under the pointer. *)
Definition fill_row (c_distances : list Z) (n i j : nat) (r : bitset_t)
    (ks : list nat) : bitset_t :=
  foldl (λ r k, if on_shortest_path c_distances n i j k then bitset_add r k else r)
        r ks.

(** The filling loops, pair by pair. *)
Definition fill_pair (c_distances : list Z) (n : nat)
    (st : list bitset_t * nat) (ij : nat * nat) : list bitset_t * nat :=
  fill_j c_distances n ij.1 st ij.2.

(** The entry [d(a, b)] of the distance matrix of [G]. *)
Definition distance (G : Graph V) (a b : nat) : Z :=
  d_at (c_distances_all_pairs G) (order G) a b.

(** The instance was built from a graph whose vertices are distinct. *)
Definition well_formed self : Prop :=
  _n self = length (_list_integers_to_vertices self)
  ∧ NoDup (_list_integers_to_vertices self)
  ∧ _dict_vertices_to_integers self
    = dict_enumerate 0 (_list_integers_to_vertices self) ∅.

(** The variables above [.5], in increasing order. *)
Definition chosen (n : nat) (s : solution) : list nat :=
  filter (λ i, gt_half (get_variable_value s i) = true) (seq 0 n).

(** The set read from a solution. *)
Definition rounding (n : nat) (s : solution) : bitset_t :=
  read_solution n s (bitset_init n).

(** Each of the first [n] variables is 0 or 1. *)
Definition binary (n : nat) (s : solution) : Prop :=
  ∀ i, i < n → (get_variable_value s i == 0 ∨ get_variable_value s i == 1)%Q.

(** A constraint built from a set [C] asks for a vertex outside [C]. *)
Definition escapes (n : nat) (x C : bitset_t) : Prop :=
  ∃ i, i < n ∧ bitset_in x i = true ∧ bitset_in C i = false.

(** The same, as a test. *)
Definition escapesb (n : nat) (x C : bitset_t) : bool :=
  existsb (λ i, bitset_in x i && negb (bitset_in C i)) (seq 0 n).

(** The assignments that meet the program and are not inside [cur]: each
    turn of the loop rules one more out. *)
Definition open_assignments (n : nat) (p : GenericBackend) (cur : bitset_t) : list bitset_t :=
  filter (λ x, feasible p x = true ∧ escapesb n x cur = true) (assignments n).

(** Every term of every constraint is on a variable of the program. *)
Definition terms_below (n : nat) (p : GenericBackend) : Prop :=
  ∀ c t, c ∈ constraints p → t ∈ c.1.1 → t.1 < n.

(** A set is closed under betweenness for the distances of [G] when, with
    two distinct vertices, it contains every vertex [k] with
    [d(i,k) + d(k,j) = d(i,j)]: the convex sets of the docstring. *)
Definition geodesically_closed G (X : bitset_t) : Prop :=
  ∀ i j k, i < order G → j < order G → k < order G → i ≠ j →
    bitset_in X i = true → bitset_in X j = true →
    (distance G i k + distance G k j = distance G i j)%Z →
    bitset_in X k = true.

(** The distance matrix of [G] is symmetric. *)
Definition symmetric_distances G : Prop :=
  ∀ a b, a < order G → b < order G → distance G a b = distance G b a.

(** On a program that asks for a minimum, the objective of the solution
    left is at most the number of variables set in any 0/1 assignment
    that meets the program. *)
Definition optimal_backend (solve : solver) : Prop :=
  ∀ p s x, is_maximization p = false → solve p = Some s →
    length x = ncols p → feasible p x = true →
    (get_objective_value s <= inject_Z (Z.of_nat (bitset_len x)))%Q.

(** A backend that answers as [base] on a program of at most [j]
    constraints and whose [solve()] raises on any larger one.  The loop
    of [hull_number] adds one constraint before every call of [solve()],
    to a program that starts with one: with this backend the first [j - 1]
    calls are answered and the [j]-th raises. *)
Definition failing_after (j : nat) (base : solver) : solver :=
  λ p, if length (constraints p) <=? j then base p else None.

End Notions.

(** ** Bitsets: basic facts *)

Section BitsetFacts.

Implicit Types a b c : bitset_t.

Lemma bitset_in_nil k : bitset_in [] k = false.
Proof. by destruct k. Qed.

Lemma bitset_in_cons_0 x a : bitset_in (x :: a) 0 = x.
Proof. done. Qed.

Lemma bitset_in_cons_S x a k : bitset_in (x :: a) (S k) = bitset_in a k.
Proof. done. Qed.

Lemma bitset_in_lt a k : bitset_in a k = true → k < length a.
Proof.
  unfold bitset_in. destruct (a !! k) eqn:E; [|done].
  intros _. by eapply lookup_lt_Some.
Qed.

Lemma length_union a b : length (bitset_union a b) = length a.
Proof.
  revert b. induction a as [|x a IH]; intros [|y b]; simpl; auto.
Qed.

Lemma bitset_in_union a b k :
  bitset_in (bitset_union a b) k
  = bitset_in a k || (bool_decide (k < length a) && bitset_in b k).
Proof.
  revert b k. induction a as [|x a IH]; intros b k.
  - simpl. by rewrite bitset_in_nil.
  - destruct b as [|y b].
    + simpl. rewrite (bitset_in_nil k), andb_false_r, orb_false_r. done.
    + destruct k as [|k]; simpl.
      * rewrite !bitset_in_cons_0. done.
      * rewrite !bitset_in_cons_S, IH.
        do 2 f_equal. apply bool_decide_ext. lia.
Qed.

Lemma union_superset a b : subset a (bitset_union a b).
Proof. intros k Hk. rewrite bitset_in_union, Hk. done. Qed.

Lemma length_add a i : length (bitset_add a i) = length a.
Proof. apply length_insert. Qed.

Lemma bitset_in_add a i k :
  bitset_in (bitset_add a i) k
  = bool_decide (k = i ∧ i < length a) || bitset_in a k.
Proof.
  unfold bitset_in, bitset_add.
  destruct (decide (k = i)) as [->|Hne].
  - destruct (decide (i < length a)) as [Hlt|Hge].
    + rewrite list_lookup_insert_eq by done.
      rewrite bool_decide_eq_true_2 by done. done.
    + rewrite list_insert_ge by lia.
      rewrite bool_decide_eq_false_2 by (intros []; done || lia). done.
  - rewrite list_lookup_insert_ne by done.
    rewrite bool_decide_eq_false_2 by (intros []; done || lia). done.
Qed.

Lemma add_superset a i : subset a (bitset_add a i).
Proof. intros k Hk. rewrite bitset_in_add, Hk. apply orb_true_r. Qed.

Lemma length_init n : length (bitset_init n) = n.
Proof. apply length_replicate. Qed.

Lemma bitset_in_init n k : bitset_in (bitset_init n) k = false.
Proof.
  unfold bitset_in, bitset_init.
  destruct (decide (k < n)).
  - by rewrite lookup_replicate_2.
  - by rewrite (proj1 (lookup_replicate_None _ _ _)) by lia.
Qed.

Lemma length_set_first_n a n : length (bitset_set_first_n a n) = length a.
Proof. unfold bitset_set_first_n. by rewrite length_map, length_seq. Qed.

Lemma bitset_in_set_first_n a n k :
  bitset_in (bitset_set_first_n a n) k = bool_decide (k < n ∧ k < length a).
Proof.
  unfold bitset_in, bitset_set_first_n.
  rewrite list_lookup_fmap.
  destruct (decide (k < length a)) as [Hlt|Hge].
  - rewrite lookup_seq_lt by done. simpl.
    apply bool_decide_ext. lia.
  - rewrite lookup_seq_ge by lia. simpl.
    rewrite bool_decide_eq_false_2 by lia. done.
Qed.

Lemma set_first_0 n : bitset_set_first_n (bitset_init n) 0 = bitset_init n.
Proof.
  apply list_eq. intros k.
  unfold bitset_set_first_n, bitset_init.
  rewrite list_lookup_fmap, length_replicate.
  destruct (decide (k < n)).
  - rewrite lookup_seq_lt, lookup_replicate_2 by done. done.
  - rewrite lookup_seq_ge, (proj1 (lookup_replicate_None _ _ _)) by lia. done.
Qed.

Lemma bitset_in_full n k : bitset_in (full n) k = bool_decide (k < n).
Proof.
  unfold bitset_in, full.
  destruct (decide (k < n)).
  - rewrite lookup_replicate_2, bool_decide_eq_true_2 by done. done.
  - rewrite (proj1 (lookup_replicate_None _ _ _)), bool_decide_eq_false_2 by lia. done.
Qed.

Lemma subset_refl a : subset a a.
Proof. by intros k. Qed.

Lemma subset_trans a b c : subset a b → subset b c → subset a c.
Proof. intros Hab Hbc k Hk. auto. Qed.

Lemma subset_cons x y a b :
  subset (x :: a) (y :: b) ↔ (x = true → y = true) ∧ subset a b.
Proof.
  split.
  - intros Hs. split.
    + apply (Hs 0).
    + intros k. apply (Hs (S k)).
  - intros [Hxy Hab] [|k]; [apply Hxy | apply Hab].
Qed.

Lemma bitset_len_le_length a : bitset_len a ≤ length a.
Proof. induction a as [|[] a IH]; simpl; lia. Qed.

Lemma bitset_len_mono a b :
  length a = length b → subset a b → bitset_len a ≤ bitset_len b.
Proof.
  revert b. induction a as [|x a IH]; intros [|y b] Hlen Hs; simpl in *; try lia.
  apply subset_cons in Hs as [Hxy Hs].
  specialize (IH b ltac:(lia) Hs).
  destruct x, y; try lia; by specialize (Hxy eq_refl).
Qed.

(** A superset of the same cardinality and capacity is the same set. *)
Lemma subset_len_eq a b :
  length a = length b → subset a b → bitset_len a = bitset_len b → a = b.
Proof.
  revert b. induction a as [|x a IH]; intros [|y b] Hlen Hs Hc; simpl in *; try lia.
  - done.
  - apply subset_cons in Hs as [Hxy Hs].
    pose proof (bitset_len_mono a b ltac:(lia) Hs).
    destruct x, y; try (by specialize (Hxy eq_refl)); try lia;
      f_equal; apply IH; lia || done.
Qed.

Lemma bitset_len_0 a : bitset_len a = 0 ↔ ∀ k, bitset_in a k = false.
Proof.
  induction a as [|x a IH]; simpl.
  - split; [intros _ k; apply bitset_in_nil | done].
  - split.
    + intros Hl. destruct x; [lia|].
      intros [|k]; [done|]. apply IH. lia.
    + intros Hk. pose proof (Hk 0) as H0. simpl in H0.
      rewrite bitset_in_cons_0 in H0. subst x.
      apply IH. intros k. apply (Hk (S k)).
Qed.

Lemma bitset_len_init n : bitset_len (bitset_init n) = 0.
Proof. apply bitset_len_0, bitset_in_init. Qed.

Lemma bitset_len_full n : bitset_len (full n) = n.
Proof. induction n as [|n IH]; simpl; [done|]. unfold full in IH. lia. Qed.

(** A bitset with every bit set is the whole vertex set. *)
Lemma len_full_eq a : bitset_len a = length a → a = full (length a).
Proof.
  induction a as [|x a IH]; simpl; [done|].
  pose proof (bitset_len_le_length a).
  destruct x; intros Hl; [|lia].
  unfold full. simpl. f_equal. apply IH. lia.
Qed.

End BitsetFacts.

(** ** The order of the rows *)

Section PairOrder.

Lemma length_row_pairs n i : length (row_pairs n i) = n - (i + 1).
Proof. unfold row_pairs. by rewrite length_map, length_seq. Qed.

Lemma row_pairs_lookup n i m ij :
  row_pairs n i !! m = Some ij ↔ ij = (i, i + 1 + m) ∧ i + 1 + m < n.
Proof.
  unfold row_pairs. rewrite list_lookup_fmap.
  destruct (decide (m < n - (i + 1))) as [Hlt|Hge].
  - rewrite lookup_seq_lt by done. simpl. split.
    + intros [= <-]. split; [done | lia].
    + intros [-> _]. done.
  - rewrite lookup_seq_ge by lia. simpl. split; [done | lia].
Qed.

(** Where a pair sits in a run of consecutive rows. *)
Lemma rows_lookup n a len m i j :
  flat_map (row_pairs n) (seq a len) !! m = Some (i, j)
  ↔ a ≤ i < a + len ∧ i < j < n
    ∧ m = sum_list_with (λ i', n - (i' + 1)) (seq a (i - a)) + (j - (i + 1)).
Proof.
  revert a m. induction len as [|len IH]; intros a m.
  - simpl. split; [done | lia].
  - simpl. rewrite lookup_app, length_row_pairs.
    destruct (row_pairs n a !! m) as [ij|] eqn:E.
    + apply row_pairs_lookup in E as [-> Hlt]. split.
      * intros [= <- <-]. replace (a - a) with 0 by lia. simpl.
        repeat split; lia.
      * intros ([Hai Hia] & [Hij Hjn] & Hm).
        destruct (decide (i = a)) as [->|Hne].
        -- replace (a - a) with 0 in Hm by lia. simpl in Hm.
           do 2 f_equal. lia.
        -- exfalso. replace (i - a) with (S (i - S a)) in Hm by lia.
           simpl in Hm. lia.
    + assert (n - (a + 1) ≤ m) as Hge.
      { destruct (decide (m < n - (a + 1))) as [Hlt|]; [|lia].
        assert (row_pairs n a !! m = Some (a, a + 1 + m)) as E'.
        { apply row_pairs_lookup. split; [done | lia]. }
        congruence. }
      rewrite IH. split.
      * intros ([Hai Hia] & [Hij Hjn] & Hm).
        replace (i - a) with (S (i - S a)) by lia. simpl.
        repeat split; lia.
      * intros ([Hai Hia] & [Hij Hjn] & Hm).
        destruct (decide (i = a)) as [->|Hne].
        -- exfalso. replace (a - a) with 0 in Hm by lia. simpl in Hm. lia.
        -- replace (i - a) with (S (i - S a)) in Hm by lia. simpl in Hm.
           repeat split; lia.
Qed.

(** The pair [(i, j)] is the row of rank [pair_index n i j], and every
    row is the row of one pair. *)
Lemma pairs_lookup n m i j :
  pairs n !! m = Some (i, j) ↔ i < j < n ∧ m = pair_index n i j.
Proof.
  unfold pairs, pair_index, row_start. rewrite rows_lookup.
  replace (i - 0) with i by lia. split.
  - intros (_ & Hij & Hm). done.
  - intros (Hij & Hm). repeat split; lia.
Qed.

Lemma foldl_flat_map {A B C} (f : A → B → A) (g : C → list B) (a : A) (l : list C) :
  foldl f a (flat_map g l) = foldl (λ a x, foldl f a (g x)) a l.
Proof.
  revert a. induction l as [|x l IH]; intros a; simpl; [done|].
  by rewrite foldl_app, IH.
Qed.

Lemma foldl_ext_in {A B} (f g : A → B → A) (a : A) (l : list B) :
  (∀ a x, x ∈ l → f a x = g a x) → foldl f a l = foldl g a l.
Proof.
  revert a. induction l as [|x l IH]; intros a Hfg; simpl; [done|].
  rewrite Hfg by left. apply IH. intros a' y Hy. apply Hfg. by right.
Qed.

(** The last row of the walk is empty: [range(n)] and [range(n - 1)]
    visit the same pairs. *)
Lemma pairs_short n : pairs n = flat_map (row_pairs n) (seq 0 (n - 1)).
Proof.
  unfold pairs. destruct n as [|n]; [done|].
  replace (S n - 1) with n by lia.
  rewrite seq_S, flat_map_app. simpl.
  unfold row_pairs at 2. replace (S n - (n + 1)) with 0 by lia.
  simpl. by rewrite app_nil_r.
Qed.

Lemma length_pairs n : length (pairs n) = n * (n - 1) / 2.
Proof.
  unfold pairs.
  assert (∀ len, 2 * length (flat_map (row_pairs n) (seq (n - len) len))
                 = len * (len - 1) ∨ n < len) as Hgen.
  { induction len as [|len IH]; [by left|].
    destruct (decide (n < S len)) as [|Hle]; [by right|]. left.
    destruct IH as [IH|]; [|lia].
    simpl. rewrite length_app, length_row_pairs.
    replace (S (n - S len)) with (n - len) by lia. nia. }
  destruct (Hgen n) as [Hn|]; [|lia].
  replace (n - n) with 0 in Hn by lia.
  rewrite <- Hn, Nat.mul_comm. by rewrite Nat.div_mul.
Qed.

End PairOrder.

(** ** One pass of the closure loop *)

Section PassFacts.

Context {V : Type} `{Countable V}.
Implicit Types (self : ConvexityProperties V) (st : scan) (rows : list bitset_t).

Lemma scan_pair_p rows st ij : sc_p (scan_pair rows st ij) = sc_p st + 1.
Proof. unfold scan_pair. by destruct (_ && _). Qed.

Lemma scan_pair_length rows st ij :
  length (sc_hull (scan_pair rows st ij)) = length (sc_hull st).
Proof.
  unfold scan_pair. destruct (_ && _); simpl; [apply length_union | done].
Qed.

Lemma scan_pair_superset rows st ij :
  subset (sc_hull st) (sc_hull (scan_pair rows st ij)).
Proof.
  unfold scan_pair. destruct (_ && _); simpl;
    [apply union_superset | apply subset_refl].
Qed.

Lemma scan_pairs_p rows st ps :
  sc_p (foldl (scan_pair rows) st ps) = sc_p st + length ps.
Proof.
  revert st. induction ps as [|ij ps IH]; intros st; simpl; [lia|].
  rewrite IH, scan_pair_p. lia.
Qed.

Lemma scan_pairs_length rows st ps :
  length (sc_hull (foldl (scan_pair rows) st ps)) = length (sc_hull st).
Proof.
  revert st. induction ps as [|ij ps IH]; intros st; simpl; [done|].
  by rewrite IH, scan_pair_length.
Qed.

Lemma scan_pairs_superset rows st ps :
  subset (sc_hull st) (sc_hull (foldl (scan_pair rows) st ps)).
Proof.
  revert st. induction ps as [|ij ps IH]; intros st; simpl;
    [apply subset_refl|].
  eapply subset_trans; [apply scan_pair_superset | apply IH].
Qed.

(** A row whose first vertex is outside the set is skipped as a whole. *)
Lemma scan_row_skip rows st i js :
  bitset_in (sc_hull st) i = false →
  foldl (scan_pair rows) st (map (pair i) js)
  = Scan (sc_hull st) (sc_p st + length js) (sc_reads st).
Proof.
  revert st. induction js as [|j js IH]; intros st Hi; simpl.
  - destruct st; simpl. f_equal. lia.
  - unfold scan_pair at 2. simpl. rewrite Hi. simpl.
    rewrite IH by done. simpl. f_equal. lia.
Qed.

(** A row whose first vertex is inside: [i] is not tested again. *)
Lemma scan_row_in rows st i js :
  bitset_in (sc_hull st) i = true →
  foldl (scan_j rows) st js = foldl (scan_pair rows) st (map (pair i) js).
Proof.
  revert st. induction js as [|j js IH]; intros st Hi; simpl; [done|].
  assert (scan_j rows st j = scan_pair rows st (i, j)) as ->.
  { unfold scan_j, scan_pair. simpl. rewrite Hi. simpl.
    by destruct (bitset_in (sc_hull st) j). }
  apply IH. by apply scan_pair_superset.
Qed.

Lemma scan_i_pairs n rows st i :
  scan_i n rows st i = foldl (scan_pair rows) st (row_pairs n i).
Proof.
  unfold scan_i, row_pairs.
  destruct (bitset_in (sc_hull st) i) eqn:Hi; simpl.
  - by apply scan_row_in.
  - rewrite scan_row_skip, length_seq by done. f_equal. lia.
Qed.

(** The pass, pair by pair. *)
Lemma one_pass_pairs self hull :
  one_pass self hull
  = foldl (scan_pair (_cache_hull_pairs self)) (Scan hull 0 []) (pairs (_n self)).
Proof.
  unfold one_pass. rewrite pairs_short, foldl_flat_map.
  apply foldl_ext_in. intros st i _. apply scan_i_pairs.
Qed.

Lemma pass_length self hull : length (pass self hull) = length hull.
Proof. unfold pass. by rewrite one_pass_pairs, scan_pairs_length. Qed.

Lemma pass_superset self hull : subset hull (pass self hull).
Proof.
  unfold pass. rewrite one_pass_pairs.
  apply (scan_pairs_superset _ (Scan hull 0 [])).
Qed.

Lemma pass_len_le self hull : bitset_len hull ≤ bitset_len (pass self hull).
Proof.
  apply bitset_len_mono; [by rewrite pass_length | apply pass_superset].
Qed.

(** A pass that does not change the cardinality does not change the set. *)
Lemma pass_len_eq self hull :
  bitset_len (pass self hull) = bitset_len hull → pass self hull = hull.
Proof.
  intros Hl. symmetry. apply subset_len_eq;
    [by rewrite pass_length | apply pass_superset | done].
Qed.

(** A pass keeps the set inside every convex set that contains it. *)
Lemma scan_pairs_inside self T ps1 ps2 st :
  convex self T →
  pairs (_n self) = ps1 ++ ps2 →
  sc_p st = length ps1 →
  length (sc_hull st) = _n self →
  subset (sc_hull st) T →
  subset (sc_hull (foldl (scan_pair (_cache_hull_pairs self)) st ps2)) T.
Proof.
  intros HT. revert ps1 st.
  induction ps2 as [|[i j] ps2 IH]; intros ps1 st Hps Hp Hlen Hs; simpl; [done|].
  apply (IH (ps1 ++ [(i, j)])).
  - by rewrite <- app_assoc.
  - rewrite scan_pair_p, length_app, Hp. simpl. lia.
  - by rewrite scan_pair_length.
  - assert (pairs (_n self) !! sc_p st = Some (i, j)) as Hl.
    { rewrite Hps, Hp. by rewrite list_lookup_middle. }
    apply pairs_lookup in Hl as [[Hij Hjn] Hidx].
    unfold scan_pair. simpl.
    destruct (bitset_in (sc_hull st) i) eqn:Hi; simpl; [|done].
    destruct (bitset_in (sc_hull st) j) eqn:Hj; simpl; [|done].
    intros k. rewrite bitset_in_union.
    intros [Hk|[Hk Hrow]%andb_true_iff]%orb_true_iff; [by apply Hs|].
    apply bool_decide_eq_true in Hk.
    apply (HT i j k); auto; [lia|]. unfold cached_row. by rewrite <- Hidx.
Qed.

Lemma pass_inside self hull T :
  convex self T → length hull = _n self → subset hull T →
  subset (pass self hull) T.
Proof.
  intros HT Hlen Hs. unfold pass. rewrite one_pass_pairs.
  by apply (scan_pairs_inside self T [] (pairs (_n self)) (Scan hull 0 [])).
Qed.

(** A set that a pass leaves unchanged is convex. *)
Lemma pass_fixed_convex self hull :
  length hull = _n self → pass self hull = hull → convex self hull.
Proof.
  intros Hlen Hfix i j k Hij Hjn Hkn Hi Hj Hrow.
  assert (pairs (_n self) !! pair_index (_n self) i j = Some (i, j)) as Hl.
  { by apply pairs_lookup. }
  pose proof (take_drop_middle _ _ _ Hl) as Hsplit.
  set (ps1 := take (pair_index (_n self) i j) (pairs (_n self))) in *.
  set (ps2 := drop (S (pair_index (_n self) i j)) (pairs (_n self))) in *.
  assert (length ps1 = pair_index (_n self) i j) as Hl1.
  { unfold ps1. rewrite length_take. apply lookup_lt_Some in Hl. lia. }
  unfold pass in Hfix. rewrite one_pass_pairs, <- Hsplit, foldl_app in Hfix.
  simpl in Hfix.
  set (rows := _cache_hull_pairs self) in *.
  set (st1 := foldl (scan_pair rows) (Scan hull 0 []) ps1) in *.
  assert (subset hull (sc_hull st1)) as Hs1
    by apply (scan_pairs_superset rows (Scan hull 0 [])).
  assert (sc_p st1 = pair_index (_n self) i j) as Hp1.
  { unfold st1. rewrite scan_pairs_p. simpl. lia. }
  assert (length (sc_hull st1) = _n self) as Hlen1.
  { unfold st1. by rewrite scan_pairs_length. }
  rewrite <- Hfix. apply scan_pairs_superset.
  unfold scan_pair. simpl. rewrite (Hs1 i Hi), (Hs1 j Hj). simpl.
  rewrite bitset_in_union. apply orb_true_iff. right.
  apply andb_true_iff. split.
  - apply bool_decide_eq_true. lia.
  - rewrite Hp1. done.
Qed.

(** With no vertex in the set, a pass reads no row and adds nothing. *)
Lemma one_pass_empty self hull :
  bitset_len hull = 0 →
  sc_hull (one_pass self hull) = hull ∧ sc_reads (one_pass self hull) = [].
Proof.
  intros H0. rewrite bitset_len_0 in H0. unfold one_pass.
  assert (∀ l st, sc_hull st = hull → sc_reads st = [] →
            sc_hull (foldl (scan_i (_n self) (_cache_hull_pairs self)) st l) = hull
            ∧ sc_reads (foldl (scan_i (_n self) (_cache_hull_pairs self)) st l) = [])
    as Hgen.
  { induction l as [|i l IH]; intros st Hh Hr; simpl; [done|].
    apply IH; unfold scan_i; rewrite Hh, H0; done. }
  by apply Hgen.
Qed.

End PassFacts.

(** ** The closure loop *)

Section ClosureFacts.

Context {V : Type} `{Countable V}.
Implicit Types (self : ConvexityProperties V).

Lemma iter_pass_length self k hull :
  length (Nat.iter k (pass self) hull) = length hull.
Proof. induction k as [|k IH]; simpl; [done|]. by rewrite pass_length. Qed.

Lemma iter_pass_superset self k hull :
  subset hull (Nat.iter k (pass self) hull).
Proof.
  induction k as [|k IH]; simpl; [apply subset_refl|].
  eapply subset_trans; [apply IH | apply pass_superset].
Qed.

Lemma iter_pass_inside self k hull T :
  convex self T → length hull = _n self → subset hull T →
  subset (Nat.iter k (pass self) hull) T.
Proof.
  intros HT Hlen Hs. induction k as [|k IH]; simpl; [done|].
  apply pass_inside; [done | by rewrite iter_pass_length | done].
Qed.

Lemma stops_at_shift self hull k :
  bitset_len (pass self hull) ≠ bitset_len hull →
  stops_at self (pass self hull) k → stops_at self hull (S k).
Proof.
  intros Hne [Heq Hlt]. split.
  - rewrite (Nat.iter_succ_r k), (Nat.iter_succ_r (S k)). done.
  - intros [|m] Hm; [done|].
    rewrite (Nat.iter_succ_r m), (Nat.iter_succ_r (S m)). apply Hlt. lia.
Qed.

Lemma closure_loop_ok self fuel hull passes reads :
  length hull = _n self →
  _n self - bitset_len hull < fuel →
  ∃ r k, closure_loop fuel self hull (bitset_len hull) passes reads = Ok r
       ∧ cr_passes r = passes + S k
       ∧ k ≤ _n self - bitset_len hull
       ∧ cr_hull r = Nat.iter (S k) (pass self) hull
       ∧ stops_at self hull k.
Proof.
  revert hull passes reads.
  induction fuel as [|fuel IH]; intros hull passes reads Hlen Hfuel; [lia|].
  simpl. fold (pass self hull).
  destruct (bitset_len (pass self hull) =? bitset_len hull) eqn:E.
  - apply Nat.eqb_eq in E.
    eexists _, 0. repeat split; simpl; try done; lia.
  - apply Nat.eqb_neq in E.
    pose proof (pass_len_le self hull) as Hle.
    pose proof (bitset_len_le_length (pass self hull)) as Hcap.
    rewrite pass_length, Hlen in Hcap.
    destruct (IH (pass self hull) (S passes) (reads ++ [sc_reads (one_pass self hull)]))
      as (r & k & Hr & Hp & Hk & Hh & Hstop).
    { by rewrite pass_length. }
    { lia. }
    exists r, (S k). repeat split.
    + done.
    + lia.
    + lia.
    + by rewrite Nat.iter_succ_r.
    + by apply stops_at_shift.
    + by apply stops_at_shift.
Qed.

(** On the empty set the loop makes one pass, reads no row and returns
    the empty set. *)
Lemma closure_loop_empty self fuel hull passes reads :
  bitset_len hull = 0 →
  closure_loop (S fuel) self hull (bitset_len hull) passes reads
  = Ok (ClosureRun hull (S passes) (reads ++ [[]])).
Proof.
  intros H0. simpl.
  destruct (one_pass_empty self hull H0) as [-> ->].
  by rewrite Nat.eqb_refl.
Qed.

(** The loop returns, within [max 1 n] passes. *)
Lemma bitset_convex_hull_run_ok self fuel hull :
  length hull = _n self →
  Nat.max 1 (_n self) ≤ fuel →
  ∃ r k, _bitset_convex_hull_run fuel self hull = Ok r
       ∧ cr_passes r = S k
       ∧ S k ≤ Nat.max 1 (_n self)
       ∧ cr_hull r = Nat.iter (S k) (pass self) hull
       ∧ stops_at self hull k.
Proof.
  intros Hlen Hfuel. unfold _bitset_convex_hull_run.
  destruct (decide (bitset_len hull = 0)) as [H0|Hpos].
  - destruct fuel as [|fuel]; [lia|].
    rewrite closure_loop_empty by done.
    destruct (one_pass_empty self hull H0) as [Hh _]. fold (pass self hull) in Hh.
    eexists _, 0. repeat split; simpl; try lia.
    + by rewrite Hh.
    + by rewrite Hh.
  - pose proof (bitset_len_le_length hull) as Hcap.
    destruct (closure_loop_ok self fuel hull 0 [] Hlen)
      as (r & k & Hr & Hp & Hk & Hh & Hstop); [lia|].
    exists r, k. repeat split; try done; try lia; apply Hstop.
Qed.

(** The set a stopped run returns is left unchanged by a pass. *)
Lemma stops_at_fixed self hull k :
  stops_at self hull k →
  pass self (Nat.iter (S k) (pass self) hull) = Nat.iter (S k) (pass self) hull.
Proof.
  intros [Heq _]. simpl in *. apply pass_len_eq in Heq. by rewrite !Heq.
Qed.

(** The facts the other methods need about a call of the closure. *)
Lemma bitset_convex_hull_ok self fuel hull :
  length hull = _n self →
  Nat.max 1 (_n self) ≤ fuel →
  ∃ C, _bitset_convex_hull fuel self hull = Ok C
     ∧ length C = _n self
     ∧ subset hull C
     ∧ pass self C = C
     ∧ ∀ T, convex self T → subset hull T → subset C T.
Proof.
  intros Hlen Hfuel.
  destruct (bitset_convex_hull_run_ok self fuel hull Hlen Hfuel)
    as (r & k & Hr & _ & _ & Hh & Hstop).
  exists (cr_hull r). unfold _bitset_convex_hull. rewrite Hr. simpl.
  rewrite Hh. repeat split.
  - by rewrite iter_pass_length.
  - apply (iter_pass_superset self (S k)).
  - by apply stops_at_fixed.
  - intros T HT Hs. by apply (iter_pass_inside self (S k)).
Qed.

(** A convex set of the right capacity is its own closure, in one pass. *)
Lemma convex_pass_fixed self C :
  length C = _n self → convex self C → pass self C = C.
Proof.
  intros Hlen HC. symmetry. apply subset_len_eq.
  - by rewrite pass_length.
  - apply pass_superset.
  - apply Nat.le_antisymm; [apply pass_len_le|].
    apply bitset_len_mono; [by rewrite pass_length|].
    apply pass_inside; [done | done | apply subset_refl].
Qed.

Lemma bitset_convex_hull_fixed self fuel C :
  0 < fuel → pass self C = C →
  _bitset_convex_hull_run fuel self C
  = Ok (ClosureRun C 1 [sc_reads (one_pass self C)]).
Proof.
  intros Hfuel Hfix. destruct fuel as [|fuel]; [lia|].
  unfold _bitset_convex_hull_run. simpl. fold (pass self C).
  by rewrite Hfix, Nat.eqb_refl.
Qed.

End ClosureFacts.

(** ** More on bitsets: extensionality, lists of elements *)

Section BitsetLists.

Implicit Types a b : bitset_t.

Lemma bitset_ext a b :
  length a = length b → (∀ k, bitset_in a k = bitset_in b k) → a = b.
Proof.
  intros Hlen Hk. apply list_eq. intros k.
  specialize (Hk k). unfold bitset_in in Hk.
  destruct (a !! k) as [x|] eqn:Ea, (b !! k) as [y|] eqn:Eb; simpl in Hk.
  - by subst.
  - apply lookup_lt_Some in Ea. apply lookup_ge_None in Eb. lia.
  - apply lookup_lt_Some in Eb. apply lookup_ge_None in Ea. lia.
  - done.
Qed.

Lemma filter_ext_in {A} (P Q : A → Prop)
    `{!∀ x, Decision (P x)} `{!∀ x, Decision (Q x)} (l : list A) :
  (∀ x, x ∈ l → P x ↔ Q x) → filter P l = filter Q l.
Proof.
  induction l as [|x l IH]; intros HPQ; [done|].
  rewrite !filter_cons.
  rewrite IH by (intros y Hy; apply HPQ; by right).
  pose proof (HPQ x ltac:(left)) as Hx.
  destruct (decide (P x)) as [p|np], (decide (Q x)) as [q|nq];
    [done | exfalso; apply nq, Hx, p | exfalso; apply np, Hx, q | done].
Qed.

Lemma filter_all {A} (P : A → Prop) `{!∀ x, Decision (P x)} (l : list A) :
  (∀ x, x ∈ l → P x) → filter P l = l.
Proof.
  induction l as [|x l IH]; intros HP; [done|].
  rewrite filter_cons_True by (apply HP; left).
  f_equal. apply IH. intros y Hy. apply HP. by right.
Qed.

Lemma elem_of_bitset_list a k : k ∈ bitset_list a ↔ bitset_in a k = true.
Proof.
  unfold bitset_list. rewrite list_elem_of_filter, elem_of_seq. split.
  - by intros [? _].
  - intros Hk. split; [done|]. apply bitset_in_lt in Hk. lia.
Qed.

Lemma bitset_list_init n : bitset_list (bitset_init n) = [].
Proof.
  apply elem_of_nil_inv. intros k.
  rewrite elem_of_bitset_list, bitset_in_init. done.
Qed.

Lemma bitset_list_full n : bitset_list (full n) = seq 0 n.
Proof.
  unfold bitset_list, full. rewrite length_replicate.
  apply filter_all. intros k Hk%elem_of_seq.
  fold (full n). rewrite bitset_in_full. apply bool_decide_eq_true. lia.
Qed.

Lemma bitset_list_lt a k : k ∈ bitset_list a → k < length a.
Proof. rewrite elem_of_bitset_list. apply bitset_in_lt. Qed.

Lemma foldl_add_length a l : length (foldl bitset_add a l) = length a.
Proof.
  revert a. induction l as [|i l IH]; intros a; simpl; [done|].
  by rewrite IH, length_add.
Qed.

Lemma bitset_in_foldl_add a l k :
  bitset_in (foldl bitset_add a l) k
  = bitset_in a k || bool_decide (k ∈ l ∧ k < length a).
Proof.
  revert a. induction l as [|i l IH]; intros a; cbn [foldl].
  - rewrite bool_decide_eq_false_2; [by rewrite orb_false_r|].
    intros [Hk _]. by apply not_elem_of_nil in Hk.
  - rewrite IH, bitset_in_add, length_add.
    destruct (bitset_in a k); cbn [orb]; [by rewrite orb_true_r|].
    rewrite orb_false_r, <- bool_decide_or. apply bool_decide_ext.
    rewrite elem_of_cons. split.
    + intros [[-> Hi]|[Hl Hk]]; (split; [by (left + right) | done]).
    + intros [[->|Hl] Hk]; [by left | by right].
Qed.

(** Adding the elements of a set to the empty set gives the set back. *)
Lemma foldl_add_bitset_list a :
  foldl bitset_add (bitset_init (length a)) (bitset_list a) = a.
Proof.
  apply bitset_ext.
  - by rewrite foldl_add_length, length_init.
  - intros k. rewrite bitset_in_foldl_add, bitset_in_init, length_init. simpl.
    destruct (bitset_in a k) eqn:Hk.
    + apply bool_decide_eq_true. split.
      * by apply elem_of_bitset_list.
      * by apply bitset_in_lt.
    + apply bool_decide_eq_false. intros [Hin _].
      apply elem_of_bitset_list in Hin. congruence.
Qed.

Lemma length_bitset_list a : length (bitset_list a) = bitset_len a.
Proof.
  unfold bitset_list.
  assert (∀ s, length (filter (λ k, bitset_in a (k - s) = true ∧ s ≤ k)
                              (seq s (length a))) = bitset_len a) as Hgen.
  { induction a as [|x a IH]; intros s; [done|].
    cbn [length seq bitset_len].
    assert (length (filter (λ k, bitset_in (x :: a) (k - s) = true ∧ s ≤ k)
                           (seq (S s) (length a))) = bitset_len a) as Hrest.
    { rewrite <- (IH (S s)). f_equal. apply filter_ext_in.
      intros k Hk%elem_of_seq.
      replace (k - s) with (S (k - S s)) by lia.
      rewrite bitset_in_cons_S. split; (intros [? ?]; split; [done | lia]). }
    destruct x.
    - rewrite filter_cons_True.
      + cbn [length]. by rewrite Hrest.
      + replace (s - s) with 0 by lia. split; [done | lia].
    - rewrite filter_cons_False.
      + by rewrite Hrest.
      + replace (s - s) with 0 by lia. intros []. done. }
  rewrite <- (Hgen 0). f_equal. apply list_filter_iff.
  intros k. replace (k - 0) with k by lia. split; [|by intros []].
  intros Hk. split; [done | lia].
Qed.

End BitsetLists.

(** ** The tables between vertices and integers *)

Section Tables.

Context {V : Type} `{Countable V}.
Implicit Types (self : ConvexityProperties V) (G : Graph V).

Lemma dict_enumerate_notin (l : list V) i d v :
  v ∉ l → dict_enumerate i l d !! v = d !! v.
Proof.
  revert i d. induction l as [|x l IH]; intros i d Hv; simpl; [done|].
  apply not_elem_of_cons in Hv as [Hne Hv].
  rewrite IH by done. by rewrite lookup_insert_ne.
Qed.

Lemma dict_enumerate_lookup (l : list V) i d k v :
  NoDup l → l !! k = Some v → dict_enumerate i l d !! v = Some (i + k).
Proof.
  revert i d k. induction l as [|x l IH]; intros i d k Hnd Hk; [done|].
  apply NoDup_cons in Hnd as [Hx Hnd].
  destruct k as [|k]; simpl in *.
  - injection Hk as ->. rewrite dict_enumerate_notin by done.
    rewrite lookup_insert_eq. f_equal. lia.
  - rewrite (IH _ _ k) by done. f_equal. lia.
Qed.

Lemma init_well_formed G self :
  __init__ G = Ok self → NoDup (list_G G) →
  well_formed self ∧ _list_integers_to_vertices self = list_G G
  ∧ _n self = order G.
Proof.
  unfold __init__. destruct (isinstance_DiGraph G); [done|].
  intros [= <-] Hnd. simpl. by repeat split.
Qed.

Lemma dict_of_index self k v :
  well_formed self →
  _list_integers_to_vertices self !! k = Some v →
  _dict_vertices_to_integers self !! v = Some k.
Proof.
  intros (_ & Hnd & ->) Hk.
  by rewrite (dict_enumerate_lookup _ 0 ∅ k v Hnd Hk).
Qed.

(** [_integers_to_vertices] on indices below [n]. *)
Lemma integers_to_vertices_ok self (l : list nat) :
  _n self = length (_list_integers_to_vertices self) →
  (∀ k, k ∈ l → k < _n self) →
  ∃ vs, _integers_to_vertices self l = Ok vs
      ∧ Forall2 (λ k v, _list_integers_to_vertices self !! k = Some v) l vs.
Proof.
  intros Hn. induction l as [|k l IH]; intros Hl; simpl.
  - by exists [].
  - destruct (lookup_lt_is_Some_2 (_list_integers_to_vertices self) k) as [v Hv].
    { rewrite <- Hn. apply Hl. left. }
    destruct IH as (vs & -> & Hvs).
    { intros k' Hk'. apply Hl. by right. }
    rewrite Hv. simpl. exists (v :: vs). split; [done|]. by constructor.
Qed.

(** Adding the vertices of the indices [l] adds the indices [l]. *)
Lemma add_vertices_indices self (l : list nat) (vs : list V) bs :
  well_formed self →
  Forall2 (λ k v, _list_integers_to_vertices self !! k = Some v) l vs →
  add_vertices self bs vs = Ok (foldl bitset_add bs l).
Proof.
  intros Hwf Hlv. revert bs.
  induction Hlv as [|k v l vs Hkv Hlv IH]; intros bs; simpl; [done|].
  rewrite (dict_of_index self k v Hwf Hkv). apply IH.
Qed.

(** [add_vertices] succeeds on vertices of the graph. *)
Lemma add_vertices_ok self (vs : list V) bs :
  well_formed self →
  (∀ v, v ∈ vs → v ∈ _list_integers_to_vertices self) →
  ∃ bs', add_vertices self bs vs = Ok bs' ∧ length bs' = length bs.
Proof.
  intros Hwf. revert bs. induction vs as [|v vs IH]; intros bs Hvs; simpl.
  - by exists bs.
  - destruct (proj1 (list_elem_of_lookup _ v) (Hvs v ltac:(left))) as [k Hk].
    rewrite (dict_of_index self k v Hwf Hk).
    destruct (IH (bitset_add bs k)) as (bs' & -> & Hlen).
    { intros v' Hv'. apply Hvs. by right. }
    exists bs'. by rewrite Hlen, length_add.
Qed.

End Tables.

(** ** The closure: least convex superset, termination, idempotence *)

Section ClosureTheorems.

Context {V : Type} `{Countable V}.
Implicit Types (self : ConvexityProperties V) (G : Graph V).

(** One pass is monotone in the set it starts from. *)
Lemma scan_pairs_mono rows ps (st1 st2 : scan) :
  length (sc_hull st1) = length (sc_hull st2) →
  sc_p st1 = sc_p st2 →
  subset (sc_hull st1) (sc_hull st2) →
  subset (sc_hull (foldl (scan_pair rows) st1 ps))
         (sc_hull (foldl (scan_pair rows) st2 ps)).
Proof.
  revert st1 st2. induction ps as [|[i j] ps IH]; intros st1 st2 Hlen Hp Hs;
    simpl; [done|].
  apply IH.
  - by rewrite !scan_pair_length.
  - by rewrite !scan_pair_p, Hp.
  - unfold scan_pair. simpl.
    destruct (bitset_in (sc_hull st1) i) eqn:Hi1; simpl.
    + rewrite (Hs i Hi1). simpl.
      destruct (bitset_in (sc_hull st1) j) eqn:Hj1; simpl.
      * rewrite (Hs j Hj1). simpl. intros k.
        rewrite !bitset_in_union, Hlen, Hp.
        intros [Hk|Hk]%orb_true_iff; apply orb_true_iff; [left; by apply Hs | by right].
      * destruct (bitset_in (sc_hull st2) j); simpl; [|done].
        eapply subset_trans; [apply Hs | apply union_superset].
    + destruct (_ && _); simpl; [|done].
      eapply subset_trans; [apply Hs | apply union_superset].
Qed.

Lemma pass_mono self A B :
  length A = length B → subset A B → subset (pass self A) (pass self B).
Proof.
  intros Hlen Hs. unfold pass. rewrite !one_pass_pairs.
  by apply scan_pairs_mono.
Qed.

(** C3. For every vertex subset [X], given as a bitset of capacity [n],
    the closure computation returns a set [C] that is convex with respect
    to the cached rows, contains [X], and is contained in every convex set
    that contains [X].  [C] is the least fixed point above [X] of one pass
    over the cache, an operator that is extensive and monotone. *)
Theorem closure_is_least_convex_superset self fuel X :
  length X = _n self →
  Nat.max 1 (_n self) ≤ fuel →
  ∃ C, _bitset_convex_hull fuel self X = Ok C
     ∧ length C = _n self
     ∧ convex self C
     ∧ subset X C
     ∧ (∀ T, convex self T → subset X T → subset C T)
     ∧ pass self C = C
     ∧ (∀ T, length T = _n self → pass self T = T → subset X T → subset C T)
     ∧ (∀ A, subset A (pass self A))
     ∧ (∀ A B, length A = length B → subset A B →
               subset (pass self A) (pass self B)).
Proof.
  intros Hlen Hfuel.
  destruct (bitset_convex_hull_ok self fuel X Hlen Hfuel)
    as (C & HC & HlenC & Hsub & Hfix & Hleast).
  exists C. repeat split; try done.
  - by apply pass_fixed_convex.
  - intros T HlenT HfixT. apply Hleast. by apply pass_fixed_convex.
  - apply pass_superset.
  - apply pass_mono.
Qed.

(** C4. For every vertex subset [X] of a graph with [n] vertices, held in
    a bitset of [n] bits (a bitset has at least one bit), the closure loop
    terminates: it makes [k + 1] passes, where [k] is the first number of
    passes after which one more pass adds no vertex, so it stops as soon
    as a full pass leaves the cardinality as it is; the cardinality never
    decreases and never exceeds [n], and at most [n] passes are made. *)
Theorem closure_loop_terminates self fuel X :
  0 < _n self →
  length X = _n self →
  _n self ≤ fuel →
  ∃ r k, _bitset_convex_hull_run fuel self X = Ok r
       ∧ cr_passes r = S k
       ∧ cr_passes r ≤ _n self
       ∧ cr_hull r = Nat.iter (S k) (pass self) X
       ∧ bitset_len (Nat.iter (S k) (pass self) X)
         = bitset_len (Nat.iter k (pass self) X)
       ∧ (∀ m, m < k → bitset_len (Nat.iter (S m) (pass self) X)
                        ≠ bitset_len (Nat.iter m (pass self) X))
       ∧ (∀ m, bitset_len (Nat.iter m (pass self) X)
               ≤ bitset_len (Nat.iter (S m) (pass self) X)
               ∧ bitset_len (Nat.iter (S m) (pass self) X) ≤ _n self).
Proof.
  intros Hpos Hlen Hfuel.
  destruct (bitset_convex_hull_run_ok self fuel X Hlen ltac:(lia))
    as (r & k & Hr & Hp & Hk & Hh & Hstop & Hfirst).
  exists r, k. repeat split; try done.
  - lia.
  - apply pass_len_le.
  - rewrite <- Hlen, <- (iter_pass_length self (S m) X).
    apply bitset_len_le_length.
Qed.

(** C10. [hull([])] returns the empty list: the closure loop makes a
    single pass over the empty set, reads no row of the cache, and leaves
    the empty set, which one pass does not change. *)
Theorem hull_of_empty_list self fuel :
  0 < fuel →
  hull fuel self [] = Ok []
  ∧ hull_run fuel self []
    = Ok ([], ClosureRun (bitset_init (_n self)) 1 [[]])
  ∧ pass self (bitset_init (_n self)) = bitset_init (_n self).
Proof.
  intros Hfuel. destruct fuel as [|fuel]; [lia|].
  assert (hull_run (S fuel) self []
          = Ok ([], ClosureRun (bitset_init (_n self)) 1 [[]])) as Hrun.
  { unfold hull_run. cbn [add_vertices mbind result_bind].
    rewrite set_first_0. unfold _bitset_convex_hull_run.
    rewrite closure_loop_empty by apply bitset_len_init.
    cbn [mbind result_bind cr_hull]. by rewrite bitset_list_init. }
  repeat split.
  - unfold hull. by rewrite Hrun.
  - done.
  - apply one_pass_empty, bitset_len_init.
Qed.

(** C5. [hull] is idempotent: for every list [vertices] of vertices of the
    graph, [hull(vertices)] returns a list [H] and [hull(H)] returns [H]. *)
Theorem hull_idempotent G self fuel (vertices : list V) :
  __init__ G = Ok self →
  NoDup (list_G G) →
  Nat.max 1 (order G) ≤ fuel →
  (∀ v, v ∈ vertices → v ∈ list_G G) →
  ∃ H, hull fuel self vertices = Ok H ∧ hull fuel self H = Ok H.
Proof.
  intros Hinit Hnd Hfuel HS.
  destruct (init_well_formed G self Hinit Hnd) as (Hwf & Hlist & Hn).
  rewrite <- Hn in Hfuel. rewrite <- Hlist in HS.
  pose proof Hwf as (Hnlen & _ & _).
  unfold hull, hull_run. rewrite set_first_0.
  destruct (add_vertices_ok self vertices (bitset_init (_n self)) Hwf HS)
    as (bs & Hbs & Hlenbs).
  rewrite length_init in Hlenbs.
  destruct (bitset_convex_hull_run_ok self fuel bs Hlenbs Hfuel)
    as (r & k & Hr & _ & _ & Hh & Hstop).
  assert (pass self (cr_hull r) = cr_hull r) as Hfix.
  { rewrite Hh. by apply stops_at_fixed. }
  assert (length (cr_hull r) = _n self) as HlenC.
  { by rewrite Hh, iter_pass_length. }
  destruct (integers_to_vertices_ok self (bitset_list (cr_hull r)) Hnlen)
    as (vs & Hvs & Hrel).
  { intros i Hi%bitset_list_lt. lia. }
  exists vs. rewrite Hbs. cbn [mbind result_bind]. rewrite Hr.
  cbn [mbind result_bind]. rewrite Hvs. cbn [mbind result_bind fst].
  split; [done|].
  rewrite (add_vertices_indices self _ _ _ Hwf Hrel).
  cbn [mbind result_bind].
  rewrite <- HlenC at 1. rewrite foldl_add_bitset_list.
  rewrite (bitset_convex_hull_fixed self fuel (cr_hull r)) by (done || lia).
  cbn [mbind result_bind cr_hull]. rewrite Hvs. done.
Qed.

End ClosureTheorems.

(** ** The constructor on a [DiGraph], and the small graphs *)

Section EasyCases.

Context {V : Type} `{Countable V}.
Implicit Types (self : ConvexityProperties V) (G : Graph V).

(** C9. On a [DiGraph] the constructor raises [NotImplementedError], an
    error no other path of the class raises, and produces no instance. *)
Theorem init_rejects_digraph G :
  isinstance_DiGraph G = true →
  (∃ msg, __init__ G = Raise (NotImplementedError msg))
  ∧ (∀ self, __init__ G ≠ Ok self)
  ∧ (∀ msg, NotImplementedError msg ≠ KeyError
            ∧ NotImplementedError msg ≠ IndexError
            ∧ NotImplementedError msg ≠ MIPSolverException).
Proof.
  intros HG. unfold __init__. rewrite HG. repeat split; try done.
  by eexists.
Qed.

(** C8. With [n ≤ 2] vertices [hull_number(value_only=True)] returns
    [n] and [hull_number(value_only=False)] returns the list of all
    vertices; no backend is asked for, whatever the solver and however
    little fuel there is. *)
Theorem hull_number_small (solve : solver) self fuel verbose :
  _n self ≤ 2 →
  hull_number_run solve fuel self true verbose
    = Ok (Number (Z.of_nat (_n self)), None)
  ∧ hull_number_run solve fuel self false verbose
    = Ok (Vertices (_list_integers_to_vertices self), None)
  ∧ hull_number solve fuel self true verbose = Ok (Number (Z.of_nat (_n self)))
  ∧ hull_number solve fuel self false verbose
    = Ok (Vertices (_list_integers_to_vertices self)).
Proof.
  intros Hn. unfold hull_number, hull_number_run.
  apply Nat.leb_le in Hn. rewrite Hn. done.
Qed.

(** C1, as the code has it. With [n ≥ 3] vertices the working set that
    [hull_number] hands to the first greedy expansion is not empty: it is
    the set [{0}]. *)
Theorem initial_hull_is_vertex_0 self :
  3 ≤ _n self →
  bitset_list (initial_hull self) = [0]
  ∧ bitset_len (initial_hull self) = 1
  ∧ initial_hull self ≠ bitset_set_first_n (bitset_init (_n self)) 0
  ∧ ∀ (solve : solver) fuel value_only verbose,
      hull_number_run solve fuel self value_only verbose
      = (g ← generation_loop solve fuel fuel self verbose
               (initial_backend self) (initial_hull self) 0 [];
         if value_only
         then Ok (Number (to_int (get_objective_value (g_solution g))), Some g)
         else
           l ← _integers_to_vertices self (selected (_n self) (g_solution g));
           Ok (Vertices l, Some g)).
Proof.
  intros Hn. unfold initial_hull.
  destruct (_n self) as [|n] eqn:En; [lia|].
  assert (bitset_set_first_n (bitset_init (S n)) 1 = true :: bitset_init n) as Hi.
  { apply bitset_ext.
    - rewrite length_set_first_n, length_init. cbn [length].
      by rewrite length_init.
    - intros [|k].
      + by rewrite bitset_in_set_first_n.
      + rewrite bitset_in_set_first_n, bitset_in_cons_S, bitset_in_init.
        apply bool_decide_eq_false. lia. }
  rewrite Hi. repeat split.
  - pose proof (length_bitset_list (true :: bitset_init n)) as Hl.
    cbn [bitset_len] in Hl. rewrite bitset_len_init in Hl.
    destruct (bitset_list (true :: bitset_init n)) as [|x [|y l]] eqn:E;
      cbn [length] in Hl; try lia.
    assert (x ∈ bitset_list (true :: bitset_init n)) as Hx by (rewrite E; left).
    apply elem_of_bitset_list in Hx. destruct x as [|x]; [done|].
    exfalso. by rewrite bitset_in_cons_S, bitset_in_init in Hx.
  - simpl. by rewrite bitset_len_init.
  - rewrite set_first_0. unfold bitset_init. cbn [replicate]. by intros [=].
  - intros solve fuel value_only verbose. unfold hull_number_run.
    rewrite En. rewrite (proj2 (Nat.leb_gt _ _)) by lia.
    unfold initial_hull. by rewrite En, Hi.
Qed.

End EasyCases.

(** ** The cache the constructor fills *)

Section CacheFacts.

Variables (c_distances : list Z) (n : nat).

Lemma bitset_in_fill_row i j r ks k :
  bitset_in (fill_row c_distances n i j r ks) k
  = bitset_in r k
    || bool_decide (k ∈ ks ∧ k < length r ∧ on_shortest_path c_distances n i j k = true).
Proof.
  revert r. induction ks as [|k' ks IH]; intros r.
  - unfold fill_row. cbn [foldl].
    rewrite bool_decide_eq_false_2; [by rewrite orb_false_r|].
    intros [Hk _]. by apply not_elem_of_nil in Hk.
  - unfold fill_row in *. cbn [foldl]. rewrite IH.
    destruct (on_shortest_path c_distances n i j k') eqn:E.
    + rewrite bitset_in_add, length_add.
      destruct (bitset_in r k); cbn [orb]; [by rewrite orb_true_r|].
      rewrite orb_false_r, <- bool_decide_or. apply bool_decide_ext.
      rewrite elem_of_cons. split.
      * intros [[-> Hk]|(Hin & Hk & Hc)]; (split; [by (left + right) | done]).
      * intros ([->|Hin] & Hk & Hc); [by left | by right].
    + f_equal. apply bool_decide_ext. rewrite elem_of_cons. split.
      * intros (Hin & Hk & Hc). split; [by right | done].
      * intros ([->|Hin] & Hk & Hc); [congruence | done].
Qed.

Lemma fill_k_loop_lookup i j p ks rows q :
  foldl (λ rows k, fill_k c_distances n i j rows p k) rows ks !! q
  = if decide (q = p) then (λ r, fill_row c_distances n i j r ks) <$> rows !! p
    else rows !! q.
Proof.
  revert rows. induction ks as [|k ks IH]; intros rows; cbn [foldl].
  - destruct (decide (q = p)) as [->|]; [|done].
    unfold fill_row. simpl. by destruct (rows !! p).
  - rewrite IH. unfold fill_k. fold (on_shortest_path c_distances n i j k).
    unfold fill_row. cbn [foldl].
    destruct (on_shortest_path c_distances n i j k).
    + destruct (decide (q = p)) as [->|Hne].
      * rewrite list_lookup_alter_eq. by destruct (rows !! p).
      * by rewrite list_lookup_alter_ne.
    + done.
Qed.

Lemma fill_i_pairs st i :
  fill_i c_distances n st i = foldl (fill_pair c_distances n) st (row_pairs n i).
Proof. unfold fill_i, row_pairs. by rewrite foldl_fmap. Qed.

Lemma fill_pairs_below ps rows p q :
  q < p → (foldl (fill_pair c_distances n) (rows, p) ps).1 !! q = rows !! q.
Proof.
  revert rows p. induction ps as [|[i j] ps IH]; intros rows p Hq; [done|].
  cbn [foldl]. unfold fill_pair at 2, fill_j. cbn [fst snd].
  rewrite IH by lia. rewrite fill_k_loop_lookup.
  rewrite decide_False by lia. done.
Qed.

Lemma fill_pairs_at ps rows p m i j :
  ps !! m = Some (i, j) →
  (foldl (fill_pair c_distances n) (rows, p) ps).1 !! (p + m)
  = (λ r, fill_row c_distances n i j r (seq 0 n)) <$> rows !! (p + m).
Proof.
  revert rows p m. induction ps as [|[i' j'] ps IH]; intros rows p m Hm; [done|].
  cbn [foldl]. unfold fill_pair at 2, fill_j. cbn [fst snd].
  destruct m as [|m].
  - injection Hm as -> ->. rewrite fill_pairs_below by lia.
    rewrite fill_k_loop_lookup. replace (p + 0) with p by lia.
    by rewrite decide_True.
  - replace (p + S m) with ((p + 1) + m) by lia.
    rewrite (IH _ _ _ Hm), fill_k_loop_lookup.
    rewrite decide_False by lia. done.
Qed.

(** The row of the pair [(i, j)] after construction. *)
Lemma fill_cache_row i j :
  i < j < n →
  fill_cache c_distances n !! pair_index n i j
  = Some (fill_row c_distances n i j (bitset_init n) (seq 0 n)).
Proof.
  intros Hij. unfold fill_cache.
  assert (pairs n !! pair_index n i j = Some (i, j)) as Hl
    by by apply pairs_lookup.
  assert (foldl (fill_i c_distances n)
                (binary_matrix_init (n * (n - 1) / 2) n, 0) (seq 0 n)
          = foldl (fill_pair c_distances n) (binary_matrix_init (n * (n - 1) / 2) n, 0) (pairs n))
    as ->.
  { unfold pairs. rewrite foldl_flat_map.
    apply foldl_ext_in. intros st i' _. apply fill_i_pairs. }
  pose proof (fill_pairs_at _ (binary_matrix_init (n * (n - 1) / 2) n) 0 _ _ _ Hl)
    as Hat.
  rewrite !Nat.add_0_l in Hat. rewrite Hat. unfold binary_matrix_init.
  rewrite lookup_replicate_2; [done|].
  rewrite <- length_pairs. by eapply lookup_lt_Some.
Qed.

Lemma bitset_in_fill_cache_row i j k :
  i < j < n →
  bitset_in (row_at (fill_cache c_distances n) (pair_index n i j)) k
  = bool_decide (k < n ∧ on_shortest_path c_distances n i j k = true).
Proof.
  intros Hij. unfold row_at. rewrite fill_cache_row by done. simpl.
  rewrite bitset_in_fill_row, bitset_in_init, length_init. simpl.
  apply bool_decide_ext. rewrite elem_of_seq. split.
  - intros (_ & Hk & Hc). done.
  - intros (Hk & Hc). repeat split; [lia | lia | done | done].
Qed.

End CacheFacts.

Section CacheTheorem.

Context {V : Type} `{Countable V}.

(** C2. After construction on an undirected graph whose distance matrix
    [d] is symmetric with a zero diagonal, for all [i < j < n] and
    [k < n], bit [k] of the cached row of [(i, j)] is set if and only if
    [d(i,k) + d(k,j) = d(i,j)]; bits [i] and [j] are set. *)
Theorem cache_rows_are_shortest_path_sets (G : Graph V) self i j k :
  __init__ G = Ok self →
  (∀ a b, a < order G → b < order G → distance G a b = distance G b a) →
  (∀ a, a < order G → distance G a a = 0%Z) →
  i < j → j < order G → k < order G →
  (bitset_in (cached_row self i j) k = true
     ↔ (distance G i k + distance G k j = distance G i j)%Z)
  ∧ bitset_in (cached_row self i j) i = true
  ∧ bitset_in (cached_row self i j) j = true.
Proof.
  intros Hinit Hsym Hdiag Hij Hj Hk.
  unfold __init__ in Hinit. destruct (isinstance_DiGraph G); [done|].
  injection Hinit as <-. unfold cached_row. cbn [_cache_hull_pairs _n].
  rewrite !bitset_in_fill_cache_row by lia.
  unfold on_shortest_path. fold (distance G i k) (distance G j k)
    (distance G i j) (distance G i i) (distance G j i) (distance G j j).
  rewrite !bool_decide_eq_true, !Z.eqb_eq.
  rewrite (Hsym k j) by lia.
  split; [|split].
  - split; [by intros [_ ?] | intros; split; [lia | done]].
  - split; [lia|]. rewrite (Hdiag i), (Hsym j i) by lia. lia.
  - split; [lia|]. rewrite (Hdiag j) by lia. lia.
Qed.

End CacheTheorem.

(** ** The greedy expansion *)

Section GreedyFacts.

Context {V : Type} `{Countable V}.
Implicit Types (self : ConvexityProperties V).

Lemma stops_at_unique self X k1 k2 :
  stops_at self X k1 → stops_at self X k2 → k1 = k2.
Proof.
  intros [He1 Hl1] [He2 Hl2].
  destruct (Nat.lt_trichotomy k1 k2) as [Hlt|[Heq|Hgt]]; [|done|].
  - by destruct (Hl2 k1 Hlt).
  - by destruct (Hl1 k2 Hgt).
Qed.

(** The closure does not depend on the fuel, once there is enough. *)
Lemma bitset_convex_hull_fuel self fuel1 fuel2 X :
  length X = _n self →
  Nat.max 1 (_n self) ≤ fuel1 → Nat.max 1 (_n self) ≤ fuel2 →
  _bitset_convex_hull fuel1 self X = _bitset_convex_hull fuel2 self X.
Proof.
  intros Hlen Hf1 Hf2.
  destruct (bitset_convex_hull_run_ok self fuel1 X Hlen Hf1)
    as (r1 & k1 & Hr1 & _ & _ & Hh1 & Hs1).
  destruct (bitset_convex_hull_run_ok self fuel2 X Hlen Hf2)
    as (r2 & k2 & Hr2 & _ & _ & Hh2 & Hs2).
  unfold _bitset_convex_hull. rewrite Hr1, Hr2. simpl.
  rewrite Hh1, Hh2. by rewrite (stops_at_unique self X k1 k2).
Qed.

(** One candidate [i], on a set [bs]. *)
Lemma greedy_step_ok self fuel bs i :
  length bs = _n self → Nat.max 1 (_n self) ≤ fuel →
  ∃ C, _bitset_convex_hull fuel self (bitset_add bs i) = Ok C
     ∧ greedy_step fuel self (Ok bs) i
       = Ok (if negb (bitset_in bs i) && (bitset_len C <? _n self)
             then bitset_add bs i else bs).
Proof.
  intros Hlen Hfuel.
  destruct (bitset_convex_hull_ok self fuel (bitset_add bs i)) as (C & HC & _);
    [by rewrite length_add | done |].
  exists C. split; [done|].
  unfold greedy_step, bitset_copy. cbn [mbind result_bind].
  destruct (bitset_in bs i); cbn [negb andb]; [done|].
  rewrite HC. cbn [mbind result_bind]. by destruct (_ <? _).
Qed.

Lemma greedy_step_fuel self fuel1 fuel2 bs i :
  length bs = _n self →
  Nat.max 1 (_n self) ≤ fuel1 → Nat.max 1 (_n self) ≤ fuel2 →
  greedy_step fuel1 self (Ok bs) i = greedy_step fuel2 self (Ok bs) i.
Proof.
  intros Hlen Hf1 Hf2. unfold greedy_step. cbn [mbind result_bind].
  destruct (negb _); [|done]. unfold bitset_copy.
  by rewrite (bitset_convex_hull_fuel self fuel1 fuel2) by (by rewrite ?length_add).
Qed.

(** A run over the candidates [l]: it returns, only adds candidates of
    [l], and keeps the closure proper. *)
Lemma greedy_fold_ok self fuel (l : list nat) bs :
  length bs = _n self → Nat.max 1 (_n self) ≤ fuel →
  proper_closure fuel self bs →
  ∃ R, foldl (greedy_step fuel self) (Ok bs) l = Ok R
     ∧ length R = _n self
     ∧ subset bs R
     ∧ (∀ k, bitset_in R k = true → bitset_in bs k = true ∨ k ∈ l)
     ∧ proper_closure fuel self R.
Proof.
  intros Hlen Hfuel. revert bs Hlen.
  induction l as [|i l IH]; intros bs Hlen Hprop; cbn [foldl].
  - exists bs. repeat split; try done; [apply subset_refl | by left].
  - destruct (greedy_step_ok self fuel bs i Hlen Hfuel) as (C & HC & ->).
    set (bs' := if negb (bitset_in bs i) && (bitset_len C <? _n self)
                then bitset_add bs i else bs).
    assert (length bs' = _n self) as Hlen'.
    { unfold bs'. destruct (_ && _); [by rewrite length_add | done]. }
    assert (subset bs bs') as Hsub.
    { unfold bs'. destruct (_ && _); [apply add_superset | apply subset_refl]. }
    assert (∀ k, bitset_in bs' k = true → bitset_in bs k = true ∨ k = i) as Honly.
    { unfold bs'. intros k. destruct (_ && _); [|by left].
      rewrite bitset_in_add.
      intros [[-> _]%bool_decide_eq_true|Hk]%orb_true_iff; [by right | by left]. }
    assert (proper_closure fuel self bs') as Hprop'.
    { unfold bs'. destruct (negb _); cbn [andb]; [|done].
      destruct (bitset_len C <? _n self) eqn:E; [|done].
      exists C. split; [done|]. by apply Nat.ltb_lt. }
    destruct (IH bs' Hlen' Hprop') as (R & HR & HlenR & HsubR & HonlyR & HpropR).
    exists R. repeat split; try done.
    + by eapply subset_trans.
    + intros k Hk. destruct (HonlyR k Hk) as [Hk'|Hk']; [|right; by right].
      destruct (Honly k Hk') as [?| ->]; [by left | right; left].
Qed.

Lemma greedy_fold_fuel self fuel1 fuel2 (l : list nat) bs :
  length bs = _n self →
  Nat.max 1 (_n self) ≤ fuel1 → Nat.max 1 (_n self) ≤ fuel2 →
  foldl (greedy_step fuel1 self) (Ok bs) l
  = foldl (greedy_step fuel2 self) (Ok bs) l.
Proof.
  intros Hlen Hf1 Hf2. revert bs Hlen.
  induction l as [|i l IH]; intros bs Hlen; cbn [foldl]; [done|].
  rewrite (greedy_step_fuel self fuel1 fuel2) by done.
  destruct (greedy_step_ok self fuel2 bs i Hlen Hf2) as (C & _ & ->).
  apply IH. destruct (_ && _); [by rewrite length_add | done].
Qed.

End GreedyFacts.

Section GreedyTheorem.

Context {V : Type} `{Countable V}.
Implicit Types (self : ConvexityProperties V).

(** Once candidate [i] has come up its bit does not change. *)
Lemma greedy_bit_settled self fuel bs i R :
  length bs = _n self → Nat.max 1 (_n self) ≤ fuel →
  proper_closure fuel self bs → i < _n self →
  _greedy_increase fuel self bs = Ok R →
  ∃ Si', greedy_prefix fuel self bs (S i) = Ok Si'
       ∧ bitset_in R i = bitset_in Si' i.
Proof.
  intros Hlen Hfuel Hprop Hi HR. unfold _greedy_increase in HR.
  unfold greedy_prefix.
  destruct (greedy_fold_ok self fuel (seq 0 (S i)) bs Hlen Hfuel Hprop)
    as (Si' & HSi' & HlenSi' & _ & _ & HpropSi').
  exists Si'. split; [done|].
  replace (_n self) with (S i + (_n self - S i)) in HR by lia.
  rewrite seq_app, foldl_app, HSi' in HR.
  destruct (greedy_fold_ok self fuel (seq (0 + S i) (_n self - S i)) Si'
              HlenSi' Hfuel HpropSi') as (R' & HR' & _ & HsubR' & HonlyR' & _).
  rewrite HR' in HR. injection HR as <-.
  destruct (bitset_in R' i) eqn:E.
  - destruct (HonlyR' i E) as [?|Hin%elem_of_seq]; [done | lia].
  - destruct (bitset_in Si' i) eqn:E'; [|done].
    apply HsubR' in E'. congruence.
Qed.

(** C7. On a set [bs] whose closure is a proper subset of the vertices,
    the greedy expansion returns a set [R].  Candidates come up in
    increasing order: when [i] comes up the set [Si] held so far agrees
    with [bs] from [i] on; [i] is committed exactly when it is not in the
    set and the closure [C] of [Si ∪ {i}] is proper.  The closure of [R]
    is proper, and [R] is the same for any sufficient fuel. *)
Theorem greedy_increase_keeps_closure_proper self fuel bs :
  length bs = _n self →
  Nat.max 1 (_n self) ≤ fuel →
  proper_closure fuel self bs →
  ∃ R, _greedy_increase fuel self bs = Ok R
     ∧ (∀ i, i < _n self →
          ∃ Si C,
            greedy_prefix fuel self bs i = Ok Si
            ∧ (∀ k, i ≤ k → bitset_in Si k = bitset_in bs k)
            ∧ _bitset_convex_hull fuel self (bitset_add Si i) = Ok C
            ∧ greedy_prefix fuel self bs (S i)
              = Ok (if negb (bitset_in Si i) && (bitset_len C <? _n self)
                    then bitset_add Si i else Si)
            ∧ (bitset_in R i = true
               ↔ bitset_in bs i = true ∨ bitset_len C < _n self))
     ∧ subset bs R
     ∧ proper_closure fuel self R
     ∧ (∀ fuel', Nat.max 1 (_n self) ≤ fuel' →
                 _greedy_increase fuel' self bs = Ok R).
Proof.
  intros Hlen Hfuel Hprop.
  destruct (greedy_fold_ok self fuel (seq 0 (_n self)) bs Hlen Hfuel Hprop)
    as (R & HR & HlenR & HsubR & HonlyR & HpropR).
  exists R. unfold _greedy_increase. repeat split; try done.
  - intros i Hi. unfold greedy_prefix.
    destruct (greedy_fold_ok self fuel (seq 0 i) bs Hlen Hfuel Hprop)
      as (Si & HSi & HlenSi & HsubSi & HonlySi & HpropSi).
    destruct (greedy_step_ok self fuel Si i HlenSi Hfuel) as (C & HC & Hstep).
    assert (∀ k, i ≤ k → bitset_in Si k = bitset_in bs k) as Hagree.
    { intros k Hk. destruct (bitset_in Si k) eqn:E.
      - destruct (HonlySi k E) as [?|Hin%elem_of_seq]; [done | lia].
      - destruct (bitset_in bs k) eqn:E'; [|done].
        apply HsubSi in E'. congruence. }
    exists Si, C. split; [done|]. split; [done|]. split; [done|]. split.
    + by rewrite seq_S, foldl_app, HSi.
    + destruct (greedy_bit_settled self fuel bs i R Hlen Hfuel Hprop Hi HR)
        as (Si' & HSi' & ->).
      unfold greedy_prefix in HSi'.
      rewrite seq_S, foldl_app, HSi in HSi'. cbn [foldl Nat.add] in HSi'.
      rewrite Hstep in HSi'. injection HSi' as <-.
      rewrite <- (Hagree i) by lia.
      destruct (bitset_in Si i) eqn:E; cbn [negb andb].
      * split; [by left | by rewrite E].
      * destruct (bitset_len C <? _n self) eqn:E'.
        -- apply Nat.ltb_lt in E'. rewrite bitset_in_add.
           rewrite bool_decide_eq_true_2 by (split; [done | lia]).
           split; [by right | done].
        -- apply Nat.ltb_ge in E'. rewrite E.
           split; [done | intros [?|?]; [done | lia]].
  - intros fuel' Hfuel'.
    by rewrite (greedy_fold_fuel self fuel' fuel) by done.
Qed.

End GreedyTheorem.

(** ** Reading a solution of the backend *)

Section SolutionFacts.

Implicit Types (s : solution) (x : bitset_t).

Lemma gt_half_1 q : (q == 1)%Q → gt_half q = true.
Proof.
  intros Hq. unfold gt_half. destruct (Qlt_le_dec (1 # 2) q) as [|Hle]; [done|].
  exfalso. lra.
Qed.

Lemma gt_half_0 q : (q == 0)%Q → gt_half q = false.
Proof.
  intros Hq. unfold gt_half. destruct (Qlt_le_dec (1 # 2) q) as [Hlt|]; [|done].
  exfalso. lra.
Qed.

Lemma to_int_inject q z : (q == inject_Z z)%Q → to_int q = z.
Proof.
  unfold Qeq, to_int. simpl. rewrite Z.mul_1_r. intros ->.
  by apply Z.quot_mul.
Qed.

Lemma foldl_cond_app {A} (f : nat → bool) (g : nat → A) (l : list nat) (acc : list A) :
  foldl (λ acc i, if f i then acc ++ [g i] else acc) acc l
  = acc ++ map g (filter (λ i, f i = true) l).
Proof.
  revert acc. induction l as [|i l IH]; intros acc; cbn [foldl].
  - by rewrite app_nil_r.
  - rewrite IH. destruct (f i) eqn:E.
    + rewrite filter_cons_True by done. simpl. by rewrite <- app_assoc.
    + rewrite filter_cons_False by congruence. done.
Qed.

Lemma foldl_cond_add (f : nat → bool) (l : list nat) x :
  foldl (λ h i, if f i then bitset_add h i else h) x l
  = foldl bitset_add x (filter (λ i, f i = true) l).
Proof.
  revert x. induction l as [|i l IH]; intros x; cbn [foldl]; [done|].
  rewrite IH. destruct (f i) eqn:E.
  - by rewrite filter_cons_True by done.
  - by rewrite filter_cons_False by congruence.
Qed.

Lemma selected_chosen n s : selected n s = chosen n s.
Proof.
  unfold selected, chosen.
  rewrite (foldl_cond_app (λ i, gt_half (get_variable_value s i)) id).
  simpl. by rewrite map_id.
Qed.

Lemma read_solution_chosen n s x :
  read_solution n s x = foldl bitset_add x (chosen n s).
Proof.
  unfold read_solution, chosen.
  by rewrite (foldl_cond_add (λ i, gt_half (get_variable_value s i))).
Qed.

Lemma build_constraint_filter n x :
  build_constraint n x
  = map (λ i, (i, 1%Z)) (filter (λ i, negb (bitset_in x i) = true) (seq 0 n)).
Proof.
  unfold build_constraint.
  by rewrite (foldl_cond_app (λ i, negb (bitset_in x i)) (λ i, (i, 1%Z))).
Qed.

Lemma set_first_n_0 x : bitset_set_first_n x 0 = bitset_init (length x).
Proof.
  apply bitset_ext.
  - by rewrite length_set_first_n, length_init.
  - intros k. rewrite bitset_in_set_first_n, bitset_in_init.
    apply bool_decide_eq_false. lia.
Qed.

Lemma length_rounding n s : length (rounding n s) = n.
Proof.
  unfold rounding. by rewrite read_solution_chosen, foldl_add_length, length_init.
Qed.

Lemma bitset_in_rounding n s k :
  bitset_in (rounding n s) k
  = bool_decide (k < n) && gt_half (get_variable_value s k).
Proof.
  unfold rounding. rewrite read_solution_chosen, bitset_in_foldl_add.
  rewrite bitset_in_init, length_init. simpl. unfold chosen.
  destruct (decide (k < n)) as [Hlt|Hge].
  - rewrite (bool_decide_eq_true_2 (k < n)) by done. simpl.
    destruct (gt_half (get_variable_value s k)) eqn:E.
    + apply bool_decide_eq_true. split; [|done].
      apply list_elem_of_filter. split; [done|]. apply elem_of_seq. lia.
    + apply bool_decide_eq_false. intros [[Hk _]%list_elem_of_filter _].
      congruence.
  - rewrite (bool_decide_eq_false_2 (k < n)) by done. simpl.
    apply bool_decide_eq_false. intros [_ ?]. done.
Qed.

(** Under a 0/1 solution the left-hand side of a constraint is what the
    set read from the solution gives. *)
Lemma lhs_value_rounding n s (coefficients : list (nat * Z)) :
  binary n s →
  (∀ t, t ∈ coefficients → t.1 < n) →
  (lhs_value s coefficients == inject_Z (lhs (rounding n s) coefficients))%Q.
Proof.
  intros Hbin. induction coefficients as [|[i z] l IH]; intros Hl; simpl.
  - reflexivity.
  - assert (i < n) as Hi by apply (Hl (i, z)), list_elem_of_here.
    rewrite IH by (intros t Ht; apply Hl; by right).
    rewrite inject_Z_plus, bitset_in_rounding, bool_decide_eq_true_2 by done.
    simpl. destruct (Hbin i Hi) as [H0|H1].
    + rewrite (gt_half_0 _ H0), H0. simpl. ring.
    + rewrite (gt_half_1 _ H1), H1. simpl. ring.
Qed.

Lemma satisfies_meets n s (c : linear_constraint) :
  binary n s →
  (∀ t, t ∈ c.1.1 → t.1 < n) →
  satisfies s c → meets (rounding n s) c = true.
Proof.
  destruct c as [[coefficients lower_bound] upper_bound]. simpl.
  intros Hbin Hl [Hlo Hup].
  pose proof (lhs_value_rounding n s coefficients Hbin Hl) as Heq.
  apply andb_true_iff. split.
  - destruct lower_bound as [l|]; [|done].
    apply Z.leb_le. rewrite Heq in Hlo. by rewrite Zle_Qle.
  - destruct upper_bound as [u|]; [|done].
    apply Z.leb_le. rewrite Heq in Hup. by rewrite Zle_Qle.
Qed.

(** The objective of a 0/1 solution counts the variables above [.5]. *)
Lemma sum_values_chosen n s :
  binary n s →
  (sum_values s n == inject_Z (Z.of_nat (length (chosen n s))))%Q.
Proof.
  intros Hbin. unfold sum_values, chosen.
  assert (∀ l : list nat, (∀ i, i ∈ l → i < n) →
            (foldr (λ i acc, get_variable_value s i + acc) 0 l
             == inject_Z (Z.of_nat (length
                  (filter (λ i, gt_half (get_variable_value s i) = true) l))))%Q)
    as Hgen.
  { induction l as [|i l IH]; intros Hl; simpl; [reflexivity|].
    rewrite IH by (intros k Hk; apply Hl; by right).
    destruct (Hbin i (Hl i ltac:(left))) as [H0|H1].
    - rewrite filter_cons_False by (rewrite (gt_half_0 _ H0); done).
      rewrite H0. ring.
    - rewrite filter_cons_True by (by rewrite (gt_half_1 _ H1)).
      cbn [length]. rewrite Nat2Z.inj_succ, <- Z.add_1_l, inject_Z_plus, H1.
      reflexivity. }
  apply Hgen. intros i Hi%elem_of_seq. lia.
Qed.

Lemma lhs_unit_nonneg x (l : list nat) : (0 ≤ lhs x (map (λ i, (i, 1%Z)) l))%Z.
Proof. induction l as [|i l IH]; simpl; [done|]. destruct (bitset_in x i); lia. Qed.

Lemma lhs_unit_pos x (l : list nat) :
  (1 ≤ lhs x (map (λ i, (i, 1%Z)) l))%Z ↔ ∃ i, i ∈ l ∧ bitset_in x i = true.
Proof.
  induction l as [|i l IH]; simpl.
  - split; [lia|]. intros (i & Hi & _). by apply not_elem_of_nil in Hi.
  - pose proof (lhs_unit_nonneg x l) as Hnn.
    destruct (bitset_in x i) eqn:E.
    + split; [|lia]. intros _. exists i. split; [left | done].
    + rewrite Z.add_0_l, IH. split.
      * intros (k & Hk & Hx). exists k. split; [by right | done].
      * intros (k & [->|Hk]%elem_of_cons & Hx); [congruence|]. by exists k.
Qed.

Lemma meets_build_constraint n x C :
  meets x (build_constraint n C, Some 1%Z, None) = true ↔ escapes n x C.
Proof.
  unfold meets. rewrite andb_true_r, Z.leb_le, build_constraint_filter.
  rewrite lhs_unit_pos. unfold escapes. split.
  - intros (i & [Hc Hi%elem_of_seq]%list_elem_of_filter & Hx).
    exists i. repeat split; [lia | done | by apply negb_true_iff].
  - intros (i & Hi & Hx & Hc). exists i. split; [|done].
    apply list_elem_of_filter. split; [by apply negb_true_iff|].
    apply elem_of_seq. lia.
Qed.

End SolutionFacts.

(** ** The constraint-generation loop *)

Section GenerationFacts.

Context {V : Type} `{Countable V}.
Implicit Types (self : ConvexityProperties V) (p : GenericBackend) (x : bitset_t).

Lemma assignments_length n x : x ∈ assignments n ↔ length x = n.
Proof.
  revert x. induction n as [|n IH]; intros x; simpl.
  - rewrite list_elem_of_singleton. split; [by intros -> | by destruct x].
  - rewrite elem_of_app, !list_elem_of_fmap. split.
    + intros [(y & -> & Hy)|(y & -> & Hy)]; simpl; f_equal; by apply IH.
    + destruct x as [|[] x]; [done| |]; intros [= Hx]; [right | left];
        (eexists; split; [done | by apply IH]).
Qed.

Lemma feasible_add p coefficients lower_bound upper_bound x :
  feasible (add_linear_constraint p coefficients lower_bound upper_bound) x
  = feasible p x && meets x (coefficients, lower_bound, upper_bound).
Proof.
  unfold feasible, add_linear_constraint. cbn [constraints].
  rewrite forallb_app. cbn [forallb]. by rewrite andb_true_r.
Qed.

Lemma escapesb_spec n x C : escapesb n x C = true ↔ escapes n x C.
Proof.
  unfold escapesb, escapes. rewrite existsb_exists. split.
  - intros (i & Hi%in_seq & [Hx Hc%negb_true_iff]%andb_true_iff).
    exists i. repeat split; [lia | done | done].
  - intros (i & Hi & Hx & Hc). exists i. split; [apply in_seq; lia|].
    by rewrite Hx, Hc.
Qed.

Lemma filter_length_lt {A} (P Q : A → Prop)
    `{!∀ a, Decision (P a)} `{!∀ a, Decision (Q a)} (l : list A) (a0 : A) :
  (∀ a, Q a → P a) → a0 ∈ l → P a0 → ¬ Q a0 →
  length (filter Q l) < length (filter P l).
Proof.
  intros HQP. induction l as [|a l IH]; intros Hin HP HQ.
  - by apply not_elem_of_nil in Hin.
  - assert (length (filter Q l) ≤ length (filter P l)) as Hle.
    { clear IH Hin. induction l as [|b l IHl]; [done|].
      rewrite !filter_cons.
      destruct (decide (Q b)) as [q|nq], (decide (P b)) as [pb|npb]; simpl;
        [lia | by destruct npb; apply HQP | lia | lia]. }
    rewrite !filter_cons. apply elem_of_cons in Hin as [<-|Hin].
    + rewrite decide_False, decide_True by done. simpl. lia.
    + specialize (IH Hin HP HQ).
      destruct (decide (Q a)) as [q|nq], (decide (P a)) as [pa|npa]; simpl;
        [lia | by destruct npa; apply HQP | lia | lia].
Qed.

Lemma not_full_missing x :
  bitset_len x < length x → ∃ i, i < length x ∧ bitset_in x i = false.
Proof.
  induction x as [|b x IH]; simpl; [lia|].
  destruct b.
  - intros Hl. destruct IH as (i & Hi & Hx); [lia|].
    exists (S i). split; [lia | done].
  - intros _. exists 0. split; [lia | done].
Qed.

Lemma lhs_unit_full n (l : list nat) :
  (∀ i, i ∈ l → i < n) →
  lhs (full n) (map (λ i, (i, 1%Z)) l) = Z.of_nat (length l).
Proof.
  induction l as [|i l IH]; intros Hl; [done|].
  cbn [map lhs foldr length fst snd]. fold (lhs (full n) (map (λ i, (i, 1%Z)) l)).
  rewrite IH by (intros k Hk; apply Hl; by right).
  rewrite bitset_in_full, bool_decide_eq_true_2 by (apply Hl; left). lia.
Qed.

Lemma terms_below_add n p C lower_bound :
  terms_below n p →
  terms_below n (add_linear_constraint p (build_constraint n C) lower_bound None).
Proof.
  intros Hp c t. unfold add_linear_constraint. cbn [constraints].
  intros [Hc|Hc%list_elem_of_singleton]%elem_of_app Ht; [by eapply Hp|].
  subst c. cbn [fst] in Ht. rewrite build_constraint_filter in Ht.
  apply list_elem_of_fmap in Ht as (i & -> & [_ Hi%elem_of_seq]%list_elem_of_filter).
  simpl. lia.
Qed.

(** A 0/1 solution that satisfies the program, read as a set, meets it. *)
Lemma rounding_feasible n p (s : solution) :
  terms_below n p → binary n s →
  (∀ c, c ∈ constraints p → satisfies s c) →
  feasible p (rounding n s) = true.
Proof.
  intros Hterms Hbin Hsat. unfold feasible. apply forallb_forall.
  intros c Hc%list_elem_of_In. apply (satisfies_meets n); [done | | by apply Hsat].
  intros t Ht. by apply (Hterms c).
Qed.

End GenerationFacts.

Section GenerationLoop.

Context {V : Type} `{Countable V}.
Implicit Types (self : ConvexityProperties V) (p : GenericBackend) (x : bitset_t).

Lemma two_elements x i j :
  i ≠ j → bitset_in x i = true → bitset_in x j = true → 2 ≤ bitset_len x.
Proof.
  revert i j. induction x as [|b x IH]; intros i j Hne Hi Hj.
  - by rewrite bitset_in_nil in Hi.
  - assert (∀ k, bitset_in x k = true → 1 ≤ bitset_len x) as Hone.
    { intros k Hk. destruct (bitset_len x) eqn:E; [|lia].
      rewrite bitset_len_0 in E. by rewrite E in Hk. }
    destruct i as [|i], j as [|j]; [done | | |].
    + rewrite bitset_in_cons_0 in Hi. rewrite bitset_in_cons_S in Hj.
      subst b. simpl. specialize (Hone j Hj). lia.
    + rewrite bitset_in_cons_0 in Hj. rewrite bitset_in_cons_S in Hi.
      subst b. simpl. specialize (Hone i Hi). lia.
    + rewrite bitset_in_cons_S in Hi, Hj.
      assert (2 ≤ bitset_len x) by (apply (IH i j); [lia | done | done]).
      simpl. lia.
Qed.

(** A set with at most one vertex is its own closure. *)
Lemma pass_small self x : bitset_len x ≤ 1 → pass self x = x.
Proof.
  intros Hx. unfold pass. rewrite one_pass_pairs.
  assert (∀ ps st, (∀ ij, ij ∈ ps → ij.1 < ij.2) → sc_hull st = x →
            sc_hull (foldl (scan_pair (_cache_hull_pairs self)) st ps) = x) as Hgen.
  { induction ps as [|[i j] ps IH]; intros st Hps Hst; simpl; [done|].
    apply IH; [intros ij Hij; apply Hps; by right|].
    unfold scan_pair. simpl.
    destruct (bitset_in (sc_hull st) i) eqn:Hi; simpl; [|done].
    destruct (bitset_in (sc_hull st) j) eqn:Hj; simpl; [|done].
    rewrite Hst in Hi, Hj. specialize (Hps (i, j) ltac:(left)). simpl in Hps.
    assert (2 ≤ bitset_len x) by (apply (two_elements x i j); [lia | done | done]).
    lia. }
  apply Hgen; [|done].
  intros [i j] [m Hm]%list_elem_of_lookup. apply pairs_lookup in Hm. simpl. lia.
Qed.

Lemma closure_of_fixed self cfuel x :
  0 < cfuel → pass self x = x → _bitset_convex_hull cfuel self x = Ok x.
Proof.
  intros Hf Hfix. unfold _bitset_convex_hull.
  by rewrite bitset_convex_hull_fixed.
Qed.

Variable solve : solver.
Hypothesis solve_exact : exact_backend solve.

Lemma generation_loop_ok self fuel cfuel verbose p cur solves printed :
  Nat.max 1 (_n self) ≤ cfuel →
  length cur = _n self →
  proper_closure cfuel self cur →
  ncols p = _n self →
  feasible p (full (_n self)) = true →
  terms_below (_n self) p →
  length (open_assignments (_n self) p cur) < fuel →
  ∃ g, generation_loop solve fuel cfuel self verbose p cur solves printed = Ok g
     ∧ binary (_n self) (g_solution g)
     ∧ (get_objective_value (g_solution g)
        == sum_values (g_solution g) (_n self))%Q
     ∧ _bitset_convex_hull cfuel self (rounding (_n self) (g_solution g))
       = Ok (full (_n self)).
Proof.
  intros Hcfuel. revert p cur solves printed.
  induction fuel as [|fuel IH];
    intros p cur solves printed Hlen Hprop Hcols Hfull Hterms Hmeasure; [lia|].
  cbn [generation_loop].
  destruct (greedy_fold_ok self cfuel (seq 0 (_n self)) cur Hlen Hcfuel Hprop)
    as (C & HC & HlenC & HsubC & _ & (K0 & HK0 & HK0n)).
  unfold _greedy_increase. rewrite HC. cbn [mbind result_bind].
  (* the greedy set misses a vertex *)
  destruct (bitset_convex_hull_ok self cfuel C HlenC Hcfuel)
    as (K0' & HK0' & HlenK0 & HsubK0 & _).
  rewrite HK0 in HK0'. injection HK0' as <-.
  assert (∃ i, i < _n self ∧ bitset_in C i = false) as (i0 & Hi0 & Hi0C).
  { rewrite <- HlenC. apply not_full_missing. rewrite HlenC.
    pose proof (bitset_len_mono C K0 ltac:(lia) HsubK0). lia. }
  set (p' := add_linear_constraint p (build_constraint (_n self) C) (Some 1%Z) None).
  assert (feasible p' (full (_n self)) = true) as Hfull'.
  { unfold p'. rewrite feasible_add, Hfull. simpl.
    apply meets_build_constraint. exists i0. repeat split; [done | | done].
    rewrite bitset_in_full. by apply bool_decide_eq_true. }
  assert (terms_below (_n self) p') as Hterms' by by apply terms_below_add.
  destruct (solve_exact p') as (s & Hs & Hbin & Hsat & Hobj).
  { exists (full (_n self)). split; [|done].
    unfold full. rewrite length_replicate. by rewrite <- Hcols. }
  replace (ncols p') with (_n self) in Hbin, Hobj by done.
  rewrite Hs. rewrite set_first_n_0, HlenC. fold (rounding (_n self) s).
  set (X := rounding (_n self) s).
  assert (length X = _n self) as HlenX by apply length_rounding.
  destruct (bitset_convex_hull_ok self cfuel X HlenX Hcfuel)
    as (K & HK & HlenK & HsubK & HfixK & _).
  rewrite HK. cbn [mbind result_bind].
  destruct (bitset_len K =? _n self) eqn:E.
  - apply Nat.eqb_eq in E. eexists. split; [done|]. cbn [g_solution].
    repeat split; try done.
    fold X. rewrite HK. f_equal. rewrite <- HlenK. apply len_full_eq. lia.
  - apply Nat.eqb_neq in E.
    pose proof (bitset_len_le_length K) as HKle.
    apply IH; try done.
    + exists K. split; [apply closure_of_fixed; [lia | done] | lia].
    + (* the solution is ruled out from now on *)
      assert (feasible p' X = true) as HfX by by apply rounding_feasible.
      eapply Nat.lt_le_trans; [|apply Nat.lt_succ_r, Hmeasure].
      unfold open_assignments.
      apply (filter_length_lt _ _ _ X).
      * intros x [Hfx _]. unfold p' in Hfx.
        rewrite feasible_add in Hfx.
        apply andb_true_iff in Hfx as [Hfx Hmx]. split; [done|].
        apply escapesb_spec. apply meets_build_constraint in Hmx.
        destruct Hmx as (i & Hi & Hx & Hc). exists i. repeat split; try done.
        destruct (bitset_in cur i) eqn:Hcur; [|done].
        apply HsubC in Hcur. congruence.
      * by apply assignments_length.
      * unfold p' in HfX. rewrite feasible_add in HfX.
        apply andb_true_iff in HfX as [HfX HmX]. split; [done|].
        apply escapesb_spec. apply meets_build_constraint in HmX.
        destruct HmX as (i & Hi & Hx & Hc). exists i. repeat split; try done.
        destruct (bitset_in cur i) eqn:Hcur; [|done].
        apply HsubC in Hcur. congruence.
      * intros [_ (i & Hi & Hx & Hc)%escapesb_spec].
        apply HsubK in Hx. congruence.
Qed.

End GenerationLoop.

(** ** [hull_number] *)

Section HullNumberTheorem.

Context {V : Type} `{Countable V}.
Implicit Types (self : ConvexityProperties V) (G : Graph V).

Lemma initial_hull_cons self n :
  _n self = S n → initial_hull self = true :: bitset_init n.
Proof.
  intros En. unfold initial_hull. rewrite En. apply bitset_ext.
  - rewrite length_set_first_n, length_init. cbn [length].
    by rewrite length_init.
  - intros [|k].
    + by rewrite bitset_in_set_first_n.
    + rewrite bitset_in_set_first_n, bitset_in_cons_S, bitset_in_init.
      apply bool_decide_eq_false. lia.
Qed.

Lemma length_assignments n : length (assignments n) = 2 ^ n.
Proof.
  induction n as [|n IH]; [done|].
  cbn [assignments]. rewrite length_app, !length_map, IH. simpl. lia.
Qed.

Lemma pow2_gt n : n < 2 ^ n.
Proof. induction n as [|n IH]; simpl; lia. Qed.

(** The printing does not change what the loop computes. *)
Lemma generation_loop_verbose (solve : solver) self fuel cfuel v1 v2 p cur solves
    pr1 pr2 g1 :
  generation_loop solve fuel cfuel self v1 p cur solves pr1 = Ok g1 →
  ∃ g2, generation_loop solve fuel cfuel self v2 p cur solves pr2 = Ok g2
      ∧ g_solution g2 = g_solution g1
      ∧ g_backend g2 = g_backend g1
      ∧ g_solves g2 = g_solves g1.
Proof.
  revert p cur solves pr1 pr2.
  induction fuel as [|fuel IH]; intros p cur solves pr1 pr2; [done|].
  cbn [generation_loop].
  destruct (_greedy_increase cfuel self cur) as [C| |]; cbn [mbind result_bind];
    [|done..].
  destruct (solve _) as [s|]; [|done].
  destruct (_bitset_convex_hull cfuel self _) as [K| |]; cbn [mbind result_bind];
    [|done..].
  destruct (bitset_len K =? _n self).
  - intros [= <-]. eexists. by split.
  - apply IH.
Qed.

Lemma Forall2_seq_lookup {A} (l : list A) :
  Forall2 (λ k v, l !! k = Some v) (seq 0 (length l)) l.
Proof.
  apply Forall2_same_length_lookup. split; [by rewrite length_seq|].
  intros i k v Hk Hv. apply lookup_seq in Hk as [-> _]. done.
Qed.

Lemma integers_to_vertices_Forall2 self (l : list nat) (vs : list V) :
  Forall2 (λ k v, _list_integers_to_vertices self !! k = Some v) l vs →
  _integers_to_vertices self l = Ok vs.
Proof.
  induction 1 as [|k v l vs Hkv _ IH]; simpl; [done|].
  by rewrite Hkv, IH.
Qed.

(** The hull of vertices whose closure has all [n] bits set is the list
    of all vertices. *)
Lemma hull_generates self fuel (l : list nat) (vs : list V) :
  well_formed self →
  Forall2 (λ k v, _list_integers_to_vertices self !! k = Some v) l vs →
  _bitset_convex_hull fuel self (foldl bitset_add (bitset_init (_n self)) l)
    = Ok (full (_n self)) →
  hull fuel self vs = Ok (_list_integers_to_vertices self).
Proof.
  intros Hwf Hrel Hclosure. pose proof Hwf as (Hn & _ & _).
  unfold hull, hull_run. rewrite set_first_0.
  rewrite (add_vertices_indices self l vs _ Hwf Hrel). cbn [mbind result_bind].
  unfold _bitset_convex_hull in Hclosure.
  destruct (_bitset_convex_hull_run fuel self _) as [r| |];
    cbn [mbind result_bind] in *; [|done..].
  injection Hclosure as ->. rewrite bitset_list_full.
  rewrite (integers_to_vertices_Forall2 self (seq 0 (_n self))
             (_list_integers_to_vertices self)).
  - done.
  - rewrite Hn. apply Forall2_seq_lookup.
Qed.

Lemma foldl_add_all n : foldl bitset_add (bitset_init n) (seq 0 n) = full n.
Proof.
  apply bitset_ext.
  - unfold full. by rewrite foldl_add_length, length_init, length_replicate.
  - intros k. rewrite bitset_in_foldl_add, bitset_in_init, length_init,
      bitset_in_full. simpl.
    apply bool_decide_ext. rewrite elem_of_seq. lia.
Qed.

Lemma pass_full self : pass self (full (_n self)) = full (_n self).
Proof.
  apply pass_len_eq. apply Nat.le_antisymm; [|apply pass_len_le].
  etransitivity; [apply bitset_len_le_length|].
  rewrite pass_length, bitset_len_full. unfold full. by rewrite length_replicate.
Qed.

(** C6. With an exact 0/1 backend, [hull_number(value_only=False)]
    returns a list [Gstar] of vertices whose hull is the list of all
    vertices of the graph, [hull_number(value_only=True)] returns an
    integer [k], and [Gstar] has [k] elements. *)
Theorem hull_number_generating_set G self (solve : solver) fuel verbose1 verbose2 :
  __init__ G = Ok self →
  NoDup (list_G G) →
  exact_backend solve →
  2 ^ order G < fuel →
  ∃ Gstar k,
    hull_number solve fuel self false verbose1 = Ok (Vertices Gstar)
    ∧ hull_number solve fuel self true verbose2 = Ok (Number k)
    ∧ hull fuel self Gstar = Ok (list_G G)
    ∧ Z.of_nat (length Gstar) = k.
Proof.
  intros Hinit Hnd Hsolve Hfuel.
  destruct (init_well_formed G self Hinit Hnd) as (Hwf & Hlist & Hn).
  rewrite <- Hn in Hfuel. rewrite <- Hlist.
  pose proof Hwf as (Hnlen & _ & _).
  pose proof (pow2_gt (_n self)) as Hpow.
  assert (Nat.max 1 (_n self) ≤ fuel) as Hcfuel by lia.
  unfold hull_number, hull_number_run.
  destruct (_n self <=? 2) eqn:Esmall.
  - (* every vertex is required *)
    exists (_list_integers_to_vertices self), (Z.of_nat (_n self)).
    repeat split; try done; [|by rewrite Hnlen].
    apply (hull_generates self fuel (seq 0 (_n self))); [done | |].
    + rewrite Hnlen. apply Forall2_seq_lookup.
    + rewrite foldl_add_all. apply closure_of_fixed; [lia | apply pass_full].
  - apply Nat.leb_gt in Esmall.
    assert (∃ n, _n self = S n) as [n En] by (exists (_n self - 1); lia).
    pose proof (initial_hull_cons self n En) as Hcur.
    destruct (generation_loop_ok solve Hsolve self fuel fuel verbose1
                (initial_backend self) (initial_hull self) 0 [])
      as (g & Hg & Hbin & Hobj & Hclosure); try done.
    + rewrite Hcur. cbn [length]. rewrite length_init. lia.
    + exists (initial_hull self). split.
      * apply closure_of_fixed; [lia|]. apply pass_small.
        rewrite Hcur. cbn [bitset_len]. rewrite bitset_len_init. lia.
      * rewrite Hcur. cbn [bitset_len]. rewrite bitset_len_init. lia.
    + unfold initial_backend. rewrite feasible_add. simpl.
      rewrite andb_true_r. apply Z.leb_le.
      rewrite lhs_unit_full by (intros i Hi%elem_of_seq; lia).
      rewrite length_seq. lia.
    + intros c t. unfold initial_backend, add_linear_constraint.
      cbn [constraints get_solver set_sense add_variables app].
      intros ->%list_elem_of_singleton. cbn [fst].
      intros (i & -> & Hi%elem_of_seq)%list_elem_of_fmap. simpl. lia.
    + eapply Nat.le_lt_trans; [apply length_filter|].
      by rewrite length_assignments.
    + destruct (generation_loop_verbose solve self fuel fuel verbose1 verbose2
                  _ _ _ [] [] g Hg) as (g2 & Hg2 & Hsol2 & _).
      rewrite Hg, Hg2. cbn [mbind result_bind]. rewrite Hsol2.
      rewrite selected_chosen.
      destruct (integers_to_vertices_ok self (chosen (_n self) (g_solution g)) Hnlen)
        as (vs & Hvs & Hrel).
      { intros k [_ Hk%elem_of_seq]%list_elem_of_filter. lia. }
      rewrite Hvs. cbn [mbind result_bind fst].
      exists vs, (Z.of_nat (length (chosen (_n self) (g_solution g)))).
      repeat split.
      * f_equal. f_equal. apply to_int_inject.
        etransitivity; [apply Hobj | by apply sum_values_chosen].
      * apply (hull_generates self fuel (chosen (_n self) (g_solution g)));
          [done | done |].
        rewrite <- read_solution_chosen. apply Hclosure.
      * f_equal. symmetry. by eapply Forall2_length.
Qed.

End HullNumberTheorem.

(** ** The exhaustive backend is exact *)

Section ExhaustiveFacts.

Import Exhaustive.

Lemma least_elem_of (xs : list bitset_t) :
  xs ≠ [] → ∃ y, least xs = Some y ∧ y ∈ xs.
Proof.
  induction xs as [|x xs IH]; [done|]. intros _. simpl.
  destruct xs as [|x' xs'].
  - exists x. split; [done | left].
  - destruct IH as (y & -> & Hy); [done|].
    destruct (bitset_len y <? bitset_len x);
      [exists y; split; [done | by right] | exists x; split; [done | left]].
Qed.

Lemma lhs_value_solution_of x (coefficients : list (nat * Z)) :
  (lhs_value (solution_of x) coefficients == inject_Z (lhs x coefficients))%Q.
Proof.
  induction coefficients as [|[i z] l IH]; simpl; [reflexivity|].
  rewrite IH, inject_Z_plus. destruct (bitset_in x i); ring.
Qed.

Lemma binary_solution_of n x : binary n (solution_of x).
Proof.
  intros i _. simpl. destruct (bitset_in x i); [right | left]; reflexivity.
Qed.

Lemma chosen_solution_of x : chosen (length x) (solution_of x) = bitset_list x.
Proof.
  unfold chosen, bitset_list. apply filter_ext_in. intros i _. simpl.
  destruct (bitset_in x i).
  - by rewrite gt_half_1.
  - by rewrite gt_half_0.
Qed.

Lemma exhaustive_exact : exact_backend solve.
Proof.
  intros p (x & Hlen & Hfeas). unfold solve.
  destruct (least_elem_of
              (filter (λ x, feasible p x = true) (assignments (ncols p))))
    as (y & -> & [Hy Hin]%list_elem_of_filter).
  { apply (elem_of_not_nil x). apply list_elem_of_filter. split; [done|].
    by apply assignments_length. }
  apply assignments_length in Hin.
  exists (solution_of y). split; [done|]. split; [|split].
  - apply binary_solution_of.
  - intros [[coefficients lower_bound] upper_bound] Hc.
    unfold feasible in Hy. rewrite forallb_forall in Hy.
    specialize (Hy _ (proj1 (list_elem_of_In _ _) Hc)).
    apply andb_true_iff in Hy as [Hlo Hup]. simpl. split.
    + destruct lower_bound as [l|]; [|done].
      rewrite lhs_value_solution_of, <- Zle_Qle. by apply Z.leb_le.
    + destruct upper_bound as [u|]; [|done].
      rewrite lhs_value_solution_of, <- Zle_Qle. by apply Z.leb_le.
  - rewrite (sum_values_chosen _ _ (binary_solution_of _ y)).
    rewrite <- Hin, chosen_solution_of, length_bitset_list. reflexivity.
Qed.

End ExhaustiveFacts.

(** ** The examples of the docstrings, and instances of the theorems *)

Section Instances.

Example init_path5 : __init__ path5 = Ok (instance_of path5).
Proof. reflexivity. Qed.

(** [CP.hull([1, 3])] on the Petersen graph is [[1, 2, 3]]. *)
Example petersen_hull_1_3 :
  hull 10 (instance_of petersen) [1; 3] = Ok [1; 2; 3].
Proof. vm_compute. reflexivity. Qed.

(** [CP.hull_number()] on the Petersen graph is [3], and the hull of the
    generating set returned is the whole graph. *)
Example petersen_hull_number :
  hull_number Exhaustive.solve 40 (instance_of petersen) true false
    = Ok (Number 3)
  ∧ ∃ Gstar,
      hull_number Exhaustive.solve 40 (instance_of petersen) false false
        = Ok (Vertices Gstar)
      ∧ hull 10 (instance_of petersen) Gstar = Ok (seq 0 10).
Proof.
  split; [vm_compute; reflexivity|].
  exists [4; 7; 8]. split; vm_compute; reflexivity.
Qed.

(** On the path 0 - 1 - 2 - 3 - 4 the hull of [{0, 4}] is everything and
    the hull number is 2. *)
Example path5_hull_and_number :
  hull 5 (instance_of path5) [0; 4] = Ok [0; 1; 2; 3; 4]
  ∧ hull_number Exhaustive.solve 5 (instance_of path5) true false = Ok (Number 2).
Proof. split; vm_compute; reflexivity. Qed.

Lemma cache_rows_are_shortest_path_sets_witness :
  (bitset_in (cached_row (instance_of path5) 0 4) 2 = true
     ↔ (distance path5 0 2 + distance path5 2 4 = distance path5 0 4)%Z)
  ∧ bitset_in (cached_row (instance_of path5) 0 4) 0 = true
  ∧ bitset_in (cached_row (instance_of path5) 0 4) 4 = true.
Proof.
  apply (cache_rows_are_shortest_path_sets path5 (instance_of path5) 0 4 2).
  - reflexivity.
  - intros a b Ha Hb.
    do 5 (destruct a as [|a];
          [do 5 (destruct b as [|b]; [reflexivity|]); vm_compute in Hb; lia|]).
    vm_compute in Ha. lia.
  - intros a Ha.
    do 5 (destruct a as [|a]; [reflexivity|]). vm_compute in Ha. lia.
  - lia.
  - vm_compute. lia.
  - vm_compute. lia.
Defined.

Lemma closure_is_least_convex_superset_witness :
  ∃ C, _bitset_convex_hull 5 (instance_of path5) [true; false; false; true; false]
       = Ok C
     ∧ length C = _n (instance_of path5)
     ∧ convex (instance_of path5) C
     ∧ subset [true; false; false; true; false] C
     ∧ (∀ T, convex (instance_of path5) T →
             subset [true; false; false; true; false] T → subset C T)
     ∧ pass (instance_of path5) C = C
     ∧ (∀ T, length T = _n (instance_of path5) →
             pass (instance_of path5) T = T →
             subset [true; false; false; true; false] T → subset C T)
     ∧ (∀ A, subset A (pass (instance_of path5) A))
     ∧ (∀ A B, length A = length B → subset A B →
               subset (pass (instance_of path5) A) (pass (instance_of path5) B)).
Proof.
  apply (closure_is_least_convex_superset (instance_of path5) 5
           [true; false; false; true; false]).
  - reflexivity.
  - vm_compute. lia.
Defined.

Lemma closure_loop_terminates_witness :
  ∃ r k, _bitset_convex_hull_run 5 (instance_of path5)
           [true; false; false; false; true] = Ok r
       ∧ cr_passes r = S k
       ∧ cr_passes r ≤ _n (instance_of path5)
       ∧ cr_hull r = Nat.iter (S k) (pass (instance_of path5))
                       [true; false; false; false; true]
       ∧ bitset_len (Nat.iter (S k) (pass (instance_of path5))
                       [true; false; false; false; true])
         = bitset_len (Nat.iter k (pass (instance_of path5))
                         [true; false; false; false; true])
       ∧ (∀ m, m < k →
            bitset_len (Nat.iter (S m) (pass (instance_of path5))
                          [true; false; false; false; true])
            ≠ bitset_len (Nat.iter m (pass (instance_of path5))
                            [true; false; false; false; true]))
       ∧ (∀ m, bitset_len (Nat.iter m (pass (instance_of path5))
                             [true; false; false; false; true])
               ≤ bitset_len (Nat.iter (S m) (pass (instance_of path5))
                               [true; false; false; false; true])
               ∧ bitset_len (Nat.iter (S m) (pass (instance_of path5))
                               [true; false; false; false; true])
                 ≤ _n (instance_of path5)).
Proof.
  apply (closure_loop_terminates (instance_of path5) 5
           [true; false; false; false; true]).
  - vm_compute. lia.
  - reflexivity.
  - vm_compute. lia.
Defined.

Lemma hull_of_empty_list_witness :
  0 < 1
  ∧ hull 1 (instance_of path5) [] = Ok []
  ∧ hull_run 1 (instance_of path5) []
    = Ok ([], ClosureRun (bitset_init (_n (instance_of path5))) 1 [[]])
  ∧ pass (instance_of path5) (bitset_init (_n (instance_of path5)))
    = bitset_init (_n (instance_of path5)).
Proof.
  split; [lia|]. apply (hull_of_empty_list (instance_of path5) 1). lia.
Defined.

Lemma hull_idempotent_witness :
  ∃ H, hull 5 (instance_of path5) [0; 3] = Ok H
     ∧ hull 5 (instance_of path5) H = Ok H.
Proof.
  apply (hull_idempotent path5 (instance_of path5) 5 [0; 3]).
  - reflexivity.
  - apply (NoDup_seq 0 5).
  - vm_compute. lia.
  - apply Forall_forall. apply (bool_decide_unpack _). vm_compute. exact I.
Defined.

Lemma init_rejects_digraph_witness :
  (∃ msg, __init__ circuit5 = Raise (NotImplementedError msg))
  ∧ (∀ self, __init__ circuit5 ≠ Ok self)
  ∧ (∀ msg, NotImplementedError msg ≠ KeyError
            ∧ NotImplementedError msg ≠ IndexError
            ∧ NotImplementedError msg ≠ MIPSolverException).
Proof. apply (init_rejects_digraph circuit5). reflexivity. Defined.

Lemma hull_number_small_witness :
  hull_number_run Exhaustive.solve 0 (instance_of path2) true false
    = Ok (Number (Z.of_nat (_n (instance_of path2))), None)
  ∧ hull_number_run Exhaustive.solve 0 (instance_of path2) false false
    = Ok (Vertices (_list_integers_to_vertices (instance_of path2)), None)
  ∧ hull_number Exhaustive.solve 0 (instance_of path2) true false
    = Ok (Number (Z.of_nat (_n (instance_of path2))))
  ∧ hull_number Exhaustive.solve 0 (instance_of path2) false false
    = Ok (Vertices (_list_integers_to_vertices (instance_of path2))).
Proof.
  apply (hull_number_small Exhaustive.solve (instance_of path2) 0 false).
  vm_compute. lia.
Defined.

Lemma initial_hull_is_vertex_0_witness :
  bitset_list (initial_hull (instance_of path3)) = [0]
  ∧ bitset_len (initial_hull (instance_of path3)) = 1
  ∧ initial_hull (instance_of path3)
    ≠ bitset_set_first_n (bitset_init (_n (instance_of path3))) 0
  ∧ ∀ (solve : solver) fuel value_only verbose,
      hull_number_run solve fuel (instance_of path3) value_only verbose
      = (g ← generation_loop solve fuel fuel (instance_of path3) verbose
               (initial_backend (instance_of path3))
               (initial_hull (instance_of path3)) 0 [];
         if value_only
         then Ok (Number (to_int (get_objective_value (g_solution g))), Some g)
         else
           l ← _integers_to_vertices (instance_of path3)
                 (selected (_n (instance_of path3)) (g_solution g));
           Ok (Vertices l, Some g)).
Proof. apply (initial_hull_is_vertex_0 (instance_of path3)). vm_compute. lia. Defined.

Lemma greedy_increase_keeps_closure_proper_witness :
  ∃ R, _greedy_increase 5 (instance_of path5) [true; false; false; false; false]
       = Ok R
     ∧ (∀ i, i < _n (instance_of path5) →
          ∃ Si C,
            greedy_prefix 5 (instance_of path5) [true; false; false; false; false] i
              = Ok Si
            ∧ (∀ k, i ≤ k →
                 bitset_in Si k = bitset_in [true; false; false; false; false] k)
            ∧ _bitset_convex_hull 5 (instance_of path5) (bitset_add Si i) = Ok C
            ∧ greedy_prefix 5 (instance_of path5)
                [true; false; false; false; false] (S i)
              = Ok (if negb (bitset_in Si i)
                       && (bitset_len C <? _n (instance_of path5))
                    then bitset_add Si i else Si)
            ∧ (bitset_in R i = true
               ↔ bitset_in [true; false; false; false; false] i = true
                 ∨ bitset_len C < _n (instance_of path5)))
     ∧ subset [true; false; false; false; false] R
     ∧ proper_closure 5 (instance_of path5) R
     ∧ (∀ fuel', Nat.max 1 (_n (instance_of path5)) ≤ fuel' →
                 _greedy_increase fuel' (instance_of path5)
                   [true; false; false; false; false] = Ok R).
Proof.
  apply (greedy_increase_keeps_closure_proper (instance_of path5) 5
           [true; false; false; false; false]).
  - reflexivity.
  - vm_compute. lia.
  - exists [true; false; false; false; false].
    split; [vm_compute; reflexivity | vm_compute; lia].
Defined.

Lemma hull_number_generating_set_witness :
  ∃ Gstar k,
    hull_number Exhaustive.solve 33 (instance_of path5) false false
      = Ok (Vertices Gstar)
    ∧ hull_number Exhaustive.solve 33 (instance_of path5) true false
      = Ok (Number k)
    ∧ hull 33 (instance_of path5) Gstar = Ok (list_G path5)
    ∧ Z.of_nat (length Gstar) = k.
Proof.
  apply (hull_number_generating_set path5 (instance_of path5)
           Exhaustive.solve 33 false false).
  - reflexivity.
  - apply (NoDup_seq 0 5).
  - apply exhaustive_exact.
  - vm_compute. lia.
Defined.

End Instances.

(** ** The tables: errors and round trips *)

Section TableTheorems.

Context {V : Type} `{Countable V}.
Implicit Types (self : ConvexityProperties V) (G : Graph V).

Lemma index_of_dict self k v :
  well_formed self →
  _dict_vertices_to_integers self !! v = Some k →
  _list_integers_to_vertices self !! k = Some v.
Proof.
  intros Hwf Hd. pose proof Hwf as (_ & Hnd & Hdict).
  destruct (decide (v ∈ _list_integers_to_vertices self)) as [Hin|Hout].
  - apply list_elem_of_lookup in Hin as [k' Hk'].
    rewrite (dict_of_index self k' v Hwf Hk') in Hd. by injection Hd as <-.
  - rewrite Hdict, dict_enumerate_notin in Hd by done. done.
Qed.

Lemma dict_unknown self v :
  well_formed self →
  v ∉ _list_integers_to_vertices self →
  _dict_vertices_to_integers self !! v = None.
Proof.
  intros (_ & _ & ->) Hv. by rewrite dict_enumerate_notin.
Qed.

Lemma vertices_to_integers_Forall2 self (l : list nat) (vs : list V) :
  well_formed self →
  Forall2 (λ k v, _list_integers_to_vertices self !! k = Some v) l vs →
  _vertices_to_integers self vs = Ok l.
Proof.
  intros Hwf. induction 1 as [|k v l vs Hkv _ IH]; simpl; [done|].
  by rewrite (dict_of_index self k v Hwf Hkv), IH.
Qed.

Lemma vertices_to_integers_inv self (vs : list V) (l : list nat) :
  well_formed self →
  _vertices_to_integers self vs = Ok l →
  Forall2 (λ k v, _list_integers_to_vertices self !! k = Some v) l vs.
Proof.
  intros Hwf. revert l. induction vs as [|v vs IH]; intros l; simpl.
  - intros [= <-]. constructor.
  - destruct (_dict_vertices_to_integers self !! v) as [k|] eqn:E; [|done].
    destruct (_vertices_to_integers self vs) as [l'| |]; simpl; [|done..].
    intros [= <-]. constructor; [by apply index_of_dict | by apply IH].
Qed.

Lemma integers_to_vertices_inv self (l : list nat) (vs : list V) :
  _integers_to_vertices self l = Ok vs →
  Forall2 (λ k v, _list_integers_to_vertices self !! k = Some v) l vs.
Proof.
  revert vs. induction l as [|k l IH]; intros vs; simpl.
  - intros [= <-]. constructor.
  - destruct (_list_integers_to_vertices self !! k) as [v|] eqn:E; [|done].
    destruct (_integers_to_vertices self l) as [vs'| |]; simpl; [|done..].
    intros [= <-]. constructor; [done | by apply IH].
Qed.

(** X1. The two tables are inverse to each other on an instance built
    from a graph with distinct vertices: integers below [n] go to vertices
    and back to the same integers, and vertices of the graph go to
    integers and back to the same vertices. *)
Theorem tables_round_trip G self :
  __init__ G = Ok self →
  NoDup (list_G G) →
  (∀ l : list nat, (∀ k, k ∈ l → k < order G) →
     ∃ vs, _integers_to_vertices self l = Ok vs
         ∧ _vertices_to_integers self vs = Ok l)
  ∧ (∀ vs : list V, (∀ v, v ∈ vs → v ∈ list_G G) →
       ∃ l, _vertices_to_integers self vs = Ok l
          ∧ _integers_to_vertices self l = Ok vs
          ∧ ∀ k, k ∈ l → k < order G).
Proof.
  intros Hinit Hnd.
  destruct (init_well_formed G self Hinit Hnd) as (Hwf & Hlist & Hn).
  pose proof Hwf as (Hnlen & _ & _). split.
  - intros l Hl. rewrite <- Hn in Hl.
    destruct (integers_to_vertices_ok self l Hnlen Hl) as (vs & Hvs & Hrel).
    exists vs. split; [done|]. by apply vertices_to_integers_Forall2.
  - intros vs Hvs. rewrite <- Hlist in Hvs.
    assert (∃ l, Forall2 (λ k v, _list_integers_to_vertices self !! k = Some v) l vs)
      as [l Hrel].
    { induction vs as [|v vs IH]; [exists []; constructor|].
      destruct IH as [l Hl]; [intros v' Hv'; apply Hvs; by right|].
      destruct (proj1 (list_elem_of_lookup _ v) (Hvs v ltac:(left))) as [k Hk].
      exists (k :: l). by constructor. }
    exists l. split; [by apply vertices_to_integers_Forall2|].
    split; [by apply integers_to_vertices_Forall2|].
    intros k [i Hi]%list_elem_of_lookup.
    destruct (Forall2_lookup_l _ _ _ _ _ Hrel Hi) as (v & _ & Hkv).
    apply lookup_lt_Some in Hkv. lia.
Qed.

(** X2. On a graph with at least one vertex, a vertex that is not a
    vertex of the graph makes [_vertices_to_integers] and [hull] raise
    [KeyError], whatever the other vertices and the fuel; and among
    integers that a C [int] holds (below [2 ^ 31]), one from [n] on makes
    [_integers_to_vertices] raise [IndexError]. *)
Theorem unknown_vertex_raises G self :
  __init__ G = Ok self →
  NoDup (list_G G) →
  0 < order G →
  (∀ fuel (vertices : list V) v,
     v ∈ vertices → v ∉ list_G G →
     hull fuel self vertices = Raise KeyError
     ∧ _vertices_to_integers self vertices = Raise KeyError)
  ∧ (∀ (integers : list nat) k,
       (∀ i, i ∈ integers → (Z.of_nat i < 2 ^ 31)%Z) →
       k ∈ integers → order G ≤ k →
       _integers_to_vertices self integers = Raise IndexError).
Proof.
  intros Hinit Hnd _.
  destruct (init_well_formed G self Hinit Hnd) as (Hwf & Hlist & Hn).
  pose proof Hwf as (Hnlen & _ & _). rewrite <- Hlist. split.
  - intros fuel vertices v Hin Hout. split.
    + unfold hull, hull_run.
      assert (∀ bs, add_vertices self bs vertices = Raise KeyError) as ->; [|done].
      induction vertices as [|w ws IH]; intros bs; [by apply not_elem_of_nil in Hin|].
      simpl. destruct (_dict_vertices_to_integers self !! w) as [i|] eqn:E; [|done].
      apply elem_of_cons in Hin as [->|Hin]; [|by apply IH].
      by rewrite (dict_unknown self w Hwf Hout) in E.
    + induction vertices as [|w ws IH]; [by apply not_elem_of_nil in Hin|].
      simpl. destruct (_dict_vertices_to_integers self !! w) as [i|] eqn:E; [|done].
      apply elem_of_cons in Hin as [->|Hin].
      * by rewrite (dict_unknown self w Hwf Hout) in E.
      * by rewrite IH.
  - intros integers k _ Hin Hk.
    induction integers as [|i l IH]; [by apply not_elem_of_nil in Hin|].
    simpl. destruct (_list_integers_to_vertices self !! i) as [v|] eqn:E; [|done].
    apply elem_of_cons in Hin as [->|Hin].
    + apply lookup_lt_Some in E. lia.
    + by rewrite IH.
Qed.

End TableTheorems.

(** ** [hull] on lists of vertices *)

Section HullTheorems.

Context {V : Type} `{Countable V}.
Implicit Types (self : ConvexityProperties V) (G : Graph V).

Lemma indices_exist self (vs : list V) :
  (∀ v, v ∈ vs → v ∈ _list_integers_to_vertices self) →
  ∃ ks, Forall2 (λ k v, _list_integers_to_vertices self !! k = Some v) ks vs.
Proof.
  induction vs as [|v vs IH]; intros Hvs; [exists []; constructor|].
  destruct IH as [l Hl]; [intros v' Hv'; apply Hvs; by right|].
  destruct (proj1 (list_elem_of_lookup _ v) (Hvs v ltac:(left))) as [k Hk].
  exists (k :: l). by constructor.
Qed.

Lemma indices_elem_of self (ks : list nat) (vs : list V) k :
  well_formed self →
  Forall2 (λ k v, _list_integers_to_vertices self !! k = Some v) ks vs →
  k ∈ ks ↔ ∃ v, v ∈ vs ∧ _list_integers_to_vertices self !! k = Some v.
Proof.
  intros (_ & Hnd & _) Hrel. split.
  - intros [i Hi]%list_elem_of_lookup.
    destruct (Forall2_lookup_l _ _ _ _ _ Hrel Hi) as (v & Hv & Hkv).
    exists v. split; [|done]. apply list_elem_of_lookup. by exists i.
  - intros (v & [i Hi]%list_elem_of_lookup & Hkv).
    destruct (Forall2_lookup_r _ _ _ _ _ Hrel Hi) as (k' & Hk' & Hk'v).
    rewrite (NoDup_lookup _ k k' v Hnd Hkv Hk'v).
    apply list_elem_of_lookup. by exists i.
Qed.

(** What a call of [hull] goes through: the indices [ks] of the vertices,
    the closure [C] of their bitset, and the vertices of [C]. *)
Lemma hull_stages self fuel (vs : list V) :
  well_formed self →
  Nat.max 1 (_n self) ≤ fuel →
  (∀ v, v ∈ vs → v ∈ _list_integers_to_vertices self) →
  ∃ ks C H',
    Forall2 (λ k v, _list_integers_to_vertices self !! k = Some v) ks vs
    ∧ _bitset_convex_hull fuel self (foldl bitset_add (bitset_init (_n self)) ks)
      = Ok C
    ∧ length C = _n self
    ∧ hull fuel self vs = Ok H'
    ∧ Forall2 (λ k v, _list_integers_to_vertices self !! k = Some v)
              (bitset_list C) H'.
Proof.
  intros Hwf Hfuel Hvs. pose proof Hwf as (Hnlen & _ & _).
  destruct (indices_exist self vs Hvs) as [ks Hrel].
  set (X := foldl bitset_add (bitset_init (_n self)) ks).
  assert (length X = _n self) as HlenX
    by (unfold X; by rewrite foldl_add_length, length_init).
  destruct (bitset_convex_hull_run_ok self fuel X HlenX Hfuel)
    as (r & k & Hr & _ & _ & Hh & _).
  assert (length (cr_hull r) = _n self) as HlenC
    by by rewrite Hh, iter_pass_length.
  destruct (integers_to_vertices_ok self (bitset_list (cr_hull r)) Hnlen)
    as (H' & HH' & Hrel').
  { intros i Hi%bitset_list_lt. lia. }
  exists ks, (cr_hull r), H'. repeat split; try done.
  - unfold _bitset_convex_hull. fold X. by rewrite Hr.
  - unfold hull, hull_run. rewrite set_first_0.
    rewrite (add_vertices_indices self ks vs _ Hwf Hrel).
    cbn [mbind result_bind]. fold X. rewrite Hr. cbn [mbind result_bind].
    by rewrite HH'.
Qed.

Lemma vertices_of_bitset self (C : bitset_t) (H' : list V) v :
  Forall2 (λ k v, _list_integers_to_vertices self !! k = Some v)
          (bitset_list C) H' →
  v ∈ H' ↔ ∃ k, bitset_in C k = true
              ∧ _list_integers_to_vertices self !! k = Some v.
Proof.
  intros Hrel. split.
  - intros [i Hi]%list_elem_of_lookup.
    destruct (Forall2_lookup_r _ _ _ _ _ Hrel Hi) as (k & Hk & Hkv).
    exists k. split; [|done]. apply elem_of_bitset_list.
    apply list_elem_of_lookup. by exists i.
  - intros (k & [i Hi]%elem_of_bitset_list%list_elem_of_lookup & Hkv).
    destruct (Forall2_lookup_l _ _ _ _ _ Hrel Hi) as (v' & Hv' & Hkv').
    rewrite Hkv in Hkv'. injection Hkv' as <-.
    apply list_elem_of_lookup. by exists i.
Qed.

Lemma sublist_of_filtered {A} (l : list A) (P : nat → Prop)
    `{!∀ k, Decision (P k)} a len (vs : list A) :
  a + len = length l →
  Forall2 (λ k v, l !! k = Some v) (filter P (seq a len)) vs →
  sublist vs (drop a l).
Proof.
  revert a vs. induction len as [|len IH]; intros a vs Hlen Hrel.
  - simpl in Hrel. apply Forall2_nil_inv_l in Hrel as ->. apply sublist_nil_l.
  - destruct (lookup_lt_is_Some_2 l a ltac:(lia)) as [x Hx].
    rewrite (drop_S _ _ _ Hx). cbn [seq] in Hrel. rewrite filter_cons in Hrel.
    destruct (decide (P a)).
    + apply Forall2_cons_inv_l in Hrel as (v & vs' & Hv & Hrel & ->).
      rewrite Hx in Hv. injection Hv as <-.
      apply sublist_skip, IH; [lia | done].
    + apply sublist_cons, IH; [lia | done].
Qed.

(** X3. For every list of vertices of the graph, [hull] returns a list
    that contains each of them and is a sublist of [list(G)]: vertices of
    the graph, each once, in the order of the graph. *)
Theorem hull_extensive_sublist G self fuel (vertices : list V) :
  __init__ G = Ok self →
  NoDup (list_G G) →
  Nat.max 1 (order G) ≤ fuel →
  (∀ v, v ∈ vertices → v ∈ list_G G) →
  ∃ H', hull fuel self vertices = Ok H'
      ∧ (∀ v, v ∈ vertices → v ∈ H')
      ∧ sublist H' (list_G G).
Proof.
  intros Hinit Hnd Hfuel Hvs.
  destruct (init_well_formed G self Hinit Hnd) as (Hwf & Hlist & Hn).
  rewrite <- Hn in Hfuel. rewrite <- Hlist in *.
  pose proof Hwf as (Hnlen & _ & _).
  destruct (hull_stages self fuel vertices Hwf Hfuel Hvs)
    as (ks & C & H' & Hrel & HC & HlenC & Hhull & Hrel').
  exists H'. split; [done|]. split.
  - intros v Hv. apply (vertices_of_bitset self C H' v Hrel').
    pose proof (Hvs v Hv) as [k Hk]%list_elem_of_lookup.
    exists k. split; [|done].
    destruct (bitset_convex_hull_ok self fuel
                (foldl bitset_add (bitset_init (_n self)) ks))
      as (C' & HC' & _ & Hsub & _); [by rewrite foldl_add_length, length_init | done |].
    rewrite HC in HC'. injection HC' as <-. apply Hsub.
    rewrite bitset_in_foldl_add, length_init. apply orb_true_iff. right.
    apply bool_decide_eq_true. split.
    + apply (indices_elem_of self ks vertices k Hwf Hrel). by exists v.
    + apply lookup_lt_Some in Hk. lia.
  - unfold bitset_list in Hrel'. rewrite HlenC, Hnlen in Hrel'.
    by apply (sublist_of_filtered _ _ 0 _ H') in Hrel'.
Qed.

(** X4. [hull] depends only on the set of the vertices given: two lists
    of vertices of the graph with the same elements, in any order and
    with any repetitions, have the same hull. *)
Theorem hull_of_same_elements G self fuel (vertices1 vertices2 : list V) :
  __init__ G = Ok self →
  NoDup (list_G G) →
  (∀ v, v ∈ vertices1 → v ∈ list_G G) →
  (∀ v, v ∈ vertices1 ↔ v ∈ vertices2) →
  hull fuel self vertices1 = hull fuel self vertices2.
Proof.
  intros Hinit Hnd Hvs1 Hsame.
  destruct (init_well_formed G self Hinit Hnd) as (Hwf & Hlist & Hn).
  rewrite <- Hlist in *.
  assert (∀ v, v ∈ vertices2 → v ∈ _list_integers_to_vertices self) as Hvs2.
  { intros v Hv. by apply Hvs1, Hsame. }
  destruct (indices_exist self vertices1 Hvs1) as [ks1 Hrel1].
  destruct (indices_exist self vertices2 Hvs2) as [ks2 Hrel2].
  unfold hull, hull_run. rewrite set_first_0.
  rewrite (add_vertices_indices self ks1 vertices1 _ Hwf Hrel1).
  rewrite (add_vertices_indices self ks2 vertices2 _ Hwf Hrel2).
  replace (foldl bitset_add (bitset_init (_n self)) ks2)
    with (foldl bitset_add (bitset_init (_n self)) ks1); [done|].
  apply bitset_ext; [by rewrite !foldl_add_length|].
  intros k. rewrite !bitset_in_foldl_add. f_equal.
  apply bool_decide_ext.
  rewrite (indices_elem_of self ks1 vertices1 k Hwf Hrel1).
  rewrite (indices_elem_of self ks2 vertices2 k Hwf Hrel2).
  split; intros [(v & Hv & Hk) ?]; (split; [|done]); exists v;
    (split; [by apply Hsame | done]).
Qed.

Lemma NoDup_bitset_list (C : bitset_t) : NoDup (bitset_list C).
Proof. unfold bitset_list. apply NoDup_filter, NoDup_seq. Qed.

Lemma singleton_list {A} (l : list A) x :
  NoDup l → (∀ y, y ∈ l ↔ y = x) → l = [x].
Proof.
  intros Hnd Hl. destruct l as [|y l].
  - by destruct (not_elem_of_nil x); apply Hl.
  - assert (y = x) as -> by (apply Hl; left).
    apply NoDup_cons in Hnd as [Hx Hnd]. f_equal.
    destruct l as [|z l]; [done|].
    assert (z = x) as -> by (apply Hl; right; left).
    destruct Hx. left.
Qed.

Lemma bitset_list_singleton n k :
  k < n → bitset_list (bitset_add (bitset_init n) k) = [k].
Proof.
  intros Hk. apply singleton_list; [apply NoDup_bitset_list|].
  intros j. rewrite elem_of_bitset_list, bitset_in_add, bitset_in_init, length_init.
  rewrite orb_false_r, bool_decide_eq_true. split; [by intros [? _] | by intros ->].
Qed.

(** X5. The hull of a single vertex of the graph is that vertex: the
    closure loop makes one pass and reads no row of the cache. *)
Theorem hull_of_one_vertex G self fuel (v : V) :
  __init__ G = Ok self →
  NoDup (list_G G) →
  0 < fuel →
  v ∈ list_G G →
  hull fuel self [v] = Ok [v]
  ∧ ∃ X, hull_run fuel self [v] = Ok ([v], ClosureRun X 1 [[]]).
Proof.
  intros Hinit Hnd Hfuel Hv.
  destruct (init_well_formed G self Hinit Hnd) as (Hwf & Hlist & Hn).
  rewrite <- Hlist in Hv. pose proof Hwf as (Hnlen & _ & _).
  apply list_elem_of_lookup in Hv as [k Hk].
  assert (k < _n self) as Hkn by (apply lookup_lt_Some in Hk; lia).
  set (X := bitset_add (bitset_init (_n self)) k).
  assert (bitset_list X = [k]) as HlX by (by apply bitset_list_singleton).
  assert (bitset_len X ≤ 1) as Hlen1.
  { by rewrite <- length_bitset_list, HlX. }
  assert (hull_run fuel self [v] = Ok ([v], ClosureRun X 1 [[]])) as Hrun.
  { unfold hull_run. rewrite set_first_0. cbn [add_vertices].
    rewrite (dict_of_index self k v Hwf Hk). cbn [mbind result_bind]. fold X.
    rewrite (bitset_convex_hull_fixed self fuel X Hfuel (pass_small self X Hlen1)).
    cbn [mbind result_bind cr_hull].
    rewrite HlX. cbn [_integers_to_vertices]. rewrite Hk. cbn [mbind result_bind].
    do 3 f_equal.
    (* no row is read: no two vertices are in the set *)
    rewrite one_pass_pairs.
    assert (∀ ps st, (∀ ij, ij ∈ ps → ij.1 < ij.2) → sc_hull st = X →
              sc_reads (foldl (scan_pair (_cache_hull_pairs self)) st ps)
              = sc_reads st) as Hgen.
    { induction ps as [|[i j] ps IH]; intros st Hps Hst; simpl; [done|].
      assert (scan_pair (_cache_hull_pairs self) st (i, j)
              = Scan (sc_hull st) (sc_p st + 1) (sc_reads st)) as ->.
      { unfold scan_pair. simpl.
        destruct (bitset_in (sc_hull st) i) eqn:Hi; simpl; [|done].
        destruct (bitset_in (sc_hull st) j) eqn:Hj; simpl; [|done].
        rewrite Hst in Hi, Hj. specialize (Hps (i, j) ltac:(left)). simpl in Hps.
        pose proof (two_elements X i j ltac:(lia) Hi Hj). lia. }
      rewrite IH; [done | intros ij Hij; apply Hps; by right | done]. }
    rewrite Hgen; [done | | done].
    intros [i j] [m Hm]%list_elem_of_lookup. apply pairs_lookup in Hm. simpl. lia. }
  split; [|by exists X]. unfold hull. by rewrite Hrun.
Qed.

(** X6. [hull] is monotone: when every vertex of a first list is in a
    second list of vertices of the graph, every vertex of the hull of the
    first is in the hull of the second. *)
Theorem hull_monotone G self fuel (vertices1 vertices2 : list V) :
  __init__ G = Ok self →
  NoDup (list_G G) →
  Nat.max 1 (order G) ≤ fuel →
  (∀ v, v ∈ vertices2 → v ∈ list_G G) →
  (∀ v, v ∈ vertices1 → v ∈ vertices2) →
  ∃ H1 H2, hull fuel self vertices1 = Ok H1
         ∧ hull fuel self vertices2 = Ok H2
         ∧ ∀ v, v ∈ H1 → v ∈ H2.
Proof.
  intros Hinit Hnd Hfuel Hvs2 Hsub.
  destruct (init_well_formed G self Hinit Hnd) as (Hwf & Hlist & Hn).
  rewrite <- Hn in Hfuel. rewrite <- Hlist in *.
  assert (∀ v, v ∈ vertices1 → v ∈ _list_integers_to_vertices self) as Hvs1
    by (intros v Hv; by apply Hvs2, Hsub).
  destruct (hull_stages self fuel vertices1 Hwf Hfuel Hvs1)
    as (ks1 & C1 & H1 & Hrel1 & HC1 & HlenC1 & Hhull1 & Hrel1').
  destruct (hull_stages self fuel vertices2 Hwf Hfuel Hvs2)
    as (ks2 & C2 & H2 & Hrel2 & HC2 & HlenC2 & Hhull2 & Hrel2').
  exists H1, H2. split; [done|]. split; [done|].
  intros v (k & Hk & Hkv)%(vertices_of_bitset self C1 H1 v Hrel1').
  apply (vertices_of_bitset self C2 H2 v Hrel2'). exists k. split; [|done].
  set (X1 := foldl bitset_add (bitset_init (_n self)) ks1) in *.
  set (X2 := foldl bitset_add (bitset_init (_n self)) ks2) in *.
  destruct (bitset_convex_hull_ok self fuel X1) as (C1' & HC1' & _ & _ & _ & Hleast);
    [by unfold X1; rewrite foldl_add_length, length_init | done |].
  destruct (bitset_convex_hull_ok self fuel X2) as (C2' & HC2' & _ & Hsub2 & Hfix2 & _);
    [by unfold X2; rewrite foldl_add_length, length_init | done |].
  rewrite HC1 in HC1'. injection HC1' as <-.
  rewrite HC2 in HC2'. injection HC2' as <-.
  apply (Hleast C2); [by apply pass_fixed_convex | | done].
  eapply subset_trans; [|apply Hsub2].
  intros j. unfold X1, X2. rewrite !bitset_in_foldl_add, !bitset_in_init. simpl.
  rewrite !bool_decide_eq_true. intros [Hj ?]. split; [|done].
  apply (indices_elem_of self ks1 vertices1 j Hwf Hrel1) in Hj as (w & Hw & Hjw).
  apply (indices_elem_of self ks2 vertices2 j Hwf Hrel2). exists w.
  split; [by apply Hsub | done].
Qed.

End HullTheorems.

(** ** The cache: its shape, and how the closure reads it *)

Section CacheShape.

Context {V : Type} `{Countable V}.
Implicit Types (self : ConvexityProperties V) (G : Graph V).

Lemma fill_k_shape c_distances n i j rows p k N :
  length rows = N ∧ Forall (λ r, length r = n) rows →
  length (fill_k c_distances n i j rows p k) = N
  ∧ Forall (λ r, length r = n) (fill_k c_distances n i j rows p k).
Proof.
  intros [Hlen Hrows]. unfold fill_k. destruct (_ =? _)%Z; [|done]. split.
  - by rewrite length_alter.
  - apply Forall_alter; [done|]. intros r _ Hr. by rewrite length_add.
Qed.

Lemma foldl_invariant {A B} (P : A → Prop) (f : A → B → A) (l : list B) a :
  (∀ a b, P a → P (f a b)) → P a → P (foldl f a l).
Proof.
  intros Hf. revert a. induction l as [|b l IH]; intros a Ha; simpl; auto.
Qed.

Lemma fill_cache_shape c_distances n :
  length (fill_cache c_distances n) = n * (n - 1) / 2
  ∧ Forall (λ r, length r = n) (fill_cache c_distances n).
Proof.
  unfold fill_cache.
  apply (foldl_invariant
           (λ st : list bitset_t * nat,
              length st.1 = n * (n - 1) / 2 ∧ Forall (λ r, length r = n) st.1)).
  - intros st i Hst. unfold fill_i.
    apply (foldl_invariant
             (λ st : list bitset_t * nat,
                length st.1 = n * (n - 1) / 2 ∧ Forall (λ r, length r = n) st.1));
      [|done].
    intros [rows p] j Hrows. unfold fill_j. cbn [fst].
    apply (foldl_invariant
             (λ rows : list bitset_t,
                length rows = n * (n - 1) / 2 ∧ Forall (λ r, length r = n) rows));
      [|done].
    intros rows' k Hrows'. by apply fill_k_shape.
  - cbn [fst]. unfold binary_matrix_init. split.
    + apply length_replicate.
    + apply Forall_replicate, length_init.
Qed.

(** X7. The constructor leaves a cache of [n (n - 1) / 2] rows of [n]
    bits each, a vertex list of length [n], and a dictionary that sends a
    vertex to an integer exactly when the list has the vertex at that
    index. *)
Theorem init_shape G self :
  __init__ G = Ok self →
  NoDup (list_G G) →
  _n self = order G
  ∧ _list_integers_to_vertices self = list_G G
  ∧ length (_cache_hull_pairs self) = order G * (order G - 1) / 2
  ∧ (∀ r, r ∈ _cache_hull_pairs self → length r = order G)
  ∧ (∀ v k, _dict_vertices_to_integers self !! v = Some k
            ↔ list_G G !! k = Some v).
Proof.
  intros Hinit Hnd.
  destruct (init_well_formed G self Hinit Hnd) as (Hwf & Hlist & Hn).
  split; [done|]. split; [done|].
  assert (_cache_hull_pairs self = fill_cache (c_distances_all_pairs G) (order G))
    as ->.
  { unfold __init__ in Hinit. destruct (isinstance_DiGraph G); [done|].
    by injection Hinit as <-. }
  destruct (fill_cache_shape (c_distances_all_pairs G) (order G)) as [Hlen Hrows].
  split; [done|]. split.
  - intros r Hr. by apply (proj1 (Forall_forall _ _) Hrows).
  - intros v k. rewrite <- Hlist. split.
    + by apply index_of_dict.
    + by apply dict_of_index.
Qed.

(** The rows read by a run of pair steps: each is the row under the
    pointer at a pair whose two vertices are in the set at the end. *)
Lemma scan_pairs_reads rows ps st p :
  p ∈ sc_reads (foldl (scan_pair rows) st ps) →
  p ∈ sc_reads st
  ∨ ∃ m i j, ps !! m = Some (i, j) ∧ p = sc_p st + m
           ∧ bitset_in (sc_hull (foldl (scan_pair rows) st ps)) i = true
           ∧ bitset_in (sc_hull (foldl (scan_pair rows) st ps)) j = true.
Proof.
  revert st. induction ps as [|[i j] ps IH]; intros st Hp; simpl in *; [by left|].
  destruct (IH _ Hp) as [Hp1|(m & i' & j' & Hm & -> & Hi' & Hj')].
  - unfold scan_pair in Hp1. simpl in Hp1.
    destruct (bitset_in (sc_hull st) i) eqn:Hi; simpl in Hp1; [|by left].
    destruct (bitset_in (sc_hull st) j) eqn:Hj; simpl in Hp1; [|by left].
    apply elem_of_app in Hp1 as [?| ->%list_elem_of_singleton]; [by left|].
    right. exists 0, i, j. repeat split; [lia | |].
    + apply scan_pairs_superset, scan_pair_superset, Hi.
    + apply scan_pairs_superset, scan_pair_superset, Hj.
  - right. exists (S m), i', j'. rewrite scan_pair_p. repeat split; [done | lia | done..].
Qed.

Lemma one_pass_reads self hull p :
  p ∈ sc_reads (one_pass self hull) →
  ∃ i j, i < j < _n self ∧ p = pair_index (_n self) i j
       ∧ bitset_in (pass self hull) i = true
       ∧ bitset_in (pass self hull) j = true.
Proof.
  unfold pass. rewrite one_pass_pairs.
  intros [Hp|(m & i & j & Hm & -> & Hi & Hj)]%scan_pairs_reads.
  - by apply not_elem_of_nil in Hp.
  - apply pairs_lookup in Hm as [Hij ->]. by exists i, j.
Qed.

Lemma closure_loop_passes self fuel hull count passes reads r :
  closure_loop fuel self hull count passes reads = Ok r →
  ∃ k, cr_hull r = Nat.iter (S k) (pass self) hull
     ∧ cr_passes r = passes + S k
     ∧ cr_reads r
       = reads ++ map (λ t, sc_reads (one_pass self (Nat.iter t (pass self) hull)))
                      (seq 0 (S k)).
Proof.
  revert hull count passes reads.
  induction fuel as [|fuel IH]; intros hull count passes reads; [done|].
  simpl. fold (pass self hull). destruct (_ =? _).
  - intros [= <-]. exists 0. simpl. split; [done|]. split; [lia | done].
  - intros (k & Hh & Hp & Hr)%IH. exists (S k). split; [|split].
    + by rewrite Nat.iter_succ_r.
    + lia.
    + rewrite Hr, <- app_assoc. f_equal.
      change (seq 0 (S (S k))) with (0 :: seq 1 (S k)).
      rewrite <- (seq_shift (S k) 0), map_map. cbn [app]. f_equal.
      apply map_ext. intros t. by rewrite Nat.iter_succ_r.
Qed.

Lemma pair_index_lt n i j : i < j < n → pair_index n i j < n * (n - 1) / 2.
Proof.
  intros Hij. rewrite <- length_pairs.
  apply (lookup_lt_Some _ _ (i, j)). by apply pairs_lookup.
Qed.

Lemma iter_pass_chain self hull t k :
  t ≤ k → subset (Nat.iter t (pass self) hull) (Nat.iter k (pass self) hull).
Proof.
  induction 1 as [|k _ IH]; [apply subset_refl|].
  eapply subset_trans; [apply IH|]. simpl. apply pass_superset.
Qed.

(** X8. The closure loop never reads past the cache: every row it reads,
    in any pass, is the row of a pair [i < j < n] of vertices of the set
    it returns, and its rank is below the [n (n - 1) / 2] rows that the
    constructor allocates. *)
Theorem closure_reads_rows_of_members self fuel X :
  length X = _n self →
  Nat.max 1 (_n self) ≤ fuel →
  ∃ r, _bitset_convex_hull_run fuel self X = Ok r
     ∧ length (cr_reads r) = cr_passes r
     ∧ ∀ reads p, reads ∈ cr_reads r → p ∈ reads →
         p < _n self * (_n self - 1) / 2
         ∧ ∃ i j, i < j < _n self ∧ p = pair_index (_n self) i j
                ∧ bitset_in (cr_hull r) i = true
                ∧ bitset_in (cr_hull r) j = true.
Proof.
  intros Hlen Hfuel.
  destruct (bitset_convex_hull_run_ok self fuel X Hlen Hfuel) as (r & _ & Hr & _).
  exists r. split; [done|].
  unfold _bitset_convex_hull_run in Hr.
  destruct (closure_loop_passes _ _ _ _ _ _ _ Hr) as (k & Hh & Hp & Hreads).
  cbn [app] in Hreads. split.
  - by rewrite Hreads, length_map, length_seq, Hp.
  - intros reads p Hin Hpin. rewrite Hreads in Hin.
    apply list_elem_of_fmap in Hin as (t & -> & Ht%elem_of_seq).
    apply one_pass_reads in Hpin as (i & j & Hij & -> & Hi & Hj).
    split; [by apply pair_index_lt|].
    exists i, j. rewrite Hh. repeat split; try done; try lia.
    + apply (iter_pass_chain self X (S t) (S k)); [lia | done].
    + apply (iter_pass_chain self X (S t) (S k)); [lia | done].
Qed.

End CacheShape.

(** ** Convex sets and the closure *)

Section ConvexTheorems.

Context {V : Type} `{Countable V}.
Implicit Types (self : ConvexityProperties V) (G : Graph V).

(** X9. The closure leaves a set as it is exactly when the set is convex
    for the cache, and then it makes a single pass. *)
Theorem closure_fixes_exactly_convex self fuel X :
  length X = _n self →
  Nat.max 1 (_n self) ≤ fuel →
  (convex self X ↔ _bitset_convex_hull fuel self X = Ok X)
  ∧ (convex self X →
     ∃ reads, _bitset_convex_hull_run fuel self X = Ok (ClosureRun X 1 [reads])).
Proof.
  intros Hlen Hfuel. split; [split|].
  - intros HX. apply closure_of_fixed; [lia | by apply convex_pass_fixed].
  - intros HX.
    destruct (bitset_convex_hull_ok self fuel X Hlen Hfuel)
      as (C & HC & _ & _ & Hfix & _).
    rewrite HX in HC. injection HC as <-. by apply pass_fixed_convex.
  - intros HX. eexists.
    apply bitset_convex_hull_fixed; [lia | by apply convex_pass_fixed].
Qed.

Lemma convex_iff_geodesically_closed G self X :
  __init__ G = Ok self →
  symmetric_distances G →
  convex self X ↔ geodesically_closed G X.
Proof.
  intros Hinit Hsym.
  unfold __init__ in Hinit. destruct (isinstance_DiGraph G); [done|].
  injection Hinit as <-. unfold convex, geodesically_closed, cached_row.
  cbn [_cache_hull_pairs _n]. split.
  - intros HX i j k Hi Hj Hk Hne HXi HXj Hd.
    destruct (Nat.lt_trichotomy i j) as [Hlt|[->|Hgt]]; [|done|].
    + apply (HX i j k); try done.
      rewrite bitset_in_fill_cache_row by lia.
      apply bool_decide_eq_true. split; [done|].
      unfold on_shortest_path. apply Z.eqb_eq.
      fold (distance G i k) (distance G j k) (distance G i j).
      by rewrite (Hsym j k).
    + apply (HX j i k); try done.
      rewrite bitset_in_fill_cache_row by lia.
      apply bool_decide_eq_true. split; [done|].
      unfold on_shortest_path. apply Z.eqb_eq.
      fold (distance G i k) (distance G j k) (distance G j i).
      rewrite (Hsym j i), <- Hd, (Hsym k j) by done. lia.
  - intros HX i j k Hij Hj Hk HXi HXj Hrow.
    rewrite bitset_in_fill_cache_row in Hrow by lia.
    apply bool_decide_eq_true in Hrow as [_ Hd].
    unfold on_shortest_path in Hd. apply Z.eqb_eq in Hd.
    fold (distance G i k) (distance G j k) (distance G i j) in Hd.
    apply (HX i j k); try done; [lia.. |].
    by rewrite (Hsym k j).
Qed.

(** X10. On an undirected graph with a symmetric distance matrix, the
    closure of a set is the least set that contains it and is closed under
    betweenness for the distances: with two distinct vertices [i], [j] it
    has every [k] with [d(i,k) + d(k,j) = d(i,j)]. *)
Theorem closure_is_least_geodesically_closed G self fuel X :
  __init__ G = Ok self →
  symmetric_distances G →
  length X = order G →
  Nat.max 1 (order G) ≤ fuel →
  ∃ C, _bitset_convex_hull fuel self X = Ok C
     ∧ subset X C
     ∧ geodesically_closed G C
     ∧ ∀ T, subset X T → geodesically_closed G T → subset C T.
Proof.
  intros Hinit Hsym Hlen Hfuel.
  assert (_n self = order G) as Hn.
  { unfold __init__ in Hinit. destruct (isinstance_DiGraph G); [done|].
    by injection Hinit as <-. }
  rewrite <- Hn in Hlen, Hfuel.
  destruct (bitset_convex_hull_ok self fuel X Hlen Hfuel)
    as (C & HC & HlenC & Hsub & Hfix & Hleast).
  exists C. repeat split; try done.
  - apply (convex_iff_geodesically_closed G self C Hinit Hsym).
    by apply pass_fixed_convex.
  - intros T HXT HT. apply Hleast; [|done].
    by apply (convex_iff_geodesically_closed G self T Hinit Hsym).
Qed.

End ConvexTheorems.

(** ** The greedy expansion: what it reaches *)

Section GreedyReach.

Context {V : Type} `{Countable V}.
Implicit Types (self : ConvexityProperties V).

(** The closure is monotone. *)
Lemma closure_mono self fuel X Y CX CY :
  length X = _n self → length Y = _n self → Nat.max 1 (_n self) ≤ fuel →
  subset X Y →
  _bitset_convex_hull fuel self X = Ok CX →
  _bitset_convex_hull fuel self Y = Ok CY →
  subset CX CY.
Proof.
  intros HlenX HlenY Hfuel Hsub HCX HCY.
  destruct (bitset_convex_hull_ok self fuel X HlenX Hfuel)
    as (CX' & HCX' & _ & _ & _ & Hleast).
  destruct (bitset_convex_hull_ok self fuel Y HlenY Hfuel)
    as (CY' & HCY' & HlenCY & HsubY & HfixY & _).
  rewrite HCX in HCX'. injection HCX' as <-.
  rewrite HCY in HCY'. injection HCY' as <-.
  apply Hleast; [by apply pass_fixed_convex | by eapply subset_trans].
Qed.

Lemma superset_of_full n X : length X = n → subset (full n) X → X = full n.
Proof.
  intros Hlen Hsub. rewrite <- Hlen. apply len_full_eq.
  apply Nat.le_antisymm; [apply bitset_len_le_length|].
  rewrite <- (bitset_len_full (length X)) at 1.
  apply bitset_len_mono; [|by rewrite Hlen].
  unfold full. by rewrite length_replicate.
Qed.

Lemma strict_subset_misses (a b : bitset_t) :
  length a = length b → a ≠ b →
  ∃ v, bitset_in a v ≠ bitset_in b v.
Proof.
  revert b. induction a as [|x a IH]; intros [|y b] Hlen Hne; simpl in *;
    try done.
  destruct (decide (x = y)) as [->|Hxy].
  - destruct (IH b ltac:(lia)) as [v Hv]; [congruence|]. by exists (S v).
  - by exists 0.
Qed.

(** The set held when candidate [i] comes up is inside the result. *)
Lemma greedy_prefix_subset self fuel bs i R :
  length bs = _n self → Nat.max 1 (_n self) ≤ fuel →
  proper_closure fuel self bs → i ≤ _n self →
  _greedy_increase fuel self bs = Ok R →
  ∃ Si, greedy_prefix fuel self bs i = Ok Si ∧ length Si = _n self
      ∧ subset bs Si ∧ subset Si R.
Proof.
  intros Hlen Hfuel Hprop Hi HR. unfold _greedy_increase in HR.
  unfold greedy_prefix.
  destruct (greedy_fold_ok self fuel (seq 0 i) bs Hlen Hfuel Hprop)
    as (Si & HSi & HlenSi & HsubSi & _ & HpropSi).
  exists Si. repeat split; try done.
  replace (_n self) with (i + (_n self - i)) in HR by lia.
  rewrite seq_app, foldl_app, HSi in HR.
  destruct (greedy_fold_ok self fuel (seq (0 + i) (_n self - i)) Si
              HlenSi Hfuel HpropSi) as (R' & HR' & _ & HsubR' & _).
  rewrite HR' in HR. by injection HR as <-.
Qed.

(** What the greedy expansion reaches. *)
Lemma greedy_reach self fuel bs :
  length bs = _n self →
  Nat.max 1 (_n self) ≤ fuel →
  proper_closure fuel self bs →
  ∃ R, _greedy_increase fuel self bs = Ok R
     ∧ length R = _n self
     ∧ subset bs R
     ∧ bitset_len R < _n self
     ∧ convex self R
     ∧ _bitset_convex_hull fuel self R = Ok R
     ∧ ∀ i, i < _n self → bitset_in R i = false →
         _bitset_convex_hull fuel self (bitset_add R i) = Ok (full (_n self)).
Proof.
  intros Hlen Hfuel Hprop.
  destruct (greedy_fold_ok self fuel (seq 0 (_n self)) bs Hlen Hfuel Hprop)
    as (R & HR & HlenR & HsubR & _ & (K & HK & HKn)).
  fold (_greedy_increase fuel self bs) in HR.
  assert (∀ i, i < _n self → bitset_in R i = false →
            _bitset_convex_hull fuel self (bitset_add R i) = Ok (full (_n self)))
    as Hmax.
  { intros i Hi HRi.
    destruct (greedy_prefix_subset self fuel bs i R Hlen Hfuel Hprop ltac:(lia) HR)
      as (Si & HSi & HlenSi & _ & HsubSi).
    destruct (greedy_step_ok self fuel Si i HlenSi Hfuel) as (C & HC & Hstep).
    destruct (greedy_bit_settled self fuel bs i R Hlen Hfuel Hprop Hi HR)
      as (Si' & HSi' & Hbit).
    unfold greedy_prefix in HSi, HSi'.
    rewrite seq_S, foldl_app, HSi in HSi'. cbn [foldl Nat.add] in HSi'.
    rewrite Hstep in HSi'. injection HSi' as <-.
    rewrite HRi in Hbit.
    assert (bitset_in Si i = false) as HSii.
    { destruct (bitset_in Si i) eqn:E; [|done]. apply HsubSi in E. congruence. }
    rewrite HSii in Hbit. cbn [negb andb] in Hbit.
    destruct (bitset_len C <? _n self) eqn:E.
    { rewrite bitset_in_add, bool_decide_eq_true_2 in Hbit by (split; [done | lia]).
      done. }
    apply Nat.ltb_ge in E.
    destruct (bitset_convex_hull_ok self fuel (bitset_add Si i))
      as (C' & HC' & HlenC & _); [by rewrite length_add | done |].
    rewrite HC in HC'. injection HC' as <-.
    assert (C = full (_n self)) as ->.
    { rewrite <- HlenC. apply len_full_eq.
      pose proof (bitset_len_le_length C). lia. }
    destruct (bitset_convex_hull_ok self fuel (bitset_add R i))
      as (C2 & HC2 & HlenC2 & _); [by rewrite length_add | done |].
    rewrite HC2. f_equal. apply superset_of_full; [done|].
    apply (closure_mono self fuel (bitset_add Si i) (bitset_add R i));
      try done; try by rewrite length_add.
    intros k. rewrite !bitset_in_add, HlenSi, HlenR.
    intros [Hk|Hk]%orb_true_iff; apply orb_true_iff; [by left | right; by apply HsubSi]. }
  (* the closure of [R] adds nothing to [R] *)
  destruct (bitset_convex_hull_ok self fuel R HlenR Hfuel)
    as (K' & HK' & HlenK & HsubK & HfixK & _).
  rewrite HK in HK'. injection HK' as <-.
  assert (K = R) as ->.
  { destruct (decide (K = R)) as [|Hne]; [done|]. exfalso.
    destruct (strict_subset_misses K R ltac:(lia) Hne) as [v Hv].
    assert (bitset_in K v = true ∧ bitset_in R v = false) as [HKv HRv].
    { destruct (bitset_in R v) eqn:E.
      - apply HsubK in E. congruence.
      - by destruct (bitset_in K v). }
    assert (v < _n self) as Hvn by (apply bitset_in_lt in HKv; lia).
    specialize (Hmax v Hvn HRv).
    assert (subset (full (_n self)) K) as Hfull.
    { apply (closure_mono self fuel (bitset_add R v) K (full (_n self)) K);
        try done; [by rewrite length_add | | by apply closure_of_fixed; [lia|]].
      intros k. rewrite bitset_in_add.
      intros [[-> _]%bool_decide_eq_true|Hk]%orb_true_iff; [done | by apply HsubK]. }
    rewrite (superset_of_full _ K HlenK Hfull), bitset_len_full in HKn. lia. }
  exists R. repeat split; try done. by apply pass_fixed_convex.
Qed.

(** The facts the loop of [hull_number] uses about the greedy set. *)
Lemma greedy_set_facts self fuel bs :
  length bs = _n self →
  Nat.max 1 (_n self) ≤ fuel →
  proper_closure fuel self bs →
  ∃ R, _greedy_increase fuel self bs = Ok R
     ∧ length R = _n self
     ∧ bitset_len R < _n self
     ∧ convex self R.
Proof.
  intros Hlen Hfuel Hprop.
  destruct (greedy_reach self fuel bs Hlen Hfuel Hprop)
    as (R & HR & HlenR & _ & HRn & HRc & _).
  by exists R.
Qed.

(** X11. On a set whose closure is proper, the set [R] that the greedy
    expansion returns is convex, is not the whole vertex set, and is
    maximal: adding any vertex outside [R] gives a set whose closure is
    the whole vertex set. *)
Theorem greedy_increase_maximal_convex self fuel bs :
  length bs = _n self →
  Nat.max 1 (_n self) ≤ fuel →
  proper_closure fuel self bs →
  ∃ R, _greedy_increase fuel self bs = Ok R
     ∧ length R = _n self
     ∧ subset bs R
     ∧ bitset_len R < _n self
     ∧ convex self R
     ∧ _bitset_convex_hull fuel self R = Ok R
     ∧ ∀ i, i < _n self → bitset_in R i = false →
         _bitset_convex_hull fuel self (bitset_add R i) = Ok (full (_n self)).
Proof. apply greedy_reach. Qed.

(** X12. When the closure of the set given is already the whole vertex
    set, against the precondition, the greedy expansion adds nothing. *)
Theorem greedy_increase_on_generating_set self fuel bs :
  length bs = _n self →
  Nat.max 1 (_n self) ≤ fuel →
  _bitset_convex_hull fuel self bs = Ok (full (_n self)) →
  _greedy_increase fuel self bs = Ok bs.
Proof.
  intros Hlen Hfuel Hgen. unfold _greedy_increase.
  assert (∀ l : list nat, foldl (greedy_step fuel self) (Ok bs) l = Ok bs) as Hl;
    [|apply Hl].
  induction l as [|i l IH]; [done|]. cbn [foldl].
  destruct (greedy_step_ok self fuel bs i Hlen Hfuel) as (C & HC & ->).
  replace (bitset_len C <? _n self) with false; [by rewrite andb_false_r|].
  symmetry. apply Nat.ltb_ge.
  destruct (bitset_convex_hull_ok self fuel (bitset_add bs i))
    as (C' & HC' & HlenC & _); [by rewrite length_add | done |].
  rewrite HC in HC'. injection HC' as <-.
  rewrite (superset_of_full _ C HlenC), bitset_len_full; [done|].
  apply (closure_mono self fuel bs (bitset_add bs i)); try done;
    [by rewrite length_add | apply add_superset].
Qed.

End GreedyReach.

(** ** [hull_number]: what the loop hands to the backend, and the minimum *)

Section HullNumberReach.

Context {V : Type} `{Countable V}.
Implicit Types (self : ConvexityProperties V) (G : Graph V).

Lemma bitset_len_add_le (a : bitset_t) i :
  bitset_len (bitset_add a i) ≤ S (bitset_len a).
Proof.
  revert i. induction a as [|x a IH]; intros [|i]; try (simpl; lia).
  change (bitset_len (bitset_add (x :: a) (S i)))
    with ((if x then 1 else 0) + bitset_len (bitset_add a i)).
  specialize (IH i). simpl. lia.
Qed.

Lemma bitset_len_foldl_add (a : bitset_t) (l : list nat) :
  bitset_len (foldl bitset_add a l) ≤ bitset_len a + length l.
Proof.
  revert a. induction l as [|i l IH]; intros a; simpl; [lia|].
  etransitivity; [apply IH|]. pose proof (bitset_len_add_le a i). lia.
Qed.

Lemma lhs_unit_count (x : bitset_t) (l : list nat) :
  lhs x (map (λ i, (i, 1%Z)) l)
  = Z.of_nat (length (filter (λ i, bitset_in x i = true) l)).
Proof.
  induction l as [|i l IH]; [done|].
  cbn [map lhs foldr fst snd]. fold (lhs x (map (λ i, (i, 1%Z)) l)). rewrite IH.
  destruct (bitset_in x i) eqn:E.
  - rewrite filter_cons_True by done. cbn [length]. lia.
  - rewrite filter_cons_False by congruence. lia.
Qed.

Lemma lhs_all_variables (x : bitset_t) :
  lhs x (map (λ i, (i, 1%Z)) (seq 0 (length x))) = Z.of_nat (bitset_len x).
Proof.
  rewrite lhs_unit_count. fold (bitset_list x). by rewrite length_bitset_list.
Qed.

(** What the loop has handed to the backend when it returns: after the
    constraints it started with, one constraint per call of [solve()],
    each built from a convex set that is not the whole vertex set. *)
Lemma generation_loop_constraints (solve : solver) self fuel cfuel verbose p cur
    solves printed g :
  Nat.max 1 (_n self) ≤ cfuel →
  length cur = _n self →
  proper_closure cfuel self cur →
  generation_loop solve fuel cfuel self verbose p cur solves printed = Ok g →
  ∃ Cs, constraints (g_backend g)
        = constraints p
          ++ map (λ C, (build_constraint (_n self) C, Some 1%Z, None)) Cs
      ∧ ncols (g_backend g) = ncols p
      ∧ is_maximization (g_backend g) = is_maximization p
      ∧ Forall (λ C, length C = _n self ∧ convex self C
                     ∧ bitset_len C < _n self) Cs
      ∧ solve (g_backend g) = Some (g_solution g)
      ∧ g_solves g = solves + length Cs
      ∧ 0 < length Cs.
Proof.
  intros Hcfuel. revert p cur solves printed.
  induction fuel as [|fuel IH]; intros p cur solves printed Hlen Hprop; [done|].
  cbn [generation_loop].
  destruct (greedy_set_facts self cfuel cur Hlen Hcfuel Hprop)
    as (C & HC & HlenC & HCn & HCconvex).
  rewrite HC. cbn [mbind result_bind].
  set (p' := add_linear_constraint p (build_constraint (_n self) C) (Some 1%Z) None).
  destruct (solve p') as [s|] eqn:Hs; [|done].
  rewrite set_first_n_0, HlenC. fold (rounding (_n self) s).
  destruct (bitset_convex_hull_ok self cfuel (rounding (_n self) s)
              (length_rounding _ _) Hcfuel)
    as (K & HK & HlenK & HsubK & HfixK & _).
  rewrite HK. cbn [mbind result_bind].
  destruct (bitset_len K =? _n self) eqn:E.
  - intros [= <-]. exists [C]. cbn [g_backend g_solution g_solves map length].
    repeat split; try done; try lia.
    by repeat constructor.
  - apply Nat.eqb_neq in E. pose proof (bitset_len_le_length K) as HKle.
    intros Hg. apply IH in Hg as (Cs & Hcs & Hcols & Hmax & HCs & Hsol & Hsolves & _);
      [|done|].
    + exists (C :: Cs). rewrite Hcs. unfold p'. cbn [constraints add_linear_constraint].
      rewrite <- app_assoc. cbn [map app length].
      repeat split; try done; try lia.
      constructor; [by repeat split | done].
    + exists K. split; [apply closure_of_fixed; [lia | done] | lia].
Qed.

End HullNumberReach.

Section HullNumberMinimum.

Context {V : Type} `{Countable V}.
Implicit Types (self : ConvexityProperties V) (G : Graph V).

Lemma least_min (xs : list bitset_t) y :
  Exhaustive.least xs = Some y → ∀ x, x ∈ xs → bitset_len y ≤ bitset_len x.
Proof.
  revert y. induction xs as [|x' xs IH]; intros y; [done|]. simpl.
  destruct (Exhaustive.least xs) as [z|] eqn:E.
  - destruct (bitset_len z <? bitset_len x') eqn:Hlt.
    + apply Nat.ltb_lt in Hlt. intros [= <-] x [->|Hx]%elem_of_cons; [lia|].
      by apply IH.
    + apply Nat.ltb_ge in Hlt. intros [= <-] x [->|Hx]%elem_of_cons; [lia|].
      specialize (IH z eq_refl x Hx). lia.
  - intros [= <-] x [->|Hx]%elem_of_cons; [lia|].
    destruct xs as [|z xs']; [by apply not_elem_of_nil in Hx|]. exfalso.
    simpl in E. destruct (Exhaustive.least xs'); [destruct (_ <? _)|]; done.
Qed.

Lemma exhaustive_optimal : optimal_backend Exhaustive.solve.
Proof.
  intros p s x _ Hs Hlen Hfeas. unfold Exhaustive.solve in Hs.
  destruct (Exhaustive.least _) as [y|] eqn:E; [|done].
  injection Hs as <-. simpl. rewrite <- Zle_Qle. apply Nat2Z.inj_le.
  apply (least_min _ y E). apply list_elem_of_filter. split; [done|].
  by apply assignments_length.
Qed.

Lemma initial_backend_facts self fuel :
  2 ≤ _n self → 0 < fuel →
  proper_closure fuel self (initial_hull self)
  ∧ length (initial_hull self) = _n self
  ∧ ncols (initial_backend self) = _n self
  ∧ is_maximization (initial_backend self) = false
  ∧ constraints (initial_backend self)
    = [(map (λ i, (i, 1%Z)) (seq 0 (_n self)), Some 2%Z, None)]
  ∧ terms_below (_n self) (initial_backend self).
Proof.
  intros Hn Hfuel.
  assert (∃ n, _n self = S n) as [n En] by (exists (_n self - 1); lia).
  pose proof (initial_hull_cons self n En) as Hcur.
  assert (bitset_len (initial_hull self) = 1) as Hone.
  { rewrite Hcur. cbn [bitset_len]. rewrite bitset_len_init. lia. }
  split; [|split; [|split; [|split; [|split]]]]; try done.
  - exists (initial_hull self). split.
    + apply closure_of_fixed; [lia|]. apply pass_small. lia.
    + lia.
  - rewrite Hcur. cbn [length]. rewrite length_init. lia.
  - intros c t. unfold initial_backend, add_linear_constraint.
    cbn [constraints get_solver set_sense add_variables app].
    intros ->%list_elem_of_singleton. cbn [fst].
    intros (i & -> & Hi%elem_of_seq)%list_elem_of_fmap. simpl. lia.
Qed.

End HullNumberMinimum.

Section HullNumberExtras.

Context {V : Type} `{Countable V}.
Implicit Types (self : ConvexityProperties V) (G : Graph V).

(** With three vertices or more and an exact backend the loop returns;
    what it leaves. *)
Lemma hull_number_loop_facts (solve : solver) self fuel verbose :
  exact_backend solve →
  3 ≤ _n self →
  2 ^ _n self < fuel →
  ∃ g Cs,
    generation_loop solve fuel fuel self verbose
      (initial_backend self) (initial_hull self) 0 [] = Ok g
    ∧ binary (_n self) (g_solution g)
    ∧ (get_objective_value (g_solution g)
       == inject_Z (Z.of_nat (length (chosen (_n self) (g_solution g)))))%Q
    ∧ _bitset_convex_hull fuel self (rounding (_n self) (g_solution g))
      = Ok (full (_n self))
    ∧ constraints (g_backend g)
      = (map (λ i, (i, 1%Z)) (seq 0 (_n self)), Some 2%Z, None)
        :: map (λ C, (build_constraint (_n self) C, Some 1%Z, None)) Cs
    ∧ ncols (g_backend g) = _n self
    ∧ is_maximization (g_backend g) = false
    ∧ Forall (λ C, length C = _n self ∧ convex self C
                   ∧ bitset_len C < _n self) Cs
    ∧ solve (g_backend g) = Some (g_solution g)
    ∧ g_solves g = length Cs
    ∧ 0 < length Cs.
Proof.
  intros Hsolve Hn Hfuel.
  pose proof (pow2_gt (_n self)) as Hpow.
  assert (Nat.max 1 (_n self) ≤ fuel) as Hcfuel by lia.
  destruct (initial_backend_facts self fuel ltac:(lia) ltac:(lia))
    as (Hprop & Hlen & Hcols & Hmin & Hcons & Hterms).
  destruct (generation_loop_ok solve Hsolve self fuel fuel verbose
              (initial_backend self) (initial_hull self) 0 [])
    as (g & Hg & Hbin & Hobj & Hclosure); try done.
  { unfold feasible. rewrite Hcons. cbn [forallb meets]. rewrite !andb_true_r.
    apply Z.leb_le. rewrite lhs_unit_full by (intros i Hi%elem_of_seq; lia).
    rewrite length_seq. lia. }
  { eapply Nat.le_lt_trans; [apply length_filter|]. by rewrite length_assignments. }
  destruct (generation_loop_constraints solve self fuel fuel verbose _ _ _ _ g
              Hcfuel Hlen Hprop Hg)
    as (Cs & Hcs & Hcols' & Hmax' & HCs & Hsol & Hsolves & Hpos).
  exists g, Cs. rewrite Hcs, Hcons, Hcols', Hmax'.
  repeat split; try done.
  etransitivity; [apply Hobj | by apply sum_values_chosen].
Qed.

(** A list of vertices whose hull is the whole graph: its bitset has the
    whole vertex set as closure. *)
Lemma hull_generating_inv self fuel (Y : list V) :
  well_formed self →
  Nat.max 1 (_n self) ≤ fuel →
  hull fuel self Y = Ok (_list_integers_to_vertices self) →
  ∃ X, length X = _n self
     ∧ bitset_len X ≤ length Y
     ∧ _bitset_convex_hull fuel self X = Ok (full (_n self)).
Proof.
  intros Hwf Hfuel Hhull. pose proof Hwf as (Hnlen & _ & _).
  assert (∀ v, v ∈ Y → v ∈ _list_integers_to_vertices self) as HY.
  { intros v Hv.
    destruct (decide (v ∈ _list_integers_to_vertices self)) as [|Hout]; [done|].
    exfalso. unfold hull, hull_run in Hhull.
    assert (∀ bs, add_vertices self bs Y = Raise KeyError) as Hraise.
    { clear Hhull. induction Y as [|w ws IH]; intros bs;
        [by apply not_elem_of_nil in Hv|].
      simpl. destruct (_dict_vertices_to_integers self !! w) as [i|] eqn:E; [|done].
      apply elem_of_cons in Hv as [->|Hv]; [|by apply IH].
      by rewrite (dict_unknown self w Hwf Hout) in E. }
    by rewrite Hraise in Hhull. }
  destruct (hull_stages self fuel Y Hwf Hfuel HY)
    as (ks & C & H' & Hrel & HC & HlenC & Hhull' & Hrel').
  rewrite Hhull in Hhull'. injection Hhull' as <-.
  exists (foldl bitset_add (bitset_init (_n self)) ks).
  split; [by rewrite foldl_add_length, length_init|]. split.
  - etransitivity; [apply bitset_len_foldl_add|].
    rewrite bitset_len_init. apply Forall2_length in Hrel. lia.
  - rewrite HC. f_equal. rewrite <- HlenC. apply len_full_eq.
    apply Forall2_length in Hrel'. rewrite length_bitset_list in Hrel'. lia.
Qed.

(** A set whose closure is the whole vertex set meets every constraint of
    the loop: it has two vertices, and a vertex outside each proper convex
    set. *)
Lemma generating_set_feasible self fuel X (Cs : list bitset_t) p :
  3 ≤ _n self → Nat.max 1 (_n self) ≤ fuel →
  length X = _n self →
  _bitset_convex_hull fuel self X = Ok (full (_n self)) →
  constraints p
  = (map (λ i, (i, 1%Z)) (seq 0 (_n self)), Some 2%Z, None)
    :: map (λ C, (build_constraint (_n self) C, Some 1%Z, None)) Cs →
  Forall (λ C, length C = _n self ∧ convex self C ∧ bitset_len C < _n self) Cs →
  feasible p X = true.
Proof.
  intros Hn Hfuel HlenX Hgen Hcons HCs. unfold feasible. rewrite Hcons.
  cbn [forallb]. apply andb_true_iff. split.
  - cbn [meets]. rewrite andb_true_r. apply Z.leb_le.
    rewrite <- HlenX, lhs_all_variables.
    destruct (decide (bitset_len X ≤ 1)) as [Hsmall|]; [|lia]. exfalso.
    rewrite (closure_of_fixed self fuel X ltac:(lia) (pass_small self X Hsmall))
      in Hgen.
    injection Hgen as ->. rewrite bitset_len_full in Hsmall. lia.
  - apply forallb_forall. intros c [C [<- HC]]%in_map_iff.
    apply list_elem_of_In in HC.
    destruct (proj1 (Forall_forall _ _) HCs C HC) as (HlenC & HCconv & HCn).
    apply meets_build_constraint, escapesb_spec.
    destruct (escapesb (_n self) X C) eqn:E; [done|]. exfalso.
    assert (subset X C) as Hsub.
    { intros i Hi. destruct (bitset_in C i) eqn:HCi; [done|].
      assert (escapesb (_n self) X C = true); [|congruence].
      apply escapesb_spec. exists i.
      repeat split; [apply bitset_in_lt in Hi; lia | done..]. }
    destruct (bitset_convex_hull_ok self fuel X HlenX Hfuel)
      as (K & HK & _ & _ & _ & Hleast).
    rewrite Hgen in HK. injection HK as <-.
    rewrite (superset_of_full _ C HlenC (Hleast C HCconv Hsub)), bitset_len_full in HCn.
    lia.
Qed.

(** X13. With an exact 0/1 backend that also returns a minimum, the
    integer [k] that [hull_number] returns is the hull number: some list
    of [k] vertices has the whole graph as hull, and every list of
    vertices whose hull is the whole graph has at least [k] elements. *)
Theorem hull_number_is_minimum G self (solve : solver) fuel verbose :
  __init__ G = Ok self →
  NoDup (list_G G) →
  exact_backend solve →
  optimal_backend solve →
  2 ^ order G < fuel →
  ∃ k, hull_number solve fuel self true verbose = Ok (Number k)
     ∧ (∃ Gstar, hull fuel self Gstar = Ok (list_G G)
               ∧ Z.of_nat (length Gstar) = k)
     ∧ ∀ Y : list V, hull fuel self Y = Ok (list_G G) →
         (k ≤ Z.of_nat (length Y))%Z.
Proof.
  intros Hinit Hnd Hsolve Hopt Hfuel.
  destruct (init_well_formed G self Hinit Hnd) as (Hwf & Hlist & Hn).
  rewrite <- Hn in Hfuel. rewrite <- Hlist.
  pose proof Hwf as (Hnlen & _ & _).
  pose proof (pow2_gt (_n self)) as Hpow.
  assert (Nat.max 1 (_n self) ≤ fuel) as Hcfuel by lia.
  unfold hull_number, hull_number_run.
  destruct (_n self <=? 2) eqn:Esmall.
  - apply Nat.leb_le in Esmall.
    exists (Z.of_nat (_n self)). split; [done|]. split.
    + exists (_list_integers_to_vertices self). split; [|by rewrite Hnlen].
      apply (hull_generates self fuel (seq 0 (_n self))); [done | |].
      * rewrite Hnlen. apply Forall2_seq_lookup.
      * rewrite foldl_add_all. apply closure_of_fixed; [lia | apply pass_full].
    + intros Y HY.
      destruct (hull_generating_inv self fuel Y Hwf Hcfuel HY)
        as (X & HlenX & HXY & Hgen).
      apply Nat2Z.inj_le.
      destruct (decide (bitset_len X ≤ 1)) as [Hsmall|]; [|lia].
      rewrite (closure_of_fixed self fuel X ltac:(lia) (pass_small self X Hsmall))
        in Hgen.
      injection Hgen as ->. rewrite bitset_len_full in HXY. lia.
  - apply Nat.leb_gt in Esmall.
    destruct (hull_number_loop_facts solve self fuel verbose Hsolve ltac:(lia) Hfuel)
      as (g & Cs & Hg & Hbin & Hobj & Hclosure & Hcons & Hcols & Hmin & HCs
          & Hsol & _).
    rewrite Hg. cbn [mbind result_bind fst].
    exists (Z.of_nat (length (chosen (_n self) (g_solution g)))).
    split; [by rewrite (to_int_inject _ _ Hobj)|]. split.
    + destruct (integers_to_vertices_ok self (chosen (_n self) (g_solution g)) Hnlen)
        as (vs & Hvs & Hrel).
      { intros k [_ Hk%elem_of_seq]%list_elem_of_filter. lia. }
      exists vs. split.
      * apply (hull_generates self fuel (chosen (_n self) (g_solution g)));
          [done | done |].
        rewrite <- read_solution_chosen. apply Hclosure.
      * f_equal. symmetry. by eapply Forall2_length.
    + intros Y HY.
      destruct (hull_generating_inv self fuel Y Hwf Hcfuel HY)
        as (X & HlenX & HXY & Hgen).
      assert (feasible (g_backend g) X = true) as Hfeas
        by (by apply (generating_set_feasible self fuel X Cs); try lia).
      pose proof (Hopt (g_backend g) (g_solution g) X Hmin Hsol
                    ltac:(by rewrite Hcols) Hfeas) as Hle.
      rewrite Hobj, <- Zle_Qle in Hle. lia.
Qed.

(** A backend that raises from the [j]-th call on: the loop raises
    [MIPSolverException] when the run with [base] makes that many calls,
    and ends as with [base] when it makes fewer. *)
Lemma generation_loop_failing (base : solver) self fuel cfuel verbose p cur
    solves printed g j :
  generation_loop base fuel cfuel self verbose p cur solves printed = Ok g →
  solves < g_solves g
  ∧ (j < length (constraints p) + (g_solves g - solves) →
     generation_loop (failing_after j base) fuel cfuel self verbose p cur
       solves printed = Raise MIPSolverException)
  ∧ (length (constraints p) + (g_solves g - solves) ≤ j →
     generation_loop (failing_after j base) fuel cfuel self verbose p cur
       solves printed = Ok g).
Proof.
  revert p cur solves printed.
  induction fuel as [|fuel IH]; intros p cur solves printed; [done|].
  cbn [generation_loop].
  destruct (_greedy_increase cfuel self cur) as [C| |]; [|done|done].
  cbn [mbind result_bind].
  set (printed' := if verbose then printed ++ [bitset_list C] else printed).
  set (p' := add_linear_constraint p (build_constraint (_n self) C) (Some 1%Z) None).
  assert (length (constraints p') = S (length (constraints p))) as Hsize
    by (subst p'; unfold add_linear_constraint; cbn; rewrite ?length_app; cbn; lia).
  unfold failing_after at 1 3. rewrite Hsize.
  destruct (base p') as [s|] eqn:Es; [|done].
  destruct (_bitset_convex_hull cfuel self
              (read_solution (_n self) s (bitset_set_first_n C 0)))
    as [K| |] eqn:EK; [|done|done].
  cbn [mbind result_bind].
  destruct (bitset_len K =? _n self) eqn:Efull.
  - intros [= <-]. cbn [g_solves]. split; [lia|]. split; intros Hj.
    + by rewrite (proj2 (Nat.leb_gt _ _)) by lia.
    + rewrite (proj2 (Nat.leb_le _ _)) by lia.
      rewrite EK. cbn [mbind result_bind]. by rewrite Efull.
  - intros Hg. destruct (IH p' K (S solves) printed' Hg) as (Hlt & Hraise & Hsame).
    rewrite Hsize in Hraise, Hsame.
    split; [lia|]. split; intros Hj.
    + destruct (S (length (constraints p)) <=? j) eqn:Ej; [|done].
      apply Nat.leb_le in Ej.
      rewrite EK. cbn [mbind result_bind]. rewrite Efull.
      apply Hraise. lia.
    + rewrite (proj2 (Nat.leb_le _ _)) by lia.
      rewrite EK. cbn [mbind result_bind]. rewrite Efull.
      apply Hsame. lia.
Qed.

(** X14. On a graph with three vertices or more, whichever call of
    [solve()] raises, [hull_number] raises [MIPSolverException]: with a
    backend that finds the minimum the loop makes [g_solves g ≥ 1] calls,
    and with one that answers in the same way until its [j]-th call and
    raises there, for any [j] up to that number (or at every call, when
    [j = 0]), the method raises; a backend that would raise only on a
    later call returns what the first returns. *)
Theorem hull_number_solver_failure (base : solver) self fuel value_only verbose :
  exact_backend base →
  3 ≤ _n self →
  2 ^ _n self < fuel →
  ∃ g, generation_loop base fuel fuel self verbose
         (initial_backend self) (initial_hull self) 0 [] = Ok g
     ∧ 0 < g_solves g
     ∧ (∀ j, j ≤ g_solves g →
          hull_number (failing_after j base) fuel self value_only verbose
          = Raise MIPSolverException)
     ∧ (∀ j, g_solves g < j →
          hull_number (failing_after j base) fuel self value_only verbose
          = hull_number base fuel self value_only verbose).
Proof.
  intros Hsolve Hn Hfuel.
  destruct (hull_number_loop_facts base self fuel verbose Hsolve Hn Hfuel)
    as (g & Cs & Hg & _).
  destruct (initial_backend_facts self fuel ltac:(lia) ltac:(lia))
    as (_ & _ & _ & _ & Hcons & _).
  exists g. split; [done|].
  assert (∀ j, 0 < g_solves g
             ∧ (j ≤ g_solves g →
                generation_loop (failing_after j base) fuel fuel self verbose
                  (initial_backend self) (initial_hull self) 0 []
                = Raise MIPSolverException)
             ∧ (g_solves g < j →
                generation_loop (failing_after j base) fuel fuel self verbose
                  (initial_backend self) (initial_hull self) 0 [] = Ok g))
    as Hloop.
  { intros j.
    destruct (generation_loop_failing base self fuel fuel verbose _ _ _ _ g j Hg)
      as (Hpos & Hraise & Hsame).
    rewrite Hcons in Hraise, Hsame. cbn [length] in Hraise, Hsame.
    split; [done|]. split; intros Hj; [apply Hraise | apply Hsame]; lia. }
  split; [apply (Hloop 0)|].
  unfold hull_number, hull_number_run.
  rewrite (proj2 (Nat.leb_gt _ _)) by lia.
  split; intros j Hj.
  - by rewrite (proj1 (proj2 (Hloop j)) Hj).
  - by rewrite (proj2 (proj2 (Hloop j)) Hj), Hg.
Qed.

(** The printing changes nothing but what is printed. *)
Lemma generation_loop_printing (solve : solver) self fuel cfuel v1 v2 p cur solves
    pr1 pr2 :
  match generation_loop solve fuel cfuel self v1 p cur solves pr1,
        generation_loop solve fuel cfuel self v2 p cur solves pr2 with
  | Ok g1, Ok g2 =>
      g_solution g1 = g_solution g2 ∧ g_backend g1 = g_backend g2
      ∧ g_solves g1 = g_solves g2
  | Raise e1, Raise e2 => e1 = e2
  | OutOfFuel, OutOfFuel => True
  | _, _ => False
  end.
Proof.
  revert p cur solves pr1 pr2.
  induction fuel as [|fuel IH]; intros p cur solves pr1 pr2; [done|].
  cbn [generation_loop].
  destruct (_greedy_increase cfuel self cur) as [C| |]; cbn [mbind result_bind];
    [|done..].
  destruct (solve _) as [s|]; [|done].
  destruct (_bitset_convex_hull cfuel self _) as [K| |]; cbn [mbind result_bind];
    [|done..].
  destruct (bitset_len K =? _n self); [done | apply IH].
Qed.

(** X15. [verbose] does not change what [hull_number] returns or raises,
    for any solver; without it nothing is printed, and with it one set is
    printed per call of [solve()]. *)
Theorem hull_number_verbose (solve : solver) self fuel value_only :
  hull_number solve fuel self value_only true
  = hull_number solve fuel self value_only false
  ∧ ∀ verbose a g,
      hull_number_run solve fuel self value_only verbose = Ok (a, Some g) →
      length (g_printed g) = if verbose then g_solves g else 0.
Proof.
  split.
  - unfold hull_number, hull_number_run. destruct (_n self <=? 2); [done|].
    pose proof (generation_loop_printing solve self fuel fuel true false
                  (initial_backend self) (initial_hull self) 0 [] []) as Hp.
    destruct (generation_loop solve fuel fuel self true _ _ _ _) as [g1| |],
      (generation_loop solve fuel fuel self false _ _ _ _) as [g2| |];
      try done; cbn [mbind result_bind].
    + destruct Hp as (-> & _ & _). destruct value_only; [done|].
      by destruct (_integers_to_vertices self _).
    + by subst.
  - intros verbose a g. unfold hull_number_run.
    destruct (_n self <=? 2); [by destruct value_only|].
    assert (∀ fuel' cfuel p cur solves printed g',
              generation_loop solve fuel' cfuel self verbose p cur solves printed
                = Ok g' →
              length (g_printed g') + (if verbose then solves else 0)
              = length printed + (if verbose then g_solves g' else 0)) as Hgen.
    { induction fuel' as [|fuel' IH]; intros cfuel p cur solves printed g'; [done|].
      cbn [generation_loop].
      destruct (_greedy_increase cfuel self cur) as [C| |]; cbn [mbind result_bind];
        [|done..].
      destruct (solve _) as [s|]; [|done].
      destruct (_bitset_convex_hull cfuel self _) as [K| |]; cbn [mbind result_bind];
        [|done..].
      destruct (bitset_len K =? _n self).
      - intros [= <-]. cbn [g_printed g_solves].
        destruct verbose; [rewrite length_app; simpl; lia | lia].
      - intros Hg'%IH. destruct verbose; [rewrite length_app in Hg'; simpl in Hg'; lia | lia]. }
    destruct (generation_loop solve fuel fuel self verbose _ _ _ _) as [g'| |] eqn:E;
      cbn [mbind result_bind]; [|done..].
    apply Hgen in E. simpl in E.
    destruct value_only.
    + intros [= _ <-]. destruct verbose; lia.
    + destruct (_integers_to_vertices self _); cbn [mbind result_bind]; [|done..].
      intros [= _ <-]. destruct verbose; lia.
Qed.

(** X16. With three vertices or more and an exact backend, when
    [hull_number] returns the backend holds [n] variables, asks for a
    minimum, and has one constraint more than the calls of [solve()]: the
    constraint that two variables are set, then for each call the
    constraint that a variable is set outside a convex set that is not the
    whole vertex set. *)
Theorem hull_number_backend_state (solve : solver) self fuel value_only verbose :
  exact_backend solve →
  3 ≤ _n self →
  2 ^ _n self < fuel →
  _n self = length (_list_integers_to_vertices self) →
  ∃ a g Cs,
    hull_number_run solve fuel self value_only verbose = Ok (a, Some g)
    ∧ ncols (g_backend g) = _n self
    ∧ is_maximization (g_backend g) = false
    ∧ constraints (g_backend g)
      = (map (λ i, (i, 1%Z)) (seq 0 (_n self)), Some 2%Z, None)
        :: map (λ C, (build_constraint (_n self) C, Some 1%Z, None)) Cs
    ∧ g_solves g = length Cs
    ∧ 1 ≤ g_solves g
    ∧ ∀ C, C ∈ Cs →
        length C = _n self ∧ convex self C ∧ bitset_len C < _n self
        ∧ build_constraint (_n self) C ≠ [].
Proof.
  intros Hsolve Hn Hfuel Hnlen.
  destruct (hull_number_loop_facts solve self fuel verbose Hsolve Hn Hfuel)
    as (g & Cs & Hg & Hbin & Hobj & Hclosure & Hcons & Hcols & Hmin & HCs
        & Hsol & Hsolves & Hpos).
  unfold hull_number_run. rewrite (proj2 (Nat.leb_gt _ _)) by lia.
  rewrite Hg. cbn [mbind result_bind].
  assert (∃ a, (if value_only
                then Ok (Number (to_int (get_objective_value (g_solution g))), Some g)
                else l ← _integers_to_vertices self
                           (selected (_n self) (g_solution g));
                     Ok (Vertices l, Some g)) = Ok (a, Some g)) as [a ->].
  { destruct value_only; [by eexists|].
    rewrite selected_chosen.
    destruct (integers_to_vertices_ok self (chosen (_n self) (g_solution g)) Hnlen)
      as (vs & -> & _).
    { intros k [_ Hk%elem_of_seq]%list_elem_of_filter. lia. }
    by eexists. }
  exists a, g, Cs. do 5 (split; [done || lia|]). split; [lia|].
  intros C HC.
  destruct (proj1 (Forall_forall _ _) HCs C HC) as (HlenC & HCconv & HCn).
  do 3 (split; [done|]).
  destruct (not_full_missing C ltac:(lia)) as (i & Hi & HCi).
  rewrite build_constraint_filter. intros Hnil.
  apply fmap_nil_inv in Hnil.
  assert (i ∈ filter (λ i, negb (bitset_in C i) = true) (seq 0 (_n self))) as Hin.
  { apply list_elem_of_filter. split; [by rewrite HCi|]. apply elem_of_seq. lia. }
  rewrite Hnil in Hin. by apply not_elem_of_nil in Hin.
Qed.

End HullNumberExtras.

(** ** The number of passes *)

Section PassCount.

Context {V : Type} `{Countable V}.
Implicit Types (self : ConvexityProperties V).

Lemma growing_passes self X k :
  (∀ m, m < k → bitset_len (Nat.iter (S m) (pass self) X)
                ≠ bitset_len (Nat.iter m (pass self) X)) →
  bitset_len X + k ≤ bitset_len (Nat.iter k (pass self) X).
Proof.
  induction k as [|k IH]; intros Hgrow; [simpl; lia|].
  specialize (IH ltac:(intros m Hm; apply Hgrow; lia)).
  pose proof (Hgrow k ltac:(lia)) as Hne.
  pose proof (pass_len_le self (Nat.iter k (pass self) X)) as Hle.
  simpl in *. lia.
Qed.

(** X17. Every pass of the closure loop but the last adds a vertex: the
    loop makes at most one pass more than the number of vertices it adds
    to the set. *)
Theorem closure_passes_bounded_by_growth self fuel X :
  length X = _n self →
  Nat.max 1 (_n self) ≤ fuel →
  ∃ r, _bitset_convex_hull_run fuel self X = Ok r
     ∧ bitset_len X ≤ bitset_len (cr_hull r)
     ∧ bitset_len (cr_hull r) ≤ _n self
     ∧ cr_passes r ≤ 1 + (bitset_len (cr_hull r) - bitset_len X).
Proof.
  intros Hlen Hfuel.
  destruct (bitset_convex_hull_run_ok self fuel X Hlen Hfuel)
    as (r & k & Hr & Hp & _ & Hh & Heq & Hgrow).
  exists r. split; [done|].
  pose proof (growing_passes self X k Hgrow) as Hk.
  pose proof (bitset_len_le_length (cr_hull r)) as Hcap.
  assert (length (cr_hull r) = _n self) as HlenC
    by by rewrite Hh, iter_pass_length.
  assert (bitset_len (cr_hull r) = bitset_len (Nat.iter k (pass self) X)) as HC
    by by rewrite Hh.
  lia.
Qed.

End PassCount.

(** ** Instances of the further theorems *)

Section FurtherInstances.

Lemma path5_symmetric : symmetric_distances path5.
Proof.
  intros a b Ha Hb.
  do 5 (destruct a as [|a];
        [do 5 (destruct b as [|b]; [reflexivity|]); vm_compute in Hb; lia|]).
  vm_compute in Ha. lia.
Qed.

Lemma tables_round_trip_witness :
  (∀ l : list nat, (∀ k, k ∈ l → k < order path5) →
     ∃ vs, _integers_to_vertices (instance_of path5) l = Ok vs
         ∧ _vertices_to_integers (instance_of path5) vs = Ok l)
  ∧ (∀ vs : list nat, (∀ v, v ∈ vs → v ∈ list_G path5) →
       ∃ l, _vertices_to_integers (instance_of path5) vs = Ok l
          ∧ _integers_to_vertices (instance_of path5) l = Ok vs
          ∧ ∀ k, k ∈ l → k < order path5).
Proof.
  apply (tables_round_trip path5 (instance_of path5));
    [reflexivity | apply (NoDup_seq 0 5)].
Defined.

Lemma unknown_vertex_raises_witness :
  (∀ fuel (vertices : list nat) v,
     v ∈ vertices → v ∉ list_G path5 →
     hull fuel (instance_of path5) vertices = Raise KeyError
     ∧ _vertices_to_integers (instance_of path5) vertices = Raise KeyError)
  ∧ (∀ (integers : list nat) k,
       (∀ i, i ∈ integers → (Z.of_nat i < 2 ^ 31)%Z) →
       k ∈ integers → order path5 ≤ k →
       _integers_to_vertices (instance_of path5) integers = Raise IndexError).
Proof.
  apply (unknown_vertex_raises path5 (instance_of path5));
    [reflexivity | apply (NoDup_seq 0 5) | vm_compute; lia].
Defined.

Lemma hull_extensive_sublist_witness :
  ∃ H', hull 5 (instance_of path5) [3; 0] = Ok H'
      ∧ (∀ v, v ∈ [3; 0] → v ∈ H')
      ∧ sublist H' (list_G path5).
Proof.
  apply (hull_extensive_sublist path5 (instance_of path5) 5 [3; 0]).
  - reflexivity.
  - apply (NoDup_seq 0 5).
  - vm_compute. lia.
  - apply Forall_forall. apply (bool_decide_unpack _). vm_compute. exact I.
Defined.

Lemma hull_of_same_elements_witness :
  hull 5 (instance_of path5) [0; 3] = hull 5 (instance_of path5) [3; 0; 3].
Proof.
  apply (hull_of_same_elements path5 (instance_of path5) 5 [0; 3] [3; 0; 3]).
  - reflexivity.
  - apply (NoDup_seq 0 5).
  - apply Forall_forall. apply (bool_decide_unpack _). vm_compute. exact I.
  - intros v. rewrite !elem_of_cons. pose proof (not_elem_of_nil v). tauto.
Defined.

Lemma hull_of_one_vertex_witness :
  hull 1 (instance_of path5) [2] = Ok [2]
  ∧ ∃ X, hull_run 1 (instance_of path5) [2] = Ok ([2], ClosureRun X 1 [[]]).
Proof.
  apply (hull_of_one_vertex path5 (instance_of path5) 1 2).
  - reflexivity.
  - apply (NoDup_seq 0 5).
  - lia.
  - apply (bool_decide_unpack _). vm_compute. exact I.
Defined.

Lemma hull_monotone_witness :
  ∃ H1 H2, hull 5 (instance_of path5) [1] = Ok H1
         ∧ hull 5 (instance_of path5) [1; 4] = Ok H2
         ∧ ∀ v, v ∈ H1 → v ∈ H2.
Proof.
  apply (hull_monotone path5 (instance_of path5) 5 [1] [1; 4]).
  - reflexivity.
  - apply (NoDup_seq 0 5).
  - vm_compute. lia.
  - apply Forall_forall. apply (bool_decide_unpack _). vm_compute. exact I.
  - apply Forall_forall. apply (bool_decide_unpack _). vm_compute. exact I.
Defined.

Lemma init_shape_witness :
  _n (instance_of path5) = order path5
  ∧ _list_integers_to_vertices (instance_of path5) = list_G path5
  ∧ length (_cache_hull_pairs (instance_of path5))
    = order path5 * (order path5 - 1) / 2
  ∧ (∀ r, r ∈ _cache_hull_pairs (instance_of path5) → length r = order path5)
  ∧ (∀ v k, _dict_vertices_to_integers (instance_of path5) !! v = Some k
            ↔ list_G path5 !! k = Some v).
Proof.
  apply (init_shape path5 (instance_of path5));
    [reflexivity | apply (NoDup_seq 0 5)].
Defined.

Lemma closure_reads_rows_of_members_witness :
  ∃ r, _bitset_convex_hull_run 5 (instance_of path5)
         [true; false; false; true; false] = Ok r
     ∧ length (cr_reads r) = cr_passes r
     ∧ ∀ reads p, reads ∈ cr_reads r → p ∈ reads →
         p < _n (instance_of path5) * (_n (instance_of path5) - 1) / 2
         ∧ ∃ i j, i < j < _n (instance_of path5)
                ∧ p = pair_index (_n (instance_of path5)) i j
                ∧ bitset_in (cr_hull r) i = true
                ∧ bitset_in (cr_hull r) j = true.
Proof.
  apply (closure_reads_rows_of_members (instance_of path5) 5
           [true; false; false; true; false]);
    [reflexivity | vm_compute; lia].
Defined.

Lemma closure_fixes_exactly_convex_witness :
  (convex (instance_of path5) [false; true; true; false; false]
   ↔ _bitset_convex_hull 5 (instance_of path5) [false; true; true; false; false]
     = Ok [false; true; true; false; false])
  ∧ (convex (instance_of path5) [false; true; true; false; false] →
     ∃ reads, _bitset_convex_hull_run 5 (instance_of path5)
                [false; true; true; false; false]
              = Ok (ClosureRun [false; true; true; false; false] 1 [reads])).
Proof.
  apply (closure_fixes_exactly_convex (instance_of path5) 5
           [false; true; true; false; false]);
    [reflexivity | vm_compute; lia].
Defined.

Lemma closure_is_least_geodesically_closed_witness :
  ∃ C, _bitset_convex_hull 5 (instance_of path5) [true; false; false; true; false]
       = Ok C
     ∧ subset [true; false; false; true; false] C
     ∧ geodesically_closed path5 C
     ∧ ∀ T, subset [true; false; false; true; false] T →
            geodesically_closed path5 T → subset C T.
Proof.
  apply (closure_is_least_geodesically_closed path5 (instance_of path5) 5
           [true; false; false; true; false]).
  - reflexivity.
  - apply path5_symmetric.
  - reflexivity.
  - vm_compute. lia.
Defined.

Lemma greedy_increase_maximal_convex_witness :
  ∃ R, _greedy_increase 5 (instance_of path5) [true; false; false; false; false]
       = Ok R
     ∧ length R = _n (instance_of path5)
     ∧ subset [true; false; false; false; false] R
     ∧ bitset_len R < _n (instance_of path5)
     ∧ convex (instance_of path5) R
     ∧ _bitset_convex_hull 5 (instance_of path5) R = Ok R
     ∧ ∀ i, i < _n (instance_of path5) → bitset_in R i = false →
         _bitset_convex_hull 5 (instance_of path5) (bitset_add R i)
         = Ok (full (_n (instance_of path5))).
Proof.
  apply (greedy_increase_maximal_convex (instance_of path5) 5
           [true; false; false; false; false]).
  - reflexivity.
  - vm_compute. lia.
  - exists [true; false; false; false; false].
    split; [vm_compute; reflexivity | vm_compute; lia].
Defined.

Lemma greedy_increase_on_generating_set_witness :
  _greedy_increase 5 (instance_of path5) [true; false; false; false; true]
  = Ok [true; false; false; false; true].
Proof.
  apply (greedy_increase_on_generating_set (instance_of path5) 5
           [true; false; false; false; true]).
  - reflexivity.
  - vm_compute. lia.
  - vm_compute. reflexivity.
Defined.

Lemma hull_number_is_minimum_witness :
  ∃ k, hull_number Exhaustive.solve 33 (instance_of path5) true false
       = Ok (Number k)
     ∧ (∃ Gstar, hull 33 (instance_of path5) Gstar = Ok (list_G path5)
               ∧ Z.of_nat (length Gstar) = k)
     ∧ ∀ Y : list nat, hull 33 (instance_of path5) Y = Ok (list_G path5) →
         (k ≤ Z.of_nat (length Y))%Z.
Proof.
  apply (hull_number_is_minimum path5 (instance_of path5) Exhaustive.solve 33 false).
  - reflexivity.
  - apply (NoDup_seq 0 5).
  - apply exhaustive_exact.
  - apply exhaustive_optimal.
  - vm_compute. lia.
Defined.

Lemma hull_number_solver_failure_witness :
  ∃ g, generation_loop Exhaustive.solve 33 33 (instance_of path5) false
         (initial_backend (instance_of path5))
         (initial_hull (instance_of path5)) 0 [] = Ok g
     ∧ 0 < g_solves g
     ∧ (∀ j, j ≤ g_solves g →
          hull_number (failing_after j Exhaustive.solve) 33
            (instance_of path5) true false
          = Raise MIPSolverException)
     ∧ (∀ j, g_solves g < j →
          hull_number (failing_after j Exhaustive.solve) 33
            (instance_of path5) true false
          = hull_number Exhaustive.solve 33 (instance_of path5) true false).
Proof.
  apply (hull_number_solver_failure Exhaustive.solve (instance_of path5) 33
           true false).
  - apply exhaustive_exact.
  - vm_compute. lia.
  - vm_compute. lia.
Defined.

(** On the path with five vertices the loop calls [solve()] twice: a
    backend that raises at the second call makes [hull_number] raise,
    one that would raise at the third changes nothing. *)
Example hull_number_failure_at_second_call :
  hull_number (failing_after 1 Exhaustive.solve) 33 (instance_of path5) true false
  = Raise MIPSolverException
  ∧ hull_number (failing_after 2 Exhaustive.solve) 33 (instance_of path5) true false
    = Raise MIPSolverException
  ∧ hull_number (failing_after 3 Exhaustive.solve) 33 (instance_of path5) true false
    = Ok (Number 2).
Proof. by vm_compute. Qed.

Lemma hull_number_backend_state_witness :
  ∃ a g Cs,
    hull_number_run Exhaustive.solve 33 (instance_of path5) true false
      = Ok (a, Some g)
    ∧ ncols (g_backend g) = _n (instance_of path5)
    ∧ is_maximization (g_backend g) = false
    ∧ constraints (g_backend g)
      = (map (λ i, (i, 1%Z)) (seq 0 (_n (instance_of path5))), Some 2%Z, None)
        :: map (λ C, (build_constraint (_n (instance_of path5)) C, Some 1%Z, None))
               Cs
    ∧ g_solves g = length Cs
    ∧ 1 ≤ g_solves g
    ∧ ∀ C, C ∈ Cs →
        length C = _n (instance_of path5) ∧ convex (instance_of path5) C
        ∧ bitset_len C < _n (instance_of path5)
        ∧ build_constraint (_n (instance_of path5)) C ≠ [].
Proof.
  apply (hull_number_backend_state Exhaustive.solve (instance_of path5) 33
           true false).
  - apply exhaustive_exact.
  - vm_compute. lia.
  - vm_compute. lia.
  - reflexivity.
Defined.

Lemma closure_passes_bounded_by_growth_witness :
  ∃ r, _bitset_convex_hull_run 5 (instance_of path5)
         [true; false; false; false; true] = Ok r
     ∧ bitset_len [true; false; false; false; true] ≤ bitset_len (cr_hull r)
     ∧ bitset_len (cr_hull r) ≤ _n (instance_of path5)
     ∧ cr_passes r
       ≤ 1 + (bitset_len (cr_hull r) - bitset_len [true; false; false; false; true]).
Proof.
  apply (closure_passes_bounded_by_growth (instance_of path5) 5
           [true; false; false; false; true]);
    [reflexivity | vm_compute; lia].
Defined.

End FurtherInstances.

Section VerboseInstance.

Lemma hull_number_verbose_witness :
  hull_number Exhaustive.solve 33 (instance_of path5) true true
  = hull_number Exhaustive.solve 33 (instance_of path5) true false
  ∧ ∀ verbose a g,
      hull_number_run Exhaustive.solve 33 (instance_of path5) true verbose
        = Ok (a, Some g) →
      length (g_printed g) = if verbose then g_solves g else 0.
Proof. apply (hull_number_verbose Exhaustive.solve (instance_of path5) 33 true). Defined.

End VerboseInstance.
